(** * transtamps: the chunking and transcript-reassembly pipeline of app.py

    A shallow embedding of [src/app.py] and the proofs of its specification.

    Conventions of the embedding.
    - Python [int] is [Z]; millisecond positions, byte counts and the
      configuration value MAX_CHUNK_SIZE_MB are integers.
    - A Python [float] is the rational number it holds.  The arithmetic
      on floats is binary64: [round64] rounds a rational to the nearest
      double, ties to even, and [double] adds the overflow.  [+] on the
      times of the transcript and [/] and [*] in the cost estimate are
      embedded with it; [int()] and [math.ceil] are exact.
    - [int(chunk_duration_ms * 0.9)], which steers the chunker, is
      embedded bit-exactly with the binary64 operations of [SpecFloat].
    - The offset of a chunk is carried as the rational [start / 1000]; it
      becomes the double [start / 1000.0] where it enters an addition.
    - Python [str] is [string]; a character is a code point below 256.
    - The temporary directory is a finite map from generated file names to
      file contents; the calls with an effect outside the process are
      recorded, in order, in an event log. *)

From Stdlib Require Import ZArith QArith Qround Qpower Qabs Lia Lqa List Bool Ascii String.
From Stdlib Require Import DecimalString DecimalZ SpecFloat Sorted.
From stdpp Require Import base option list gmap.

Local Open Scope Z_scope.

(* ================================================================= *)
(** ** Numbers *)

(** [int(x)] on a real [x]: truncation towards zero. *)
Definition py_int (x : Q) : Z := Z.quot (Qnum x) (Zpos (Qden x)).

(** [math.ceil(x)]. *)
Definition math_ceil (x : Q) : Z := Qceiling x.

(** The double nearest to a Python [int] (the conversion [int * float]
    performs on its left operand). *)
Definition float_of_int (n : Z) : spec_float := binary_normalize 53 1024 n 0 false.

(** The literal [0.9]: the double [0x1.ccccccccccccdp-1]. *)
Definition float_0_9 : spec_float := S754_finite false 8106479329266893 (-53).

(** [int(x)] on a double.  Python raises on infinities and NaN; the
    product of a window and [0.9] is always finite, and those inputs are
    sent to [0] here. *)
Definition int_of_float (x : spec_float) : Z :=
  match x with
  | S754_finite s m e => cond_Zopp s (Z.shiftl (Zpos m) e)
  | _ => 0
  end.

(* ================================================================= *)
(** ** format_time *)

(** [str(n)] for an integer: decimal digits with a leading minus sign. *)
Definition str_of_int (n : Z) : string := NilZero.string_of_int (Z.to_int n).

(** The format specification [:02d]: pad with zeros on the left up to a
    width of two characters.  A negative number already fills the width
    with its sign, so the sign-aware padding of Python never inserts a
    zero after a minus sign here. *)
Definition format_02d (n : Z) : string :=
  let s := str_of_int n in
  if (String.length s <? 2)%nat then ("0" ++ s)%string else s.

(** [divmod(a, b)] with floor division, as Python defines it. *)
Definition divmod (a b : Z) : Z * Z := (a / b, a mod b).

Definition format_time (seconds : Q) : string :=
  let '(minutes, seconds) := divmod (py_int seconds) 60 in
  (format_02d minutes ++ ":" ++ format_02d seconds)%string.

(* ================================================================= *)
(** ** binary64 *)

(** [floor (log2 q)] for [0 < q]. *)
Definition Qlog2 (q : Q) : Z :=
  let l := Z.log2 (Qnum q) - Z.log2 (Zpos (Qden q)) in
  if Qle_bool (2 ^ l) q then l else l - 1.

(** The integer nearest to [q], the even one of two that are equally
    near. *)
Definition round_half_even (q : Q) : Z :=
  let f := Qfloor q in
  match (q - inject_Z f ?= 1 # 2)%Q with
  | Lt => f
  | Gt => f + 1
  | Eq => if Z.even f then f else f + 1
  end.

(** The exponent of the unit in the last place of the doubles around
    [q]: 53 significant bits, and never below the subnormal [2 ^ -1074]. *)
Definition ulp_exp (q : Q) : Z := Z.max (Qlog2 (Qabs q) - 52) (-1074).

(** The multiple of [2 ^ e] nearest to [q]. *)
Definition grid (e : Z) (q : Q) : Q := (inject_Z (round_half_even (q / 2 ^ e)) * 2 ^ e)%Q.

(** Rounding to nearest, ties to even, with the precision and the least
    exponent of binary64 and no largest exponent. *)
Definition round64 (q : Q) : Q := grid (ulp_exp q) q.

(** The double nearest to [q]; [None] is an infinity: the rounded value
    does not fit below [2 ^ 1024].  A number of that size in a reply is
    read as an infinity, and a sum of that size is one. *)
Definition double (q : Q) : option Q :=
  let r := round64 q in
  if Qle_bool (2 ^ 1024) (Qabs r) then None else Some r.

(** [q] is a finite double. *)
Definition is_double (q : Q) : bool :=
  Qeq_bool (round64 q) q && negb (Qle_bool (2 ^ 1024) (Qabs q)).

(** The rational a finite [spec_float] holds, and the binary64 quotient
    and sum of [SpecFloat], against which [round64] is checked on
    concrete numbers. *)
Definition value_of_float (x : spec_float) : Q :=
  match x with
  | S754_finite s m e => (inject_Z (if s then Z.neg m else Z.pos m) * 2 ^ e)%Q
  | _ => 0%Q
  end.

Definition SF_quotient (n d : Z) : spec_float :=
  SFdiv 53 1024 (float_of_int n) (float_of_int d).

Definition SF_sum (x y : spec_float) : spec_float := SFadd 53 1024 x y.

(** [x + y] on floats.  Both operands are doubles ([double] leaves a
    double as it is, and a chunk offset [start / 1000] becomes the double
    [start / 1000.0]); the sum is rounded once.  [None] is a result that
    is not finite. *)
Definition fadd (x y : Q) : option Q :=
  match double x, double y with
  | Some a, Some b => double (a + b)
  | _, _ => None
  end.

(* ================================================================= *)
(** ** estimate_cost *)

(** Whisper pricing: $0.006 / minute.  The literal [0.006] is the double
    [0x1.89374bc6a7efap-8]. *)
Definition PricePerMinute : Q := 3458764513820541 # 576460752303423488.

(** [duration_seconds / 60] is the binary64 quotient (of a double, or of
    an [int], by 60), [minutes * 0.006] the binary64 product of the
    integer, which a double holds exactly, and the price. *)
Definition estimate_cost (duration_seconds : Q) : Q :=
  let minutes := math_ceil (round64 (duration_seconds / 60)) in
  let estimated_cost := round64 (inject_Z minutes * PricePerMinute) in
  estimated_cost.

(* ================================================================= *)
(** ** process_transcription *)

(** [str.isspace] on the code points below 256: TAB, LF, VT, FF, CR, the
    four separators FS GS RS US, space, NEL and the no-break space. *)
Definition isspace (c : ascii) : bool :=
  let n := N_of_ascii c in
  ((9 <=? n) && (n <=? 13) || (28 <=? n) && (n <=? 32)
   || (n =? 133) || (n =? 160))%N.

Fixpoint lstrip (s : string) : string :=
  match s with
  | EmptyString => EmptyString
  | String c s' => if isspace c then lstrip s' else s
  end.

Fixpoint rstrip (s : string) : string :=
  match s with
  | EmptyString => EmptyString
  | String c s' =>
      match rstrip s' with
      | EmptyString => if isspace c then EmptyString else String c EmptyString
      | r => String c r
      end
  end.

(** [str.strip()]. *)
Definition strip (s : string) : string := rstrip (lstrip s).

(** One segment of a verbose_json reply; [end_] is the field [end]. *)
Record segment := { start : Q; end_ : Q; text : string }.

(** The reply of the transcription service. *)
Record transcription := { segments : list segment }.

(** A row of the table, the dict with the keys 'Timestamp' and 'Text'. *)
Record row := { Timestamp : string; Text : string }.

(** The body of the inner loop.  The two sums never raise; [int()] in
    [format_time] raises on a time that is not finite, and [None] is that
    exception. *)
Definition append_row (time_offset : Q) (data : list row) (segment : segment)
    : option (list row) :=
  match fadd time_offset (start segment), fadd time_offset (end_ segment) with
  | Some start_time, Some end_time =>
      let timestamp :=
        (format_time start_time ++ " - " ++ format_time end_time)%string in
      let text := strip (text segment) in
      Some (data ++ [{| Timestamp := timestamp; Text := text |}])
  | _, _ => None
  end.

(** [for segment in transcription.segments]; an exception leaves it. *)
Fixpoint segments_loop (time_offset : Q) (segs : list segment) (data : list row)
    : option (list row) :=
  match segs with
  | [] => Some data
  | segment :: rest =>
      match append_row time_offset data segment with
      | Some data' => segments_loop time_offset rest data'
      | None => None
      end
  end.

(** [for transcription, time_offset in transcriptions]. *)
Fixpoint replies_loop (transcriptions : list (transcription * Q)) (data : list row)
    : option (list row) :=
  match transcriptions with
  | [] => Some data
  | (tr, time_offset) :: rest =>
      match segments_loop time_offset (segments tr) data with
      | Some data' => replies_loop rest data'
      | None => None
      end
  end.

(** [None] is an exception leaving the function. *)
Definition process_transcription (transcriptions : list (transcription * Q))
    : option (list row) :=
  replies_loop transcriptions [].

(* ================================================================= *)
(** ** The world outside the process *)

(** What a temporary MP3 file holds: the millisecond range of the source
    audio it encodes and its length on disk. *)
Record mp3_file := { src_start : Z; src_end : Z; size_bytes : Z }.

(** The calls that reach outside the process, stamped with the loop
    variables at the call. *)
Inductive event :=
| EvExport (name : nat) (start_ms window_ms end_ms size : Z)
    (* [chunk.export] into a fresh temporary file, while
       [chunk_duration_ms = window_ms] *)
| EvUnlink (name : nat)            (* [os.unlink] / [os.remove] *)
| EvError (msg : string)           (* [st.error] *)
| EvTranscribe (name : nat) (ok : bool)   (* the request to the service *)
| EvCsv (rows : list row).         (* [save_to_csv] *)

Record world := {
  tmp : gmap nat mp3_file;        (* the temporary directory *)
  csv : option (list row);        (* transcription.csv, when written *)
  log : list event                (* history, oldest first *)
}.

Definition emit (e : event) (w : world) : world :=
  {| tmp := tmp w; csv := csv w; log := log w ++ [e] |}.

(** [tempfile.NamedTemporaryFile(delete=False)]: a name no file of the
    directory has, then the file written under it. *)
Definition mktemp (w : world) : nat := fresh (dom (tmp w)).

Definition write_file (name : nat) (f : mp3_file) (w : world) : world :=
  {| tmp := <[name := f]> (tmp w); csv := csv w; log := log w |}.

(** [os.unlink(name)] and [os.remove(name)]. *)
Definition os_unlink (name : nat) (w : world) : world :=
  emit (EvUnlink name)
    {| tmp := delete name (tmp w); csv := csv w; log := log w |}.

Definition st_error (msg : string) (w : world) : world := emit (EvError msg) w.

(* ================================================================= *)
(** ** split_audio_by_size *)

(** The decoded [AudioSegment]: [len(audio)] in milliseconds, and the
    length on disk of [audio[s:e]] exported as MP3 at 64 kbit/s. *)
Record audio := { len_ms : N; export_bytes : Z -> Z -> Z }.

(** [chunk_duration_ms = int(chunk_duration_ms * 0.9)], in binary64. *)
Definition shrink (chunk_duration_ms : Z) : Z :=
  int_of_float (SFmul 53 1024 (float_of_int chunk_duration_ms) float_0_9).

(** [chunk_size_mb <= max_size_mb] with
    [chunk_size_mb = os.path.getsize(name) / (1024 * 1024)]. *)
Definition fits (size max_size_mb : Z) : bool :=
  let chunk_size_mb := (inject_Z size / inject_Z (1024 * 1024))%Q in
  Qle_bool chunk_size_mb (inject_Z max_size_mb).

Definition infeasible_msg : string := "Cannot split audio into small enough chunks.".

(** How the [while True] loop is left. *)
Inductive attempt_exit :=
| Accepted (name : nat) (chunk_duration_ms : Z)   (* [break] *)
| Infeasible.                                      (* [return []] *)

(** The inner loop.  [fuel] bounds the number of attempts. *)
Fixpoint attempt_loop (fuel : nat) (a : audio) (max_size_mb : Z)
    (start_ms chunk_duration_ms : Z) (w : world) : option (attempt_exit * world) :=
  match fuel with
  | O => None
  | S fuel' =>
      let total_duration_ms := Z.of_N (len_ms a) in
      let end_ms := Z.min (start_ms + chunk_duration_ms) total_duration_ms in
      let size := export_bytes a start_ms end_ms in
      let name := mktemp w in
      let w1 :=
        emit (EvExport name start_ms chunk_duration_ms end_ms size)
          (write_file name
             {| src_start := start_ms; src_end := end_ms; size_bytes := size |} w) in
      if fits size max_size_mb then Some (Accepted name chunk_duration_ms, w1)
      else
        let chunk_duration_ms := shrink chunk_duration_ms in
        let w2 := os_unlink name w1 in
        if chunk_duration_ms <? 10000 then Some (Infeasible, st_error infeasible_msg w2)
        else attempt_loop fuel' a max_size_mb start_ms chunk_duration_ms w2
  end.

(** A chunk as the list holds it: the file name and the start in seconds. *)
Definition chunk : Type := nat * Q.

(** How the function is left: [return chunks] or the [return []] of the
    inner loop. *)
Inductive split_exit :=
| Completed (chunks : list chunk)
| Aborted.

(** The outer loop; an iteration hands its remaining fuel to the inner one. *)
Fixpoint split_loop (fuel : nat) (a : audio) (max_size_mb : Z)
    (start_ms : Z) (chunks : list chunk) (w : world) : option (split_exit * world) :=
  match fuel with
  | O => None
  | S fuel' =>
      let total_duration_ms := Z.of_N (len_ms a) in
      if start_ms <? total_duration_ms then
        match attempt_loop fuel' a max_size_mb start_ms 60000 w with
        | None => None
        | Some (Accepted name chunk_duration_ms, w1) =>
            split_loop fuel' a max_size_mb (start_ms + chunk_duration_ms)
              (chunks ++ [(name, (inject_Z start_ms / 1000)%Q)]) w1
        | Some (Infeasible, w1) => Some (Aborted, w1)
        end
      else Some (Completed chunks, w)
  end.

Definition returned (e : split_exit) : list chunk :=
  match e with
  | Completed chunks => chunks
  | Aborted => []
  end.

Definition split_audio_by_size (fuel : nat) (a : audio) (max_size_mb : Z)
    (w : world) : option (list chunk * world) :=
  match split_loop fuel a max_size_mb 0 [] w with
  | Some (e, w') => Some (returned e, w')
  | None => None
  end.

(** The windows the inner loop tries one after the other when no attempt
    is accepted: from [w], under [shrink], down to the floor. *)
Fixpoint windows_from (fuel : nat) (chunk_duration_ms : Z) : list Z :=
  match fuel with
  | O => []
  | S fuel' =>
      chunk_duration_ms ::
        (let next := shrink chunk_duration_ms in
         if next <? 10000 then [] else windows_from fuel' next)
  end.

Definition window_chain : list Z := windows_from 32 60000.

Arguments shrink : simpl never.
Opaque window_chain.

(* ================================================================= *)
(** ** main: the body of the "Process Video" button *)

(** [extract_audio]: the compressed audio track, written to a fresh
    temporary file whose name is returned. *)
Definition extract_audio (blob : mp3_file) (w : world) : nat * world :=
  let name := mktemp w in (name, write_file name blob w).

(** The remote service: the reply to an uploaded file, or [None] when the
    request raises. *)
Definition service : Type := mp3_file -> option transcription.

(** [transcribe_audio]; [None] is an exception leaving the function, from
    [open] when the file is missing or from the request. *)
Definition transcribe_audio (whisper : service) (audio_file : nat) (time_offset : Q)
    (w : world) : option (transcription * Q) * world :=
  match tmp w !! audio_file with
  | None => (None, w)
  | Some f =>
      match whisper f with
      | Some tr => (Some (tr, time_offset), emit (EvTranscribe audio_file true) w)
      | None => (None, emit (EvTranscribe audio_file false) w)
      end
  end.

(** The loop [for idx, (chunk, time_offset) in enumerate(audio_chunks)];
    an exception of [transcribe_audio] leaves it at once. *)
Fixpoint transcribe_loop (whisper : service) (audio_chunks : list chunk)
    (transcriptions : list (transcription * Q)) (w : world)
    : option (list (transcription * Q)) * world :=
  match audio_chunks with
  | [] => (Some transcriptions, w)
  | (chunk, time_offset) :: rest =>
      match transcribe_audio whisper chunk time_offset w with
      | (None, w1) => (None, w1)
      | (Some tr, w1) =>
          let w2 := os_unlink chunk w1 in   (* Clean up the chunk file *)
          transcribe_loop whisper rest (transcriptions ++ [tr]) w2
      end
  end.

Definition save_to_csv (data : list row) (w : world) : world :=
  emit (EvCsv data) {| tmp := tmp w; csv := Some data; log := log w |}.

Definition split_failed_msg : string := "Failed to split audio into appropriate chunks.".

(** How the run is left. *)
Inductive run_exit :=
| Finished          (* the table is written *)
| SplitFailed       (* the [return] after "Failed to split ..." *)
| Raised            (* an exception of a transcription call *)
| ProcessingRaised. (* an exception of [process_transcription] *)

(** [blob] is what [extract_audio] writes for the chosen video and
    duration, [a] what [AudioSegment.from_file] decodes from it. *)
Definition main (fuel : nat) (blob : mp3_file) (a : audio) (max_size_mb : Z)
    (whisper : service) (w : world) : option (run_exit * world) :=
  let '(audio_file, w1) := extract_audio blob w in
  match split_audio_by_size fuel a max_size_mb w1 with
  | None => None
  | Some (audio_chunks, w2) =>
      match audio_chunks with
      | [] => Some (SplitFailed, st_error split_failed_msg w2)
      | _ =>
          match transcribe_loop whisper audio_chunks [] w2 with
          | (None, w3) => Some (Raised, w3)
          | (Some transcriptions, w3) =>
              let w4 := os_unlink audio_file w3 in   (* Clean up the extracted audio file *)
              match process_transcription transcriptions with
              | None => Some (ProcessingRaised, w4)
              | Some data => Some (Finished, save_to_csv data w4)
              end
          end
      end
  end.

(* ================================================================= *)
(** ** The assembler in the words of the specification *)

(** The segments of all replies, each with the offset of its reply, in
    reply order, then in segment order. *)
Definition timed (ts : list (transcription * Q)) : list (Q * segment) :=
  flat_map (fun '(tr, time_offset) => map (pair time_offset) (segments tr)) ts.

(** The absolute times (start, end) of a segment, when both are finite. *)
Definition absolute_time (p : Q * segment) : option (Q * Q) :=
  match fadd (fst p) (start (snd p)), fadd (fst p) (end_ (snd p)) with
  | Some st, Some en => Some (st, en)
  | _, _ => None
  end.

(** The label of a row, from its absolute times. *)
Definition label (t : Q * Q) : string :=
  (format_time (fst t) ++ " - " ++ format_time (snd t))%string.

(** The row of one segment of a reply with the given offset, in the
    words of the specification of the assembler. *)
Definition row_of (p : Q * segment) : option row :=
  match absolute_time p with
  | Some t => Some {| Timestamp := label t; Text := strip (text (snd p)) |}
  | None => None
  end.

(** The table in the words of the specification: the rows of the replies
    one after the other, in reply order, then in segment order. *)
Definition assemble (transcriptions : list (transcription * Q)) : option (list row) :=
  mapM row_of (timed transcriptions).

(** The number of segments of all replies. *)
Definition segment_count (ts : list (transcription * Q)) : nat :=
  list_sum (map (fun p => length (segments (fst p))) ts).

(** The absolute times (start, end) under the rows, in row order. *)
Definition absolute_times (ts : list (transcription * Q)) : option (list (Q * Q)) :=
  mapM absolute_time (timed ts).

(** The sums offset + start before they are rounded, in row order. *)
Definition exact_starts (ts : list (transcription * Q)) : list Q :=
  map (fun p => (fst p + start (snd p))%Q) (timed ts).

(** Every offset and every segment start is a finite double. *)
Definition times_are_doubles (ts : list (transcription * Q)) : Prop :=
  Forall (fun p => is_double (snd p) = true
                   /\ Forall (fun s => is_double (start s) = true) (segments (fst p)))
    ts.

(** Non-decreasing from one element to the next. *)
Fixpoint nondecreasing (l : list Q) : Prop :=
  match l with
  | x :: (y :: _) as t => (x <= y)%Q /\ nondecreasing t
  | _ => True
  end.

(** The offsets of the pairs are non-decreasing. *)
Definition offsets_nondecreasing (ts : list (transcription * Q)) : Prop :=
  nondecreasing (map snd ts).

(** In each reply the segment start times are non-decreasing. *)
Definition replies_ordered (ts : list (transcription * Q)) : Prop :=
  Forall (fun p => nondecreasing (map start (segments (fst p)))) ts.

(** No segment starts later than the gap to the offset of the next pair. *)
Fixpoint within_gaps (ts : list (transcription * Q)) : Prop :=
  match ts with
  | (tr, off) :: ((_, off') :: _) as rest =>
      Forall (fun s => (start s <= off' - off)%Q) (segments tr) /\ within_gaps rest
  | _ => True
  end.

(** No segment starts before its chunk does. *)
Definition starts_nonnegative (ts : list (transcription * Q)) : Prop :=
  Forall (fun p => Forall (fun s => (0 <= start s)%Q) (segments (fst p))) ts.

(* ================================================================= *)
(** ** The vocabulary of the chunker's specification *)

(** The cap in bytes. *)
Definition cap_bytes (max_size_mb : Z) : Z := max_size_mb * 1048576.

(** An accepted attempt: the file name, the cursor and the window. *)
Record step := { st_name : nat; st_start : Z; st_window : Z }.

(** The file an accepted attempt leaves on disk. *)
Definition file_of (a : audio) (st : step) : mp3_file :=
  let e := Z.min (st_start st + st_window st) (Z.of_N (len_ms a)) in
  {| src_start := st_start st; src_end := e;
     size_bytes := export_bytes a (st_start st) e |}.

(** The entry of the chunk list an accepted attempt appends. *)
Definition chunk_of (st : step) : chunk :=
  (st_name st, (inject_Z (st_start st) / 1000)%Q).

(** The cursor walks from [cur] to [fin] over the accepted attempts: each
    starts at the cursor, which lies before the end of the audio, uses a
    window of the chain, and moves the cursor on by that window. *)
Fixpoint walk (total : Z) (cur : Z) (steps : list step) (fin : Z) : Prop :=
  match steps with
  | [] => fin = cur
  | st :: rest =>
      st_start st = cur /\ cur < total /\ In (st_window st) window_chain
      /\ walk total (cur + st_window st) rest fin
  end.

(** The non-empty intervals [src_start, src_end) follow one another from
    [lo] to [hi] without a gap. *)
Fixpoint contiguous (lo hi : Z) (fs : list mp3_file) : Prop :=
  match fs with
  | [] => lo = hi
  | f :: rest => src_start f = lo /\ lo < src_end f /\ contiguous (src_end f) hi rest
  end.

(** An event of the chunker on [a]: an unlink, an error message, or an
    export that is an attempt on a window of the chain. *)
Definition chunker_event (a : audio) (e : event) : Prop :=
  match e with
  | EvExport _ s wd en sz =>
      In wd window_chain /\ en = Z.min (s + wd) (Z.of_N (len_ms a))
      /\ sz = export_bytes a s en
  | EvUnlink _ | EvError _ => True
  | EvTranscribe _ _ | EvCsv _ => False
  end.

(** Every export over the cap is followed at once by the unlink of its
    file. *)
Fixpoint rejected_unlinked (max_size_mb : Z) (evs : list event) : Prop :=
  match evs with
  | [] => True
  | EvExport n _ _ _ sz :: rest =>
      if fits sz max_size_mb then rejected_unlinked max_size_mb rest
      else
        match rest with
        | EvUnlink n' :: rest' => n' = n /\ rejected_unlinked max_size_mb rest'
        | _ => False
        end
  | _ :: rest => rejected_unlinked max_size_mb rest
  end.

(** Every request the service answers is followed at once by the unlink
    of the file that was sent. *)
Fixpoint transcribed_unlinked (evs : list event) : Prop :=
  match evs with
  | [] => True
  | EvTranscribe n true :: rest =>
      match rest with
      | EvUnlink n' :: rest' => n' = n /\ transcribed_unlinked rest'
      | _ => False
      end
  | _ :: rest => transcribed_unlinked rest
  end.

(** The check of one window of the chain: it lies between the floor and a
    minute, the double product truncates to floor(0.9 w), which is
    smaller, and the next window is again in the chain unless it is below
    the floor. *)
Definition window_check (w : Z) : bool :=
  (10000 <=? w) && (w <=? 60000) && (shrink w =? w * 9 / 10) && (shrink w <? w)
  && ((shrink w <? 10000) || existsb (Z.eqb (shrink w)) window_chain).

(* ================================================================= *)
(** ** Sample inputs *)

Definition seg (t0 t1 : Q) (txt : string) : segment :=
  {| start := t0; end_ := t1; text := txt |}.

Definition sample_replies : list (transcription * Q) :=
  [({| segments := [seg (1 # 2) 2 " a "] |}, 0%Q);
   ({| segments := [seg 0 1 "b"; seg (3 # 2) (5 # 2) "   "] |}, 60%Q)].

(** Two and a half minutes of audio that encodes to 8 bytes per
    millisecond, the rate of 64 kbit/s. *)
Definition sample_audio : audio :=
  {| len_ms := 150000; export_bytes := fun s e => (e - s) * 8 |}.

(** Audio of which every slice encodes to 30 000 000 bytes, over the cap
    of 24 MiB. *)
Definition dense_audio : audio :=
  {| len_ms := 150000; export_bytes := fun _ _ => 30000000 |}.

(** Audio of no duration. *)
Definition empty_audio : audio :=
  {| len_ms := 0; export_bytes := fun s e => (e - s) * 8 |}.

(** What [extract_audio] writes for [sample_audio]. *)
Definition sample_blob : mp3_file :=
  {| src_start := 0; src_end := 150000; size_bytes := 1200000 |}.

(** An empty temporary directory, no table, no history. *)
Definition empty_world : world := {| tmp := ∅; csv := None; log := [] |}.

(** A service that answers every request with one segment. *)
Definition sample_service : service :=
  fun _ => Some {| segments := [seg (1 # 2) (5 # 2) "  hi "] |}.

(** A service whose every request raises. *)
Definition failing_service : service := fun _ => None.

(** A service whose reply holds a start time too large for a double,
    which the reader of the reply turns into an infinity. *)
Definition infinite_service : service :=
  fun _ => Some {| segments := [seg (2 ^ 1024) (2 ^ 1024) "late"] |}.

(* ================================================================= *)
(** ** More vocabulary for the chunker *)

(** The test of one attempt: does the window from [start_ms], clamped to
    the end of the audio, export to a file within the cap? *)
Definition attempt_fits (a : audio) (max_size_mb : Z) (start_ms wd : Z) : bool :=
  fits (export_bytes a start_ms (Z.min (start_ms + wd) (Z.of_N (len_ms a))))
    max_size_mb.

(** [n] cursors one minute apart, from [start_ms]. *)
Fixpoint minute_marks (n : nat) (start_ms : Z) : list Z :=
  match n with
  | O => []
  | S n' => start_ms :: minute_marks n' (start_ms + 60000)
  end.

Definition is_export (e : event) : Prop :=
  match e with EvExport _ _ _ _ _ => True | _ => False end.

Definition is_error (e : event) : Prop :=
  match e with EvError _ => True | _ => False end.

Definition not_csv (e : event) : Prop :=
  match e with EvCsv _ => False | _ => True end.

(** Audio whose first minute encodes within the cap of 24 MiB and whose
    rest never does. *)
Definition late_dense_audio : audio :=
  {| len_ms := 150000;
     export_bytes := fun s e => if s <? 60000 then (e - s) * 8 else 30000000 |}.

(* ================================================================= *)
(** ** More vocabulary for texts *)

(** Every character is whitespace. *)
Fixpoint all_space (s : string) : Prop :=
  match s with
  | EmptyString => True
  | String c s' => isspace c = true /\ all_space s'
  end.

(** The text neither begins nor ends with whitespace. *)
Definition trimmed (s : string) : Prop := lstrip s = s /\ rstrip s = s.

(** The first character is whitespace. *)
Definition starts_with_space (s : string) : bool :=
  match s with
  | EmptyString => false
  | String c _ => isspace c
  end.

(** The last character is whitespace. *)
Fixpoint ends_with_space (s : string) : bool :=
  match s with
  | EmptyString => false
  | String c EmptyString => isspace c
  | String _ s' => ends_with_space s'
  end.

(** Every character satisfies [p]. *)
Fixpoint all_chars (p : ascii -> bool) (s : string) : bool :=
  match s with
  | EmptyString => true
  | String c s' => p c && all_chars p s'
  end.

(** The characters of a decimal number: the digits and the minus sign. *)
Definition number_char (c : ascii) : bool :=
  let n := N_of_ascii c in ((48 <=? n) && (n <=? 57) || (n =? 45))%N.

(** The characters of a timestamp label: those of numbers, the colon and
    the space. *)
Definition label_char (c : ascii) : bool :=
  number_char c || (N_of_ascii c =? 58)%N || (N_of_ascii c =? 32)%N.

(** Reading a decimal number back from its characters. *)
Definition int_of_str (s : string) : option Z :=
  option_map Z.of_int (NilZero.int_of_string s).

(* ================================================================= *)
(** ** Choosing what to process *)

(** [min(a, b)] on two numbers: [b] only when [b < a]. *)
Definition py_min (a b : Q) : Q := if Qle_bool a b then a else b.


(** The lines of [main] that choose the duration to process:
    [min(TEST_MODE_DURATION, video_duration)] in test mode, the whole
    video otherwise. *)
Definition duration_to_process (test_mode : bool) (TEST_MODE_DURATION : Z)
    (video_duration : Q) : Q :=
  if test_mode then py_min (inject_Z TEST_MODE_DURATION) video_duration
  else video_duration.


(* ================================================================= *)
(** ** save_to_csv: the text of the table *)

(** The excel dialect of the csv module: the delimiter, the quote
    character and the two characters of the line terminator. *)
Definition comma : ascii := ",".
Definition dquote : ascii := "034".
Definition cr : ascii := "013".
Definition lf : ascii := "010".
Definition crlf : string := String cr (String lf EmptyString).

(** The characters that make the writer quote a field (QUOTE_MINIMAL):
    the delimiter, the quote character and those of the line terminator. *)
Definition csv_special (c : ascii) : bool :=
  Ascii.eqb c comma || Ascii.eqb c dquote || Ascii.eqb c cr || Ascii.eqb c lf.

Fixpoint needs_quotes (s : string) : bool :=
  match s with
  | EmptyString => false
  | String c s' => csv_special c || needs_quotes s'
  end.

(** Inside quotes every quote character is written twice (doublequote). *)
Fixpoint double_quotes (s : string) : string :=
  match s with
  | EmptyString => EmptyString
  | String c s' =>
      if Ascii.eqb c dquote then String dquote (String dquote (double_quotes s'))
      else String c (double_quotes s')
  end.

(** One field as the writer writes it. *)
Definition csv_field (s : string) : string :=
  if needs_quotes s then String dquote (double_quotes s ++ String dquote EmptyString)
  else s.

(** [writer.writerow] on the two fields of the table. *)
Definition writerow (a b : string) : string :=
  (csv_field a ++ String comma (csv_field b ++ crlf))%string.

(** What [save_to_csv] writes to the file: [writeheader] for the field
    names 'Timestamp' and 'Text', then [writerow] for each row. *)
Definition csv_text (data : list row) : string :=
  fold_left (fun out r => (out ++ writerow (Timestamp r) (Text r))%string) data
    (writerow "Timestamp" "Text").

(** The rows after the header, one after the other. *)
Fixpoint csv_body (data : list row) : string :=
  match data with
  | [] => EmptyString
  | r :: rest => (writerow (Timestamp r) (Text r) ++ csv_body rest)%string
  end.

(** Reading one field back, for the proofs: the field and what follows
    it.  A quoted field ends at the first quote character that is not
    doubled, a plain one before the first special character. *)
Fixpoint read_quoted (s : string) : option (string * string) :=
  match s with
  | EmptyString => None
  | String c s' =>
      if Ascii.eqb c dquote then
        match s' with
        | String c2 s'' =>
            if Ascii.eqb c2 dquote then
              match read_quoted s'' with
              | Some (f, r) => Some (String dquote f, r)
              | None => None
              end
            else Some (EmptyString, s')
        | EmptyString => Some (EmptyString, EmptyString)
        end
      else
        match read_quoted s' with
        | Some (f, r) => Some (String c f, r)
        | None => None
        end
  end.

Fixpoint read_plain (s : string) : string * string :=
  match s with
  | EmptyString => (EmptyString, EmptyString)
  | String c s' =>
      if csv_special c then (EmptyString, s)
      else let '(f, r) := read_plain s' in (String c f, r)
  end.

Definition read_field (s : string) : option (string * string) :=
  match s with
  | EmptyString => Some (EmptyString, EmptyString)
  | String c s' => if Ascii.eqb c dquote then read_quoted s' else Some (read_plain s)
  end.

(** A reply with a text that holds a comma, quotes and a line break. *)
Definition quoted_replies : list (transcription * Q) :=
  [({| segments :=
         [seg 0 2 (String "H" (String "i" (String "," (String " "
            (String dquote (String "y" (String "o" (String "u" (String dquote
            (String lf (String "?" EmptyString)))))))))))] |}, 0%Q)].

(** The table of [quoted_replies]. *)
Definition quoted_rows : list row :=
  default [] (process_transcription quoted_replies).

(* ================================================================= *)
(** ** Counting the outside calls *)

(** The number of exports in a history. *)
Fixpoint exports (evs : list event) : nat :=
  match evs with
  | [] => O
  | EvExport _ _ _ _ _ :: rest => S (exports rest)
  | _ :: rest => exports rest
  end.


(** Two tables that differ only in where a comma belongs. *)
Definition comma_in_text : list row := [{| Timestamp := "a"; Text := "b,c" |}].
Definition comma_in_label : list row := [{| Timestamp := "a,b"; Text := "c" |}].

(* ================================================================= *)
(** * Properties *)

(* ================================================================= *)
(** ** binary64 rounding *)

Lemma pow2_pos (e : Z) : (0 < 2 ^ e)%Q.
Proof. apply Qpower_0_lt. reflexivity. Qed.

Lemma pow2_le (a b : Z) : a <= b -> (2 ^ a <= 2 ^ b)%Q.
Proof. intros H. apply Qpower_le_compat_l; [exact H | discriminate]. Qed.

Lemma pow2_lt (a b : Z) : a < b -> (2 ^ a < 2 ^ b)%Q.
Proof. intros H. apply Qpower_lt_compat_l; [exact H | reflexivity]. Qed.

Lemma pow2_plus (a b : Z) : (2 ^ (a + b) == 2 ^ a * 2 ^ b)%Q.
Proof. apply Qpower_plus. discriminate. Qed.

Lemma pow2_inject (n : Z) : 0 <= n -> (inject_Z (2 ^ n) == 2 ^ n)%Q.
Proof. intros H. apply (Zpower_Qpower 2 n H). Qed.

Lemma Qlog2_spec (q : Q) :
  (0 < q)%Q -> (2 ^ Qlog2 q <= q)%Q /\ (q < 2 ^ (Qlog2 q + 1))%Q.
Proof.
  intros Hq. destruct q as [n d].
  assert (Hn : 0 < n) by (unfold Qlt in Hq; simpl in Hq; lia).
  unfold Qlog2. cbn [Qnum Qden].
  set (a := Z.log2 n). set (b := Z.log2 (Z.pos d)).
  destruct (Z.log2_spec n Hn) as [Ha1 Ha2]. fold a in Ha1, Ha2.
  destruct (Z.log2_spec (Z.pos d) eq_refl) as [Hb1 Hb2]. fold b in Hb1, Hb2.
  assert (Ha0 : 0 <= a) by apply Z.log2_nonneg.
  assert (Hb0 : 0 <= b) by apply Z.log2_nonneg.
  assert (Hd : (0 < inject_Z (Z.pos d))%Q) by reflexivity.
  assert (Hlow : (2 ^ (a - b - 1) <= n # d)%Q).
  { rewrite (Qmake_Qdiv n d). apply Qle_shift_div_l; [exact Hd|].
    apply Qle_trans with (2 ^ (a - b - 1) * 2 ^ (b + 1))%Q.
    - apply Qmult_le_l; [apply pow2_pos|].
      rewrite <- pow2_inject by lia. rewrite <- Zle_Qle. lia.
    - rewrite <- pow2_plus. replace (a - b - 1 + (b + 1)) with a by lia.
      rewrite <- pow2_inject by lia. rewrite <- Zle_Qle. exact Ha1. }
  assert (Hup : (n # d < 2 ^ (a - b + 1))%Q).
  { rewrite (Qmake_Qdiv n d). apply Qlt_shift_div_r; [exact Hd|].
    apply Qlt_le_trans with (2 ^ (a - b + 1) * 2 ^ b)%Q.
    - rewrite <- pow2_plus. replace (a - b + 1 + b) with (a + 1) by lia.
      rewrite <- pow2_inject by lia. rewrite <- Zlt_Qlt.
      replace (a + 1) with (Z.succ a) by lia. exact Ha2.
    - apply Qmult_le_l; [apply pow2_pos|].
      rewrite <- pow2_inject by lia. rewrite <- Zle_Qle. exact Hb1. }
  destruct (Qle_bool (2 ^ (a - b)) (n # d)) eqn:Hc.
  - apply Qle_bool_iff in Hc. split; [exact Hc | exact Hup].
  - split; [exact Hlow|].
    replace (a - b - 1 + 1) with (a - b) by lia.
    apply Qnot_le_lt. intros Hle. apply Qle_bool_iff in Hle. congruence.
Qed.

Lemma Qlog2_unique (q : Q) (l : Z) :
  (2 ^ l <= q)%Q -> (q < 2 ^ (l + 1))%Q -> Qlog2 q = l.
Proof.
  intros H1 H2.
  assert (Hq : (0 < q)%Q) by (eapply Qlt_le_trans; [apply (pow2_pos l) | exact H1]).
  destruct (Qlog2_spec q Hq) as [S1 S2].
  destruct (Z.lt_trichotomy (Qlog2 q) l) as [Hlt|[Heq|Hgt]]; [|exact Heq|].
  - exfalso. apply (Qlt_irrefl q). eapply Qlt_le_trans; [exact S2|].
    eapply Qle_trans; [|exact H1]. apply pow2_le. lia.
  - exfalso. apply (Qlt_irrefl q). eapply Qlt_le_trans; [exact H2|].
    eapply Qle_trans; [|exact S1]. apply pow2_le. lia.
Qed.

Lemma Qlog2_comp (q q' : Q) : (0 < q)%Q -> (q == q')%Q -> Qlog2 q = Qlog2 q'.
Proof.
  intros Hq E. symmetry. destruct (Qlog2_spec q Hq) as [S1 S2].
  apply Qlog2_unique; rewrite <- E; assumption.
Qed.

Lemma Qlog2_mono (q q' : Q) : (0 < q)%Q -> (q <= q')%Q -> Qlog2 q <= Qlog2 q'.
Proof.
  intros Hq H.
  assert (Hq' : (0 < q')%Q) by (eapply Qlt_le_trans; eassumption).
  destruct (Qlog2_spec q Hq) as [S1 _]. destruct (Qlog2_spec q' Hq') as [_ S2'].
  destruct (Z_lt_le_dec (Qlog2 q') (Qlog2 q)) as [Hlt|]; [|assumption].
  exfalso. apply (Qlt_irrefl q'). eapply Qlt_le_trans; [exact S2'|].
  eapply Qle_trans; [|exact H]. eapply Qle_trans; [|exact S1]. apply pow2_le. lia.
Qed.

Lemma rhe_cases (x : Q) :
  let f := Qfloor x in
  (round_half_even x = f /\ (x - inject_Z f <= 1 # 2)%Q)
  \/ (round_half_even x = f + 1 /\ (1 # 2 <= x - inject_Z f)%Q).
Proof.
  intros f. unfold round_half_even. fold f.
  destruct (Qcompare_spec (x - inject_Z f) (1 # 2)) as [E|L|G].
  - destruct (Z.even f); [left | right]; (split; [reflexivity|]); rewrite E; apply Qle_refl.
  - left. split; [reflexivity | now apply Qlt_le_weak].
  - right. split; [reflexivity | now apply Qlt_le_weak].
Qed.

Lemma rhe_comp (x y : Q) : (x == y)%Q -> round_half_even x = round_half_even y.
Proof.
  intros E. unfold round_half_even. rewrite (Qfloor_comp x y E).
  assert (E' : (x - inject_Z (Qfloor y) == y - inject_Z (Qfloor y))%Q) by now rewrite E.
  rewrite (Qcompare_comp _ _ E' _ _ (Qeq_refl (1 # 2))). reflexivity.
Qed.

Lemma rhe_inject (n : Z) : round_half_even (inject_Z n) = n.
Proof.
  unfold round_half_even. rewrite Qfloor_Z.
  assert (E : (inject_Z n - inject_Z n ?= 1 # 2)%Q = Lt).
  { apply (proj1 (Qlt_alt _ _)).
    assert (Z0 : (inject_Z n - inject_Z n == 0)%Q) by ring.
    rewrite Z0. reflexivity. }
  now rewrite E.
Qed.

Lemma rhe_mono (x y : Q) : (x <= y)%Q -> round_half_even x <= round_half_even y.
Proof.
  intros H. pose proof (Qfloor_resp_le x y H) as Hf.
  pose proof (rhe_cases x) as Cx. pose proof (rhe_cases y) as Cy. cbv zeta in Cx, Cy.
  destruct (Z.eq_dec (Qfloor x) (Qfloor y)) as [E|N].
  2:{ destruct Cx as [[-> _]|[-> _]], Cy as [[-> _]|[-> _]]; lia. }
  unfold round_half_even. rewrite <- E.
  destruct (Qcompare_spec (x - inject_Z (Qfloor x)) (1 # 2)) as [Ex|Lx|Gx];
    destruct (Qcompare_spec (y - inject_Z (Qfloor x)) (1 # 2)) as [Ey|Ly|Gy];
    try (destruct (Z.even (Qfloor x))); try lia; exfalso; lra.
Qed.

Lemma rhe_error (x : Q) : (Qabs (inject_Z (round_half_even x) - x) <= 1 # 2)%Q.
Proof.
  pose proof (Qfloor_le x) as L. pose proof (Qlt_floor x) as U.
  rewrite inject_Z_plus in U. change (inject_Z 1) with 1%Q in U.
  apply Qabs_Qle_condition.
  destruct (rhe_cases x) as [[-> H]|[-> H]].
  - split; lra.
  - rewrite inject_Z_plus. change (inject_Z 1) with 1%Q. split; lra.
Qed.

Lemma round64_grid (q : Q) : round64 q = grid (ulp_exp q) q.
Proof. reflexivity. Qed.

Lemma grid_mono (e : Z) (q q' : Q) : (q <= q')%Q -> (grid e q <= grid e q')%Q.
Proof.
  intros H. unfold grid. apply Qmult_le_compat_r; [|apply Qlt_le_weak, pow2_pos].
  rewrite <- Zle_Qle. apply rhe_mono.
  apply Qmult_le_compat_r; [exact H|]. apply Qlt_le_weak, Qinv_lt_0_compat, pow2_pos.
Qed.

Lemma grid_point (e k : Z) : (grid e (inject_Z k * 2 ^ e) == inject_Z k * 2 ^ e)%Q.
Proof.
  unfold grid.
  assert (E : (inject_Z k * 2 ^ e / 2 ^ e == inject_Z k)%Q).
  { field. apply Qpower_not_0. discriminate. }
  rewrite (rhe_comp _ _ E), rhe_inject. reflexivity.
Qed.

Lemma grid_le (e k : Z) (q : Q) :
  (q <= inject_Z k * 2 ^ e)%Q -> (grid e q <= inject_Z k * 2 ^ e)%Q.
Proof. intros H. rewrite <- (grid_point e k). now apply grid_mono. Qed.

Lemma grid_ge (e k : Z) (q : Q) :
  (inject_Z k * 2 ^ e <= q)%Q -> (inject_Z k * 2 ^ e <= grid e q)%Q.
Proof. intros H. rewrite <- (grid_point e k). now apply grid_mono. Qed.

Lemma grid_comp (e : Z) (q q' : Q) : (q == q')%Q -> (grid e q == grid e q')%Q.
Proof.
  intros E. unfold grid.
  assert (E' : (q / 2 ^ e == q' / 2 ^ e)%Q) by now rewrite E.
  now rewrite (rhe_comp _ _ E').
Qed.

Lemma ulp_exp_upper (q : Q) : ~ (q == 0)%Q -> (Qabs q < inject_Z (2 ^ 53) * 2 ^ ulp_exp q)%Q.
Proof.
  intros Hq.
  assert (Hpos : (0 < Qabs q)%Q).
  { destruct (Qlt_le_dec 0 (Qabs q)) as [|H]; [assumption|].
    exfalso. apply Hq. pose proof (Qabs_nonneg q).
    assert (Z0 : (Qabs q == 0)%Q) by lra.
    destruct (Qlt_le_dec q 0) as [Hn|Hp].
    - rewrite Qabs_neg in Z0 by lra. lra.
    - rewrite Qabs_pos in Z0 by lra. exact Z0. }
  destruct (Qlog2_spec _ Hpos) as [_ S2].
  eapply Qlt_le_trans; [exact S2|]. rewrite (pow2_inject 53) by lia.
  rewrite <- pow2_plus. apply pow2_le. unfold ulp_exp. lia.
Qed.

Lemma ulp_exp_lower (q : Q) :
  ~ (q == 0)%Q -> -1074 < ulp_exp q -> (inject_Z (2 ^ 52) * 2 ^ ulp_exp q <= Qabs q)%Q.
Proof.
  intros Hq He.
  assert (Hpos : (0 < Qabs q)%Q).
  { destruct (Qlt_le_dec 0 (Qabs q)) as [|H]; [assumption|].
    exfalso. apply Hq. pose proof (Qabs_nonneg q).
    assert (Z0 : (Qabs q == 0)%Q) by lra.
    destruct (Qlt_le_dec q 0) as [Hn|Hp].
    - rewrite Qabs_neg in Z0 by lra. lra.
    - rewrite Qabs_pos in Z0 by lra. exact Z0. }
  destruct (Qlog2_spec _ Hpos) as [S1 _].
  eapply Qle_trans; [|exact S1]. rewrite (pow2_inject 52) by lia.
  rewrite <- pow2_plus. apply pow2_le. unfold ulp_exp in *. lia.
Qed.

Lemma ulp_exp_mono (q q' : Q) :
  ~ (q == 0)%Q -> (Qabs q <= Qabs q')%Q -> ulp_exp q <= ulp_exp q'.
Proof.
  intros Hq H.
  assert (Hpos : (0 < Qabs q)%Q).
  { destruct (Qlt_le_dec 0 (Qabs q)) as [|H0]; [assumption|].
    exfalso. apply Hq. pose proof (Qabs_nonneg q).
    assert (Z0 : (Qabs q == 0)%Q) by lra.
    destruct (Qlt_le_dec q 0) as [Hn|Hp].
    - rewrite Qabs_neg in Z0 by lra. lra.
    - rewrite Qabs_pos in Z0 by lra. exact Z0. }
  pose proof (Qlog2_mono _ _ Hpos H). unfold ulp_exp. lia.
Qed.

Lemma ulp_exp_comp (q q' : Q) : ~ (q == 0)%Q -> (q == q')%Q -> ulp_exp q = ulp_exp q'.
Proof.
  intros Hq E.
  assert (Hq' : ~ (q' == 0)%Q) by now rewrite <- E.
  apply Z.le_antisymm; apply ulp_exp_mono; try assumption; rewrite E; apply Qle_refl.
Qed.

Lemma round64_zero (q : Q) : (q == 0)%Q -> (round64 q == 0)%Q.
Proof.
  intros E. rewrite round64_grid.
  assert (E0 : (q == inject_Z 0 * 2 ^ ulp_exp q)%Q).
  { eapply Qeq_trans; [exact E|]. change (inject_Z 0) with 0%Q. ring. }
  rewrite (grid_comp _ _ _ E0), grid_point. change (inject_Z 0) with 0%Q. ring.
Qed.

Lemma round64_comp (q q' : Q) : (q == q')%Q -> (round64 q == round64 q')%Q.
Proof.
  intros E. destruct (Qeq_dec q 0) as [Z0|N0].
  - rewrite (round64_zero q Z0), (round64_zero q'); [reflexivity | now rewrite <- E].
  - rewrite !round64_grid, (ulp_exp_comp q q' N0 E). now apply grid_comp.
Qed.

Lemma grid_zero (e : Z) : (inject_Z 0 * 2 ^ e == 0)%Q.
Proof. change (inject_Z 0) with 0%Q. ring. Qed.

Lemma round64_nonneg (q : Q) : (0 <= q)%Q -> (0 <= round64 q)%Q.
Proof.
  intros H. rewrite round64_grid.
  apply Qle_trans with (inject_Z 0 * 2 ^ ulp_exp q)%Q;
    [rewrite grid_zero; apply Qle_refl|].
  apply grid_ge. rewrite grid_zero. exact H.
Qed.

Lemma round64_nonpos (q : Q) : (q <= 0)%Q -> (round64 q <= 0)%Q.
Proof.
  intros H. rewrite round64_grid.
  apply Qle_trans with (inject_Z 0 * 2 ^ ulp_exp q)%Q;
    [|rewrite grid_zero; apply Qle_refl].
  apply grid_le. rewrite grid_zero. exact H.
Qed.

Lemma pow2_53_step (e e' : Z) :
  e < e' -> (inject_Z (2 ^ 53) * 2 ^ e <= inject_Z (2 ^ 52) * 2 ^ e')%Q.
Proof.
  intros H. rewrite (pow2_inject 53), (pow2_inject 52) by lia.
  rewrite <- !pow2_plus. apply pow2_le. lia.
Qed.

(** Rounding to the nearest double is monotone. *)
Lemma round64_mono (q q' : Q) : (q <= q')%Q -> (round64 q <= round64 q')%Q.
Proof.
  intros H.
  destruct (Qlt_le_dec 0 q) as [Hpos|Hnp].
  - (* 0 < q <= q' *)
    assert (N : ~ (q == 0)%Q) by lra. assert (N' : ~ (q' == 0)%Q) by lra.
    assert (Hab : (Qabs q <= Qabs q')%Q) by (rewrite !Qabs_pos by lra; exact H).
    pose proof (ulp_exp_mono q q' N Hab) as He.
    rewrite !round64_grid.
    destruct (Z.eq_dec (ulp_exp q) (ulp_exp q')) as [E|NE].
    + rewrite E. now apply grid_mono.
    + assert (Hlt : ulp_exp q < ulp_exp q') by lia.
      pose proof (ulp_exp_upper q N) as U. rewrite Qabs_pos in U by lra.
      assert (Hm : -1074 < ulp_exp q') by (unfold ulp_exp in *; lia).
      pose proof (ulp_exp_lower q' N' Hm) as L. rewrite Qabs_pos in L by lra.
      eapply Qle_trans; [apply grid_le, Qlt_le_weak, U|].
      eapply Qle_trans; [apply pow2_53_step, Hlt|]. apply grid_ge, L.
  - destruct (Qlt_le_dec q' 0) as [Hneg|Hnn].
    + (* q <= q' < 0 *)
      assert (N : ~ (q == 0)%Q) by lra. assert (N' : ~ (q' == 0)%Q) by lra.
      assert (Hab : (Qabs q' <= Qabs q)%Q) by (rewrite !Qabs_neg by lra; lra).
      pose proof (ulp_exp_mono q' q N' Hab) as He.
      rewrite !round64_grid.
      destruct (Z.eq_dec (ulp_exp q) (ulp_exp q')) as [E|NE].
      * rewrite E. now apply grid_mono.
      * assert (Hlt : ulp_exp q' < ulp_exp q) by lia.
        pose proof (ulp_exp_upper q' N') as U. rewrite Qabs_neg in U by lra.
        assert (Hm : -1074 < ulp_exp q) by (unfold ulp_exp in *; lia).
        pose proof (ulp_exp_lower q N Hm) as L. rewrite Qabs_neg in L by lra.
        pose proof (pow2_53_step _ _ Hlt) as S.
        apply Qle_trans with (inject_Z (- 2 ^ 52) * 2 ^ ulp_exp q)%Q.
        { apply grid_le. rewrite inject_Z_opp. lra. }
        apply Qle_trans with (inject_Z (- 2 ^ 53) * 2 ^ ulp_exp q')%Q.
        { rewrite !inject_Z_opp. lra. }
        apply grid_ge. rewrite inject_Z_opp. lra.
    + eapply Qle_trans; [apply round64_nonpos, Hnp | apply round64_nonneg, Hnn].
Qed.

(** The error of rounding is at most half a unit in the last place. *)
Lemma round64_error (q : Q) : (Qabs (round64 q - q) <= (1 # 2) * 2 ^ ulp_exp q)%Q.
Proof.
  rewrite round64_grid. unfold grid. set (e := ulp_exp q).
  pose proof (pow2_pos e) as Hp.
  pose proof (rhe_error (q / 2 ^ e)) as H.
  set (m := inject_Z (round_half_even (q / 2 ^ e))) in *. clearbody m.
  assert (E : (m * 2 ^ e - q == (m - q / 2 ^ e) * 2 ^ e)%Q).
  { field. apply Qpower_not_0. discriminate. }
  rewrite E, Qabs_Qmult, (Qabs_pos (2 ^ e)) by now apply Qlt_le_weak.
  apply Qmult_le_compat_r; [exact H | now apply Qlt_le_weak].
Qed.

(** Below [2 ^ 47] in absolute value the error is at most [1 / 128]. *)
Lemma round64_error_small (q : Q) :
  (Qabs q < inject_Z (2 ^ 47))%Q -> (Qabs (round64 q - q) <= 1 # 128)%Q.
Proof.
  intros H. eapply Qle_trans; [apply round64_error|].
  assert (He : ulp_exp q <= -6).
  { destruct (Qeq_dec q 0) as [Z0|N0].
    - unfold ulp_exp.
      assert (Hl : Qlog2 (Qabs q) <= 46); [|lia].
      unfold Qlog2. destruct q as [n d]. unfold Qeq in Z0. cbn [Qnum Qden] in Z0.
      assert (n = 0) by (change (Qnum 0) with 0 in Z0; lia). subst n.
      cbn [Qabs Qnum Qden Z.abs]. change (Z.log2 (Z.abs 0)) with 0. pose proof (Z.log2_nonneg (Z.pos d)).
      destruct (Qle_bool _ _); lia.
    - assert (Hpos : (0 < Qabs q)%Q).
      { destruct (Qlt_le_dec 0 (Qabs q)) as [|H0]; [assumption|].
        exfalso. apply N0. pose proof (Qabs_nonneg q).
        assert (Z0 : (Qabs q == 0)%Q) by lra.
        destruct (Qlt_le_dec q 0) as [Hn|Hp].
        - rewrite Qabs_neg in Z0 by lra. lra.
        - rewrite Qabs_pos in Z0 by lra. exact Z0. }
      destruct (Qlog2_spec _ Hpos) as [S1 _].
      assert (Hl : Qlog2 (Qabs q) < 47).
      { destruct (Z_lt_le_dec (Qlog2 (Qabs q)) 47) as [|Hge]; [assumption|].
        exfalso. apply (Qlt_irrefl (Qabs q)). eapply Qlt_le_trans; [exact H|].
        eapply Qle_trans; [|exact S1]. rewrite (pow2_inject 47) by lia.
        now apply pow2_le. }
      unfold ulp_exp. lia. }
  apply Qle_trans with ((1 # 2) * 2 ^ (-6))%Q.
  - apply Qmult_le_l; [reflexivity | now apply pow2_le].
  - discriminate.
Qed.

(** Every integer below [2 ^ 53] in absolute value is a double. *)
Lemma round64_inject_Z (k : Z) : Z.abs k < 2 ^ 53 -> (round64 (inject_Z k) == inject_Z k)%Q.
Proof.
  intros Hk. destruct (Z.eq_dec k 0) as [->|N0]; [now apply round64_zero|].
  rewrite round64_grid. set (e := ulp_exp (inject_Z k)).
  assert (He : e <= 0).
  { subst e.
    assert (Hpos : (0 < Qabs (inject_Z k))%Q).
    { unfold Qabs, inject_Z, Qlt. simpl. lia. }
    destruct (Qlog2_spec _ Hpos) as [S1 _].
    assert (Hl : Qlog2 (Qabs (inject_Z k)) < 53).
    { destruct (Z_lt_le_dec (Qlog2 (Qabs (inject_Z k))) 53) as [|Hge]; [assumption|].
      exfalso. apply (Qlt_irrefl (Qabs (inject_Z k))).
      apply Qlt_le_trans with (inject_Z (2 ^ 53)).
      - unfold Qabs, inject_Z, Qlt. simpl. lia.
      - eapply Qle_trans; [|exact S1]. rewrite (pow2_inject 53) by lia.
        now apply pow2_le. }
    unfold ulp_exp. lia. }
  assert (E : (inject_Z k == inject_Z (k * 2 ^ (- e)) * 2 ^ e)%Q).
  { rewrite inject_Z_mult, (pow2_inject (- e)) by lia.
    rewrite <- Qmult_assoc, <- pow2_plus. replace (- e + e) with 0 by lia.
    change (2 ^ 0)%Q with 1%Q. ring. }
  rewrite (grid_comp _ _ _ E), grid_point. symmetry. exact E.
Qed.

(* ================================================================= *)
(** ** The embedding on concrete inputs *)

Example format_time_minutes : format_time (3725 # 1) = "62:05"%string.
Proof. reflexivity. Qed.

Example format_time_fraction : format_time (599 # 10) = "00:59"%string.
Proof. reflexivity. Qed.

Example strip_both_ends :
  strip (String "009" (String " " "hi there  ")) = "hi there"%string.
Proof. reflexivity. Qed.

Example strip_blank : strip "   " = ""%string.
Proof. reflexivity. Qed.

Example shrink_minute : shrink 60000 = 54000.
Proof. vm_compute. reflexivity. Qed.

Example shrink_truncates : shrink 39366 = 35429.
Proof. vm_compute. reflexivity. Qed.

Example shrink_below_floor : shrink 10003 = 9002.
Proof. vm_compute. reflexivity. Qed.

Example split_sample :
  option_map fst (split_audio_by_size 30 sample_audio 24 empty_world)
  = Some [(0%nat, (0 / 1000)%Q); (1%nat, (60000 / 1000)%Q); (2%nat, (120000 / 1000)%Q)].
Proof. vm_compute. reflexivity. Qed.

Example split_dense_aborts :
  option_map (fun r => (fst r, length (log (snd r)), List.last (log (snd r)) (EvUnlink 0)))
    (split_audio_by_size 30 dense_audio 24 empty_world)
  = Some ([], 37%nat, EvError infeasible_msg).
Proof. vm_compute. reflexivity. Qed.

Example estimate_cost_ten_minutes : (estimate_cost 600 == round64 0.06)%Q.
Proof. vm_compute. reflexivity. Qed.

(** Three minutes cost the double 0.018000000000000002, next above the
    product of 3 and the price. *)
Example estimate_cost_three_minutes :
  (estimate_cost 180 == 1297036692682703 # 72057594037927936)%Q
  /\ (3 * PricePerMinute < estimate_cost 180)%Q.
Proof. split; vm_compute; reflexivity. Qed.

Example PricePerMinute_double : is_double PricePerMinute = true.
Proof. vm_compute. reflexivity. Qed.

Example round64_ties_to_even :
  (round64 (1 # 2 ^ 1075) == 0)%Q /\ (round64 (3 # 2 ^ 1075) == 1 # 2 ^ 1073)%Q.
Proof. split; vm_compute; reflexivity. Qed.

Example fadd_rounds_up :
  fadd 60 ((2 ^ 53 - 1) # 2 ^ 53) = Some (grid (-47) (61 - (1 # 2 ^ 53)))
  /\ (grid (-47) (61 - (1 # 2 ^ 53)) == 61)%Q.
Proof. split; vm_compute; reflexivity. Qed.

Example fadd_overflows : fadd (2 ^ 1023) (2 ^ 1023) = None.
Proof. vm_compute. reflexivity. Qed.

(** [round64] and the operations of [SpecFloat] give the same doubles. *)
Example round64_as_SpecFloat :
  forallb (fun q => Qeq_bool (round64 q)
                      (value_of_float (SF_quotient (Qnum q) (Zpos (Qden q)))))
    [6 # 1000; 2223 # 100; 477 # 100; 1 # 3; 61 # 60; 180 # 60; -7 # 3;
     486 # 10; 1 # 1000000007; 123456789 # 1000]%Q
  = true.
Proof. vm_compute. reflexivity. Qed.

Example fadd_as_SpecFloat :
  forallb (fun p =>
             match fadd (fst p) (snd p) with
             | Some r =>
                 Qeq_bool r
                   (value_of_float
                      (SF_sum (SF_quotient (Qnum (fst p)) (Zpos (Qden (fst p))))
                              (SF_quotient (Qnum (snd p)) (Zpos (Qden (snd p))))))
             | None => false
             end)
    [(2223 # 100, 477 # 100); (60, (2 ^ 53 - 1) # 2 ^ 53); (486 # 10, 1 # 10);
     (1 # 10, 2 # 10); (-1 # 3, 1 # 7)]%Q
  = true.
Proof. vm_compute. reflexivity. Qed.

(** The offset 22.23 and the start 4.77 give the label 00:27. *)
Example label_rounds_up :
  process_transcription [({| segments := [seg (477 # 100) 5 "x"] |}, 2223 # 100)]
  = Some [{| Timestamp := "00:27 - 00:27"; Text := "x" |}].
Proof. vm_compute. reflexivity. Qed.

(* ================================================================= *)
(** ** format_time *)

Lemma py_int_inject_Z (s : Z) : py_int (inject_Z s) = s.
Proof. unfold py_int; simpl. apply Z.quot_1_r. Qed.

Lemma Qnum_nonneg (q : Q) : (0 <= q)%Q -> 0 <= Qnum q.
Proof. destruct q as [n d]. unfold Qle; simpl. lia. Qed.

(** On the non-negative reals truncation is the floor. *)
Lemma py_int_floor (q : Q) : (0 <= q)%Q -> py_int q = Qfloor q.
Proof.
  intros H. apply Qnum_nonneg in H. destruct q as [n d]; simpl in *.
  unfold py_int; simpl. apply Z.quot_div_nonneg; lia.
Qed.

Lemma py_int_nonneg (q : Q) : (0 <= q)%Q -> 0 <= py_int q.
Proof.
  intros H. rewrite py_int_floor by exact H.
  change 0 with (Qfloor 0). now apply Qfloor_resp_le.
Qed.

Lemma below_100_cases (n : Z) :
  0 <= n < 100 -> exists k : nat, (k < 100)%nat /\ n = Z.of_nat k.
Proof. intros H. exists (Z.to_nat n). lia. Qed.

(** Below one hundred the field has exactly two characters. *)
Lemma format_02d_width (n : Z) :
  0 <= n < 100 -> String.length (format_02d n) = 2%nat.
Proof.
  intros H. destruct (below_100_cases n H) as (k & Hk & ->).
  do 100 (destruct k as [|k]; [reflexivity|]). lia.
Qed.

(** A single digit is printed behind a zero. *)
Lemma format_02d_pad (n : Z) :
  0 <= n < 10 ->
  format_02d n = String "0" (String (ascii_of_N (48 + Z.to_N n)) EmptyString).
Proof.
  intros H. destruct (below_100_cases n ltac:(lia)) as (k & Hk & ->).
  do 10 (destruct k as [|k]; [reflexivity|]). lia.
Qed.

Lemma format_time_unfold (q : Q) :
  format_time q =
  (format_02d (py_int q / 60) ++ ":" ++ format_02d (py_int q mod 60))%string.
Proof. reflexivity. Qed.

(** C8, as the code has it.  For an integer s >= 0, format_time gives the
    two-digit zero-padded s // 60, a colon and the two-digit zero-padded
    s % 60; for every real s >= 0 it is invariant under s -> floor(s);
    from 3600 seconds on the minute field is 60 or more, there is no hour
    field. *)
Theorem format_time_law :
  (forall s : Z, 0 <= s ->
     format_time (inject_Z s)
       = (format_02d (s / 60) ++ ":" ++ format_02d (s mod 60))%string
     /\ String.length (format_02d (s mod 60)) = 2%nat
     /\ (s < 6000 -> String.length (format_02d (s / 60)) = 2%nat)
     /\ (s < 600 -> exists d, format_02d (s / 60) = String "0" (String d EmptyString)))
  /\ (forall q : Q, (0 <= q)%Q ->
        format_time q = format_time (inject_Z (Qfloor q)))
  /\ (forall q : Q, (3600 <= q)%Q ->
        exists m sec : Z,
          format_time q = (format_02d m ++ ":" ++ format_02d sec)%string
          /\ 60 <= m /\ 0 <= sec < 60 /\ py_int q = 60 * m + sec).
Proof.
  split; [|split].
  - intros s Hs. rewrite format_time_unfold, py_int_inject_Z.
    split; [reflexivity|]. split; [|split].
    + apply format_02d_width. pose proof (Z.mod_pos_bound s 60). lia.
    + intros Hlt. apply format_02d_width.
      split; [apply Z.div_pos; lia | apply Z.div_lt_upper_bound; lia].
    + intros Hlt. eexists. apply format_02d_pad.
      split; [apply Z.div_pos; lia | apply Z.div_lt_upper_bound; lia].
  - intros q Hq. rewrite !format_time_unfold, py_int_inject_Z.
    now rewrite py_int_floor.
  - intros q Hq. exists (py_int q / 60), (py_int q mod 60).
    assert (H0 : (0 <= q)%Q) by (eapply Qle_trans; [|exact Hq]; discriminate).
    assert (H1 : 3600 <= py_int q).
    { rewrite py_int_floor by exact H0.
      change 3600 with (Qfloor (inject_Z 3600)). now apply Qfloor_resp_le. }
    split; [apply format_time_unfold|]. split; [|split].
    + apply Z.div_le_lower_bound; lia.
    + apply Z.mod_pos_bound; lia.
    + apply Z.div_mod; lia.
Qed.

Lemma format_time_law_witness :
  format_time (inject_Z 125) = "02:05"%string
  /\ format_time (7 # 2) = format_time (inject_Z (Qfloor (7 # 2)))
  /\ exists m sec : Z,
       format_time (7325 # 1) = (format_02d m ++ ":" ++ format_02d sec)%string
       /\ 60 <= m /\ 0 <= sec < 60 /\ py_int (7325 # 1) = 60 * m + sec.
Proof.
  destruct format_time_law as (Hint & Hfloor & Hhour).
  split; [|split].
  - destruct (Hint 125 ltac:(lia)) as (H & _). rewrite H. reflexivity.
  - apply Hfloor. discriminate.
  - apply Hhour. discriminate.
Defined.

(** C8, as stated, fails below zero: [int] truncates towards zero, so
    -0.5 is printed as zero seconds while its floor -1 is printed as
    minute -1, second 59. *)
Lemma format_time_floor_negative :
  format_time (-1 # 2) = "00:00"%string
  /\ format_time (inject_Z (Qfloor (-1 # 2))) = "-1:59"%string
  /\ format_time (-1 # 2) <> format_time (inject_Z (Qfloor (-1 # 2))).
Proof. split; [reflexivity|]. split; [reflexivity|]. discriminate. Qed.

(* ================================================================= *)
(** ** estimate_cost *)

Lemma math_ceil_mono (x y : Q) : (x <= y)%Q -> math_ceil x <= math_ceil y.
Proof. apply Qceiling_resp_le. Qed.

Lemma estimate_cost_mono (d1 d2 : Q) :
  (d1 <= d2)%Q -> (estimate_cost d1 <= estimate_cost d2)%Q.
Proof.
  intros H. unfold estimate_cost. apply round64_mono.
  apply Qmult_le_compat_r; [|discriminate].
  rewrite <- Zle_Qle. apply math_ceil_mono, round64_mono.
  apply Qmult_le_compat_r; [exact H | discriminate].
Qed.

(** The rounding of the quotient does not change the number of minutes
    when the quotient is a whole number, or lies at least 1/64 above one. *)
Lemma minutes_whole (d : Q) (k : Z) :
  Z.abs k < 2 ^ 53 -> (d / 60 == inject_Z k)%Q -> math_ceil (round64 (d / 60)) = k.
Proof.
  intros Hk E. unfold math_ceil.
  rewrite (Qceiling_comp _ _ (round64_comp _ _ E)).
  rewrite (Qceiling_comp _ _ (round64_inject_Z k Hk)). apply Qceiling_Z.
Qed.

Lemma minutes_between (d : Q) (k : Z) :
  0 <= k < 2 ^ 46 ->
  (inject_Z k + (1 # 64) <= d / 60)%Q -> (d / 60 <= inject_Z (k + 1))%Q ->
  math_ceil (round64 (d / 60)) = k + 1.
Proof.
  intros Hk Hlo Hhi. unfold math_ceil. set (q := (d / 60)%Q) in *.
  assert (Hk0 : (0 <= inject_Z k)%Q) by (change 0%Q with (inject_Z 0); rewrite <- Zle_Qle; lia).
  assert (Hq47 : (Qabs q < inject_Z (2 ^ 47))%Q).
  { rewrite Qabs_pos by lra. eapply Qle_lt_trans; [exact Hhi|].
    rewrite <- Zlt_Qlt. lia. }
  pose proof (round64_error_small q Hq47) as Herr.
  apply Qabs_Qle_condition in Herr. destruct Herr as [Herr _].
  apply Z.le_antisymm.
  - rewrite <- (Qceiling_Z (k + 1)). apply Qceiling_resp_le.
    rewrite <- (round64_inject_Z (k + 1)) by lia. now apply round64_mono.
  - assert (Hlt : k < Qceiling (round64 q)); [|lia].
    rewrite Zlt_Qlt. eapply Qlt_le_trans; [|apply Qle_ceiling]. lra.
Qed.

(** C9.  estimate_cost(d) is ceil(d / 60) times the price per minute,
    0.006, as binary64 computes them: the quotient is rounded before the
    ceiling, the price is the double nearest to 0.006, and the product is
    rounded.  The rounding of the quotient leaves the number of minutes
    as it is wherever the quotient lies at least 1/64 above a whole number
    below 2 ^ 46.  The estimate is monotone in d; it is 0 at 0, one price
    at 60 and two prices at 61. *)
Theorem estimate_cost_law :
  (forall d : Q,
     estimate_cost d = round64 (inject_Z (math_ceil (round64 (d / 60))) * PricePerMinute))
  /\ (PricePerMinute == round64 0.006)%Q
  /\ (forall (d : Q) (k : Z),
        0 <= k < 2 ^ 46 ->
        (inject_Z k + (1 # 64) <= d / 60)%Q -> (d / 60 <= inject_Z (k + 1))%Q ->
        math_ceil (round64 (d / 60)) = Qceiling (d / 60))
  /\ (forall d1 d2 : Q, (d1 <= d2)%Q -> (estimate_cost d1 <= estimate_cost d2)%Q)
  /\ (estimate_cost 0 == 0)%Q
  /\ (estimate_cost 60 == PricePerMinute)%Q
  /\ (estimate_cost 61 == 2 * PricePerMinute)%Q.
Proof.
  split; [intros d; reflexivity|].
  split; [vm_compute; reflexivity|].
  split.
  { intros d k Hk Hlo Hhi. rewrite (minutes_between d k Hk Hlo Hhi).
    symmetry. apply Z.le_antisymm.
    - rewrite <- (Qceiling_Z (k + 1)). now apply Qceiling_resp_le.
    - assert (Hlt : k < Qceiling (d / 60)); [|lia].
      rewrite Zlt_Qlt. eapply Qlt_le_trans; [|apply Qle_ceiling].
      assert (0 < 1 # 64)%Q by reflexivity. lra. }
  split; [exact estimate_cost_mono|].
  repeat split; vm_compute; reflexivity.
Qed.

Lemma estimate_cost_law_witness :
  (estimate_cost (125 # 2) <= estimate_cost 3599)%Q
  /\ math_ceil (round64 (3599 / 60)) = 60.
Proof.
  destruct estimate_cost_law as (_ & _ & Hmin & Hmono & _).
  split.
  - apply Hmono. discriminate.
  - rewrite (Hmin 3599%Q 59); [reflexivity | lia | discriminate | discriminate].
Defined.

(* ================================================================= *)
(** ** Trimming *)

Lemma str_app_cons (c : ascii) (s t : string) :
  (String c s ++ t)%string = String c (s ++ t)%string.
Proof. reflexivity. Qed.

Lemma str_app_nil_l (s : string) : ("" ++ s)%string = s.
Proof. reflexivity. Qed.

Lemma str_app_assoc (s1 s2 s3 : string) :
  ((s1 ++ s2) ++ s3 = s1 ++ (s2 ++ s3))%string.
Proof.
  induction s1 as [|c s1 IH]; [reflexivity|].
  rewrite !str_app_cons. now rewrite IH.
Qed.

Lemma str_app_nil_r (s : string) : (s ++ "")%string = s.
Proof.
  induction s as [|c s IH]; [reflexivity|].
  rewrite str_app_cons. now rewrite IH.
Qed.

Lemma lstrip_split (s : string) :
  exists l, s = (l ++ lstrip s)%string /\ all_space l.
Proof.
  induction s as [|c s (l & Hl & Hsp)]; simpl.
  - exists EmptyString. split; [reflexivity | exact I].
  - destruct (isspace c) eqn:Hc.
    + exists (String c l). rewrite str_app_cons.
      split; [now rewrite <- Hl | simpl; auto].
    + exists EmptyString. split; [reflexivity | exact I].
Qed.

Lemma rstrip_split (s : string) :
  exists r, s = (rstrip s ++ r)%string /\ all_space r.
Proof.
  induction s as [|c s (r & Hr & Hsp)]; simpl.
  - exists EmptyString. split; [reflexivity | exact I].
  - destruct (rstrip s) as [|c' t] eqn:Ht.
    + rewrite str_app_nil_l in Hr. subst r. destruct (isspace c) eqn:Hc.
      * exists (String c s). rewrite str_app_nil_l. simpl. auto.
      * exists s. rewrite str_app_cons, str_app_nil_l. auto.
    + exists r. rewrite str_app_cons. split; [now rewrite <- Hr | exact Hsp].
Qed.

(** What [lstrip] returns is empty or begins with a character that is
    not whitespace. *)
Lemma lstrip_head (s : string) :
  match lstrip s with
  | EmptyString => True
  | String c _ => isspace c = false
  end.
Proof.
  induction s as [|c s IH]; simpl; [exact I|].
  destruct (isspace c) eqn:Hc; [exact IH | exact Hc].
Qed.

Lemma rstrip_idempotent (s : string) : rstrip (rstrip s) = rstrip s.
Proof.
  induction s as [|c s IH]; simpl; [reflexivity|].
  destruct (rstrip s) as [|c' t] eqn:Ht.
  - destruct (isspace c) eqn:Hc; simpl; [reflexivity | now rewrite Hc].
  - cbn [rstrip]. cbn [rstrip] in IH. rewrite IH. reflexivity.
Qed.

(** [rstrip] keeps the first character of a text that begins with a
    character that is not whitespace. *)
Lemma rstrip_keeps_head (c : ascii) (s : string) :
  isspace c = false -> exists t, rstrip (String c s) = String c t.
Proof.
  intros Hc. simpl. destruct (rstrip s); rewrite ?Hc; eauto.
Qed.

Lemma strip_trimmed (s : string) : trimmed (strip s).
Proof.
  unfold trimmed, strip. split; [|apply rstrip_idempotent].
  pose proof (lstrip_head s) as Hh. destruct (lstrip s) as [|c t]; [reflexivity|].
  destruct (rstrip_keeps_head c t Hh) as (u & ->). simpl. now rewrite Hh.
Qed.


(* ================================================================= *)
(** ** process_transcription *)

Lemma rstrip_end (s : string) : ends_with_space (rstrip s) = false.
Proof.
  induction s as [|c s IH]; simpl; [reflexivity|].
  destruct (rstrip s) as [|c' r] eqn:E.
  - destruct (isspace c) eqn:Hc; simpl; [reflexivity | exact Hc].
  - exact IH.
Qed.

(** What [strip] returns, without reference to how it is computed: the
    text without a run of whitespace at each end, and such that it
    neither begins nor ends with whitespace. *)
Lemma strip_pinned (s : string) :
  exists l t,
    s = (l ++ strip s ++ t)%string /\ all_space l /\ all_space t
    /\ starts_with_space (strip s) = false /\ ends_with_space (strip s) = false.
Proof.
  destruct (lstrip_split s) as (l & Hl & Hsl).
  destruct (rstrip_split (lstrip s)) as (t & Ht & Hst).
  exists l, t. split; [|split; [exact Hsl|split; [exact Hst|split]]].
  - unfold strip. rewrite <- Ht. exact Hl.
  - unfold strip. pose proof (lstrip_head s) as Hh.
    destruct (lstrip s) as [|c x]; [reflexivity|].
    destruct (rstrip_keeps_head c x Hh) as (y & ->). exact Hh.
  - apply rstrip_end.
Qed.

Lemma append_row_row_of (off : Q) (data : list row) (s : segment) :
  append_row off data s
  = match row_of (off, s) with
    | Some r => Some (data ++ [r])
    | None => None
    end.
Proof.
  unfold append_row, row_of, absolute_time. cbn [fst snd].
  destruct (fadd off (start s)), (fadd off (end_ s)); reflexivity.
Qed.

Lemma mapM_cons {A B : Type} (f : A -> option B) (x : A) (l : list A) :
  mapM f (x :: l)
  = match f x, mapM f l with
    | Some y, Some k => Some (y :: k)
    | _, _ => None
    end.
Proof. cbn. destruct (f x); [|reflexivity]. cbn. destruct (mapM f l); reflexivity. Qed.

Lemma mapM_app_option {A B : Type} (f : A -> option B) (l1 l2 : list A) :
  mapM f (l1 ++ l2)
  = match mapM f l1, mapM f l2 with
    | Some k1, Some k2 => Some (k1 ++ k2)
    | _, _ => None
    end.
Proof.
  induction l1 as [|x l1 IH].
  - cbn. destruct (mapM f l2); reflexivity.
  - rewrite <- app_comm_cons, !mapM_cons, IH.
    destruct (f x), (mapM f l1), (mapM f l2); reflexivity.
Qed.

Lemma segments_loop_mapM (off : Q) (segs : list segment) :
  forall data,
    segments_loop off segs data
    = match mapM row_of (map (pair off) segs) with
      | Some rows => Some (data ++ rows)
      | None => None
      end.
Proof.
  induction segs as [|s segs IH]; intros data.
  - cbn. now rewrite app_nil_r.
  - cbn [segments_loop map]. rewrite append_row_row_of, mapM_cons.
    destruct (row_of (off, s)) as [r|]; [|reflexivity].
    rewrite IH. destruct (mapM row_of (map (pair off) segs)); [|reflexivity].
    now rewrite <- app_assoc.
Qed.

Lemma timed_cons (tr : transcription) (off : Q) (ts : list (transcription * Q)) :
  timed ((tr, off) :: ts) = map (pair off) (segments tr) ++ timed ts.
Proof. reflexivity. Qed.

Lemma timed_app (ts1 ts2 : list (transcription * Q)) :
  timed (ts1 ++ ts2) = timed ts1 ++ timed ts2.
Proof. unfold timed. apply flat_map_app. Qed.

Lemma replies_loop_assemble (ts : list (transcription * Q)) :
  forall data,
    replies_loop ts data
    = match assemble ts with
      | Some rows => Some (data ++ rows)
      | None => None
      end.
Proof.
  unfold assemble. induction ts as [|[tr off] ts IH]; intros data.
  - cbn. now rewrite app_nil_r.
  - cbn [replies_loop]. rewrite timed_cons, mapM_app_option, segments_loop_mapM.
    destruct (mapM row_of (map (pair off) (segments tr))); [|reflexivity].
    rewrite IH. destruct (mapM row_of (timed ts)); [|reflexivity].
    now rewrite <- app_assoc.
Qed.

(** The loops of the source compute the table of the specification. *)
Lemma process_transcription_assemble (ts : list (transcription * Q)) :
  process_transcription ts = assemble ts.
Proof.
  unfold process_transcription. rewrite replies_loop_assemble.
  destruct (assemble ts); reflexivity.
Qed.

Lemma timed_length (ts : list (transcription * Q)) :
  length (timed ts) = segment_count ts.
Proof.
  unfold segment_count. induction ts as [|[tr off] ts IH]; [reflexivity|].
  rewrite timed_cons, length_app, length_map, IH. reflexivity.
Qed.

Lemma timed_lookup (ts1 ts2 : list (transcription * Q)) (tr : transcription)
    (off : Q) (ss1 ss2 : list segment) (s : segment) :
  segments tr = ss1 ++ s :: ss2 ->
  timed (ts1 ++ (tr, off) :: ts2) !! (segment_count ts1 + length ss1)%nat = Some (off, s).
Proof.
  intros Hs. rewrite timed_app, timed_cons, Hs.
  rewrite lookup_app_r; rewrite timed_length; [|lia].
  replace (segment_count ts1 + length ss1 - segment_count ts1)%nat
    with (length ss1) by lia.
  rewrite map_app, <- app_assoc, lookup_app_r; rewrite length_map; [|lia].
  now rewrite Nat.sub_diag.
Qed.

Lemma assemble_rows (ts : list (transcription * Q)) (rows : list row) :
  assemble ts = Some rows ->
  Forall2 (fun p r => row_of p = Some r) (timed ts) rows.
Proof. apply mapM_Some_1. Qed.

Lemma row_of_Some (p : Q * segment) (r : row) :
  row_of p = Some r ->
  exists st en,
    fadd (fst p) (start (snd p)) = Some st
    /\ fadd (fst p) (end_ (snd p)) = Some en
    /\ r = {| Timestamp := (format_time st ++ " - " ++ format_time en)%string;
              Text := strip (text (snd p)) |}.
Proof.
  unfold row_of, absolute_time.
  destruct (fadd (fst p) (start (snd p))) as [st|]; [|discriminate].
  destruct (fadd (fst p) (end_ (snd p))) as [en|]; [|discriminate].
  intros H. inversion H. now exists st, en.
Qed.

Lemma row_of_None (p : Q * segment) :
  row_of p = None <->
  fadd (fst p) (start (snd p)) = None \/ fadd (fst p) (end_ (snd p)) = None.
Proof.
  unfold row_of, absolute_time.
  destruct (fadd (fst p) (start (snd p))), (fadd (fst p) (end_ (snd p)));
    split; intros H; try discriminate; try tauto; destruct H; discriminate.
Qed.

(** C6.  When the assembler returns, it has made, pair after pair in
    input order and segment after segment in the order of the reply,
    exactly one row per segment: the label is format_time(offset + start),
    " - ", format_time(offset + end), the sums being those of binary64,
    and the text is the text of the segment without the whitespace at its
    two ends (it neither begins nor ends with whitespace, and what was cut
    off is whitespace only).  The number of rows is the number of
    segments, and a segment whose text trims to the empty string keeps its
    row.  The assembler does not return exactly when a sum is not finite:
    [int()] then raises. *)
Theorem process_transcription_rows (ts : list (transcription * Q)) :
  (forall rows,
     process_transcription ts = Some rows ->
     length rows = segment_count ts
     /\ forall ts1 tr off ts2 ss1 s ss2,
          ts = ts1 ++ (tr, off) :: ts2 ->
          segments tr = ss1 ++ s :: ss2 ->
          exists st en l txt t,
            fadd off (start s) = Some st
            /\ fadd off (end_ s) = Some en
            /\ rows !! (segment_count ts1 + length ss1)%nat
               = Some {| Timestamp :=
                           (format_time st ++ " - " ++ format_time en)%string;
                         Text := txt |}
            /\ text s = (l ++ txt ++ t)%string
            /\ all_space l /\ all_space t
            /\ starts_with_space txt = false /\ ends_with_space txt = false)
  /\ (process_transcription ts = None <->
      exists tr off s,
        In (tr, off) ts /\ In s (segments tr)
        /\ (fadd off (start s) = None \/ fadd off (end_ s) = None)).
Proof.
  rewrite process_transcription_assemble. split.
  - intros rows H. apply assemble_rows in H. split.
    + rewrite <- timed_length. symmetry. eapply Forall2_length. exact H.
    + intros ts1 tr off ts2 ss1 s ss2 -> Hs.
      pose proof (timed_lookup ts1 ts2 tr off ss1 ss2 s Hs) as Hp.
      destruct (Forall2_lookup_l _ _ _ _ _ H Hp) as (r & Hr & Hrow).
      apply row_of_Some in Hrow. destruct Hrow as (st & en & Hst & Hen & ->).
      cbn [fst snd] in *.
      destruct (strip_pinned (text s)) as (l & t & Htxt & Hl & Ht & Hb & He).
      exists st, en, l, (strip (text s)), t. repeat split; assumption.
  - unfold assemble. rewrite mapM_None, Exists_exists. split.
    + intros ([off s] & Hin & Hnone). apply list_elem_of_In in Hin.
      unfold timed in Hin. apply in_flat_map in Hin.
      destruct Hin as ([tr off'] & Hts & Hin). apply in_map_iff in Hin.
      destruct Hin as (s' & E & Hs). inversion E; subst.
      exists tr, off, s. split; [exact Hts|]. split; [exact Hs|].
      now apply (row_of_None (off, s)).
    + intros (tr & off & s & Hts & Hs & Hnone). exists (off, s). split.
      * apply list_elem_of_In. unfold timed. apply in_flat_map.
        exists (tr, off). split; [exact Hts|]. now apply in_map.
      * now apply row_of_None.
Qed.

Lemma process_transcription_rows_witness :
  exists rows,
    process_transcription sample_replies = Some rows
    /\ length rows = 3%nat
    /\ rows !! 2%nat = Some {| Timestamp := "01:01 - 01:02"; Text := "" |}.
Proof.
  destruct (process_transcription sample_replies) as [rows|] eqn:H;
    [|vm_compute in H; discriminate].
  destruct (proj1 (process_transcription_rows sample_replies) rows H) as [Hlen Hrow].
  destruct (Hrow [({| segments := [seg (1 # 2) 2 " a "] |}, 0%Q)]
              {| segments := [seg 0 1 "b"; seg (3 # 2) (5 # 2) "   "] |} 60%Q []
              [seg 0 1 "b"] (seg (3 # 2) (5 # 2) "   ") [] eq_refl eq_refl)
    as (st & en & l & txt & t & Hst & Hen & Hr & _).
  exists rows. split; [reflexivity|]. split; [exact Hlen|].
  vm_compute in H. inversion H. reflexivity.
Defined.

(* ================================================================= *)
(** ** The timeline of the table *)

Lemma nondecreasing_tail (x : Q) (l : list Q) :
  nondecreasing (x :: l) -> nondecreasing l.
Proof. destruct l; simpl; tauto. Qed.

Lemma nondecreasing_cons (x : Q) (l : list Q) :
  Forall (fun y => (x <= y)%Q) l -> nondecreasing l -> nondecreasing (x :: l).
Proof.
  intros Hall Hl. destruct l as [|y l]; simpl; [exact I|].
  split; [|exact Hl]. now inversion Hall.
Qed.

Lemma nondecreasing_bounds (x : Q) (l : list Q) :
  nondecreasing (x :: l) -> Forall (fun y => (x <= y)%Q) l.
Proof.
  revert x. induction l as [|y l IH]; intros x H; constructor.
  - apply H.
  - destruct H as [Hxy Hl]. specialize (IH y Hl).
    eapply List.Forall_impl; [|exact IH]. intros z Hz. simpl in Hz.
    eapply Qle_trans; eassumption.
Qed.

Lemma nondecreasing_app (l1 l2 : list Q) :
  nondecreasing l1 -> nondecreasing l2 ->
  (forall x y, In x l1 -> In y l2 -> (x <= y)%Q) ->
  nondecreasing (l1 ++ l2).
Proof.
  induction l1 as [|x l1 IH]; intros H1 H2 Hc; simpl; [exact H2|].
  apply nondecreasing_cons.
  - apply Forall_app. split.
    + now apply nondecreasing_bounds.
    + apply List.Forall_forall. intros y Hy. apply Hc; [now left | exact Hy].
  - apply IH; [eapply nondecreasing_tail; exact H1 | exact H2 |].
    intros a b Ha Hb. apply Hc; [now right | exact Hb].
Qed.

Lemma nondecreasing_shift (off : Q) (l : list Q) :
  nondecreasing l -> nondecreasing (map (fun x => (off + x)%Q) l).
Proof.
  induction l as [|x [|y l] IH]; simpl; try tauto.
  intros [Hxy Hl]. split; [lra | exact (IH Hl)].
Qed.

Lemma exact_starts_cons (tr : transcription) (off : Q) (ts : list (transcription * Q)) :
  exact_starts ((tr, off) :: ts)
  = map (fun x => (off + x)%Q) (map start (segments tr)) ++ exact_starts ts.
Proof. unfold exact_starts. rewrite timed_cons, map_app, !map_map. reflexivity. Qed.

(** Every exact sum lies at or after the first offset. *)
Lemma exact_starts_lower (ts : list (transcription * Q)) (lo : Q) :
  nondecreasing (lo :: map snd ts) -> starts_nonnegative ts ->
  Forall (fun x => (lo <= x)%Q) (exact_starts ts).
Proof.
  revert lo.
  induction ts as [|[tr off] ts IH]; intros lo Hoff Hpos; [constructor|].
  rewrite exact_starts_cons. apply Forall_app. split.
  - rewrite map_map. apply List.Forall_forall. intros x Hx.
    apply in_map_iff in Hx. destruct Hx as (s & <- & Hs).
    inversion Hpos as [|? ? Hseg _]; subst. simpl in Hseg.
    rewrite List.Forall_forall in Hseg. specialize (Hseg s Hs).
    destruct Hoff as [Hlo _]. simpl in Hlo. lra.
  - destruct Hoff as [Hlo Hrest]. inversion Hpos; subst.
    eapply List.Forall_impl; [|apply (IH off); assumption].
    intros x Hx. simpl in Hx. simpl in Hlo. lra.
Qed.

(** Before rounding, the sums offset + start are in order. *)
Lemma exact_starts_nondecreasing (ts : list (transcription * Q)) :
  offsets_nondecreasing ts -> replies_ordered ts -> within_gaps ts ->
  starts_nonnegative ts ->
  nondecreasing (exact_starts ts).
Proof.
  intros Hoff Hord Hgap Hpos. unfold offsets_nondecreasing in *.
  induction ts as [|[tr off] ts IH]; [exact I|].
  rewrite exact_starts_cons. inversion Hord as [|? ? Hseg Hord']; subst.
  inversion Hpos as [|? ? Hnn Hpos']; subst. simpl in Hseg, Hnn.
  apply nondecreasing_app.
  - now apply nondecreasing_shift.
  - apply IH; try assumption.
    + eapply nondecreasing_tail. exact Hoff.
    + destruct ts as [|[tr' off'] ts']; [exact I | apply Hgap].
  - intros x y Hx Hy. rewrite map_map in Hx.
    apply in_map_iff in Hx. destruct Hx as (s & <- & Hs).
    destruct ts as [|[tr' off'] ts']; [destruct Hy|].
    destruct Hgap as [Hg _]. rewrite List.Forall_forall in Hg. specialize (Hg s Hs).
    assert (Hlow : Forall (fun x => (off' <= x)%Q)
                     (exact_starts ((tr', off') :: ts'))).
    { apply exact_starts_lower; [|exact Hpos'].
      split; [apply Qle_refl|]. eapply nondecreasing_tail. exact Hoff. }
    rewrite List.Forall_forall in Hlow. specialize (Hlow y Hy). simpl in Hlow. lra.
Qed.

(** Rounding keeps the order. *)
Lemma nondecreasing_round64 (es xs : list Q) :
  Forall2 (fun e x => (x == round64 e)%Q) es xs ->
  nondecreasing es -> nondecreasing xs.
Proof.
  induction 1 as [|e x es xs Hx Hrest IH]; [exact (fun H => H)|].
  destruct Hrest as [|e' x' es' xs' Hx' Hrest']; [exact (fun H => H)|].
  intros [Hle Hes]. split; [|exact (IH Hes)].
  rewrite Hx, Hx'. now apply round64_mono.
Qed.

Lemma is_double_spec (q : Q) :
  is_double q = true -> exists r, double q = Some r /\ (r == q)%Q.
Proof.
  unfold is_double, double. intros H. apply andb_prop in H. destruct H as [He Hf].
  apply Qeq_bool_iff in He. apply negb_true_iff in Hf.
  assert (Hf' : Qle_bool (2 ^ 1024) (Qabs (round64 q)) = false).
  { destruct (Qle_bool (2 ^ 1024) (Qabs (round64 q))) eqn:E; [|reflexivity].
    apply Qle_bool_iff in E. rewrite He in E. apply Qle_bool_iff in E. congruence. }
  rewrite Hf'. now exists (round64 q).
Qed.

(** On doubles, [fadd] is the exact sum rounded once. *)
Lemma fadd_doubles (x y st : Q) :
  is_double x = true -> is_double y = true -> fadd x y = Some st ->
  (st == round64 (x + y))%Q.
Proof.
  intros Hx Hy. unfold fadd.
  destruct (is_double_spec x Hx) as (a & -> & Ea).
  destruct (is_double_spec y Hy) as (b & -> & Eb).
  unfold double. destruct (Qle_bool _ _); [discriminate|].
  intros H. inversion H. apply round64_comp. now rewrite Ea, Eb.
Qed.

Lemma labels_of_times (ts : list (transcription * Q)) (rows : list row) :
  assemble ts = Some rows ->
  exists times,
    absolute_times ts = Some times
    /\ map Timestamp rows = map label times
    /\ Forall2 (fun p t => fadd (fst p) (start (snd p)) = Some (fst t)) (timed ts) times.
Proof.
  unfold assemble, absolute_times. generalize (timed ts). intros l H.
  apply mapM_Some_1 in H. induction H as [|p r l rows Hr _ IH].
  - exists []. repeat split; constructor.
  - destruct IH as (times & Ht & Hlab & Hall).
    unfold row_of in Hr. destruct (absolute_time p) as [t|] eqn:Hp; [|discriminate].
    inversion Hr; subst r. exists (t :: times).
    split; [rewrite mapM_cons, Hp, Ht; reflexivity|].
    split; [cbn [map Timestamp]; now rewrite Hlab|].
    constructor; [|exact Hall].
    unfold absolute_time in Hp.
    destruct (fadd (fst p) (start (snd p))) as [st|]; [|discriminate].
    destruct (fadd (fst p) (end_ (snd p))) as [en|]; [|discriminate].
    now inversion Hp.
Qed.

Lemma doubles_of_timed (ts : list (transcription * Q)) :
  times_are_doubles ts ->
  Forall (fun p => is_double (fst p) = true /\ is_double (start (snd p)) = true)
    (timed ts).
Proof.
  unfold times_are_doubles. induction 1 as [|[tr off] ts [Hoff Hseg] _ IH];
    [constructor|].
  rewrite timed_cons. apply Forall_app. split; [|exact IH].
  apply List.Forall_forall. intros p Hp. apply in_map_iff in Hp.
  destruct Hp as (s & <- & Hs). rewrite List.Forall_forall in Hseg.
  split; [exact Hoff | now apply Hseg].
Qed.

(** C7.  When every offset and every segment start is a double, the
    offsets are non-decreasing, the segment start times of each reply
    are non-decreasing and not negative, and no segment starts later
    than the gap to the next offset, the absolute start times
    offset + start under the rows, as binary64 computes them, are
    non-decreasing from row to row; the label of each row is printed from
    these times. *)
Theorem timeline_monotone (ts : list (transcription * Q)) (rows : list row) :
  times_are_doubles ts ->
  offsets_nondecreasing ts -> replies_ordered ts -> within_gaps ts ->
  starts_nonnegative ts ->
  process_transcription ts = Some rows ->
  exists times,
    absolute_times ts = Some times
    /\ nondecreasing (map fst times)
    /\ map Timestamp rows = map label times.
Proof.
  intros Hdbl Hoff Hord Hgap Hpos H.
  rewrite process_transcription_assemble in H.
  destruct (labels_of_times ts rows H) as (times & Ht & Hlab & Hsum).
  exists times. split; [exact Ht|]. split; [|exact Hlab].
  apply (nondecreasing_round64 (exact_starts ts)).
  2:{ now apply exact_starts_nondecreasing. }
  unfold exact_starts. apply doubles_of_timed in Hdbl.
  clear -Hsum Hdbl. induction Hsum as [|p t l times Hp _ IH]; [constructor|].
  inversion Hdbl as [|? ? [Hd1 Hd2] Hdbl']; subst.
  cbn [map]. constructor; [|now apply IH].
  now apply fadd_doubles.
Qed.

Lemma timeline_monotone_witness :
  exists rows times,
    process_transcription sample_replies = Some rows
    /\ absolute_times sample_replies = Some times
    /\ nondecreasing (map fst times)
    /\ map Timestamp rows = map label times.
Proof.
  destruct (process_transcription sample_replies) as [rows|] eqn:H;
    [|vm_compute in H; discriminate].
  destruct (timeline_monotone sample_replies rows) as (times & Hrest).
  - repeat constructor; vm_compute; reflexivity.
  - simpl. split; [discriminate | exact I].
  - repeat constructor; simpl; discriminate.
  - simpl. split; [|exact I]. repeat constructor; simpl; discriminate.
  - repeat constructor; simpl; discriminate.
  - exact H.
  - exists rows, times. split; [reflexivity | exact Hrest].
Defined.

(* ================================================================= *)
(** ** The window chain *)

Lemma window_chain_eq :
  window_chain =
  [60000; 54000; 48600; 43740; 39366; 35429; 31886; 28697; 25827; 23244;
   20919; 18827; 16944; 15249; 13724; 12351; 11115; 10003].
Proof. vm_compute. reflexivity. Qed.

Lemma window_chain_checked : forallb window_check window_chain = true.
Proof. vm_compute. reflexivity. Qed.

Lemma window_chain_facts (w : Z) :
  In w window_chain ->
  10000 <= w <= 60000 /\ shrink w = w * 9 / 10 /\ shrink w < w
  /\ ((shrink w <? 10000) = false -> In (shrink w) window_chain).
Proof.
  intros Hin. pose proof window_chain_checked as H.
  rewrite forallb_forall in H. specialize (H w Hin). unfold window_check in H.
  rewrite !andb_true_iff in H. destruct H as ((((H1 & H2) & H3) & H4) & H5).
  repeat split; try lia.
  intros Hge. rewrite Hge, orb_false_l in H5.
  apply existsb_exists in H5. destruct H5 as (x & Hx & Heq).
  apply Z.eqb_eq in Heq. now rewrite Heq.
Qed.

Lemma window_chain_head : In 60000 window_chain.
Proof. rewrite window_chain_eq. now left. Qed.

(** The test against the cap is a test on the bytes. *)
Lemma fits_cap (size max_size_mb : Z) :
  fits size max_size_mb = true <-> size <= cap_bytes max_size_mb.
Proof.
  unfold fits, cap_bytes. rewrite Qle_bool_iff.
  unfold Qle, Qdiv, Qmult, Qinv, inject_Z; simpl. lia.
Qed.

(* ================================================================= *)
(** ** The temporary directory *)

Lemma mktemp_fresh (w : world) : tmp w !! mktemp w = None.
Proof. apply not_elem_of_dom. unfold mktemp. apply is_fresh. Qed.

Lemma rejected_unlinked_app (max_size_mb : Z) (l1 l2 : list event) :
  rejected_unlinked max_size_mb l1 -> rejected_unlinked max_size_mb l2 ->
  rejected_unlinked max_size_mb (l1 ++ l2).
Proof.
  revert l2. induction l1 as [l1 IH] using (induction_ltof1 _ (@length event)).
  unfold ltof in IH. intros l2 H1 H2.
  destruct l1 as [|e l1]; [exact H2|].
  destruct e; simpl in *; try (apply IH; [lia | assumption | assumption]).
  destruct (fits size max_size_mb); [apply IH; [lia | assumption | assumption]|].
  destruct l1 as [|[] l1]; try contradiction.
  simpl. destruct H1 as [-> H1]. split; [reflexivity|].
  apply IH; [simpl; lia | assumption | assumption].
Qed.

(* ================================================================= *)
(** ** The inner loop *)

Section Chunker.

Variable a : audio.
Variable max_size_mb : Z.

Local Abbreviation total := (Z.of_N (len_ms a)).

Lemma attempt_loop_S (fuel : nat) (start_ms wd : Z) (w : world) :
  attempt_loop (S fuel) a max_size_mb start_ms wd w =
  let end_ms := Z.min (start_ms + wd) total in
  let size := export_bytes a start_ms end_ms in
  let name := mktemp w in
  let w1 :=
    emit (EvExport name start_ms wd end_ms size)
      (write_file name
         {| src_start := start_ms; src_end := end_ms; size_bytes := size |} w) in
  if fits size max_size_mb then Some (Accepted name wd, w1)
  else
    if shrink wd <? 10000
    then Some (Infeasible, st_error infeasible_msg (os_unlink name w1))
    else attempt_loop fuel a max_size_mb start_ms (shrink wd) (os_unlink name w1).
Proof. reflexivity. Qed.

(** A rejected attempt leaves the directory as it found it. *)
Lemma rejected_attempt_tmp (w : world) (f : mp3_file) (e : event) :
  tmp (os_unlink (mktemp w) (emit e (write_file (mktemp w) f w))) = tmp w.
Proof. simpl. apply delete_insert_id, mktemp_fresh. Qed.

(** What one run of the inner loop does: it logs attempts on windows of
    the chain, unlinks every rejected file, and either leaves exactly one
    new file, within the cap, or leaves the directory unchanged. *)
Lemma attempt_loop_spec (fuel : nat) :
  forall (start_ms wd : Z) (w : world) (r : attempt_exit) (w' : world),
    In wd window_chain ->
    attempt_loop fuel a max_size_mb start_ms wd w = Some (r, w') ->
    exists evs,
      log w' = log w ++ evs /\ csv w' = csv w
      /\ Forall (chunker_event a) evs /\ rejected_unlinked max_size_mb evs
      /\ match r with
         | Accepted name wd' =>
             let st := {| st_name := name; st_start := start_ms; st_window := wd' |} in
             tmp w !! name = None
             /\ tmp w' = <[name := file_of a st]> (tmp w)
             /\ In wd' window_chain
             /\ size_bytes (file_of a st) <= cap_bytes max_size_mb
         | Infeasible => tmp w' = tmp w
         end.
Proof.
  induction fuel as [|fuel IH]; intros start_ms wd w r w' Hwd H; [discriminate|].
  rewrite attempt_loop_S in H. cbv zeta in H.
  set (end_ms := Z.min (start_ms + wd) total) in *.
  set (size := export_bytes a start_ms end_ms) in *.
  set (f := {| src_start := start_ms; src_end := end_ms; size_bytes := size |}) in *.
  set (ev := EvExport (mktemp w) start_ms wd end_ms size) in *.
  assert (Hev : chunker_event a ev) by (split; [exact Hwd | split; reflexivity]).
  destruct (fits size max_size_mb) eqn:Hfit.
  - inversion H; subst r w'; clear H.
    exists [ev]. simpl. rewrite Hfit.
    repeat split; auto using mktemp_fresh.
    now apply fits_cap.
  - destruct (shrink wd <? 10000) eqn:Hfloor.
    + inversion H; subst r w'; clear H.
      exists [ev; EvUnlink (mktemp w); EvError infeasible_msg]. simpl.
      rewrite Hfit, <- !app_assoc. simpl.
      split; [reflexivity|]. split; [reflexivity|].
      split; [repeat first [exact Hev | exact I | constructor]|]. split; [auto|].
      apply delete_insert_id, mktemp_fresh.
    + apply IH in H; [|now apply window_chain_facts].
      destruct H as (evs & Hlog & Hcsv & Hok & Hrej & Hr).
      rewrite rejected_attempt_tmp in Hr.
      exists ([ev; EvUnlink (mktemp w)] ++ evs).
      split; [rewrite Hlog; simpl; rewrite <- !app_assoc; reflexivity|].
      split; [rewrite Hcsv; reflexivity|].
      split; [apply Forall_app; split;
                [repeat first [exact Hev | exact I | constructor] | exact Hok]|].
      split; [|exact Hr].
      simpl. rewrite Hfit. split; [reflexivity | exact Hrej].
Qed.

(** Eighteen attempts are always enough. *)
Lemma attempt_loop_returns (n : nat) :
  forall (fuel : nat) (start_ms wd : Z) (w : world),
    (length (windows_from n wd) < n)%nat ->
    (length (windows_from n wd) <= fuel)%nat ->
    exists r, attempt_loop fuel a max_size_mb start_ms wd w = Some r.
Proof.
  induction n as [|n IH]; intros fuel start_ms wd w Hn Hfuel; [simpl in Hn; lia|].
  simpl in Hn, Hfuel.
  destruct fuel as [|fuel]; [lia|].
  rewrite attempt_loop_S. cbv zeta.
  destruct (fits _ _); [eauto|].
  destruct (shrink wd <? 10000); [eauto|].
  apply IH; lia.
Qed.

(** More fuel does not change what the inner loop returns. *)
Lemma attempt_loop_fuel (fuel : nat) :
  forall (fuel' : nat) (start_ms wd : Z) (w : world) r,
    attempt_loop fuel a max_size_mb start_ms wd w = Some r ->
    (fuel <= fuel')%nat ->
    attempt_loop fuel' a max_size_mb start_ms wd w = Some r.
Proof.
  induction fuel as [|fuel IH]; intros fuel' start_ms wd w r H Hle; [discriminate|].
  destruct fuel' as [|fuel']; [lia|].
  rewrite attempt_loop_S in *. cbv zeta in *.
  destruct (fits _ _); [exact H|].
  destruct (shrink wd <? 10000); [exact H|].
  apply IH; [exact H | lia].
Qed.

(* ================================================================= *)
(** ** The outer loop *)

Lemma split_loop_S (fuel : nat) (start_ms : Z) (chunks : list chunk) (w : world) :
  split_loop (S fuel) a max_size_mb start_ms chunks w =
  if start_ms <? total then
    match attempt_loop fuel a max_size_mb start_ms 60000 w with
    | None => None
    | Some (Accepted name wd, w1) =>
        split_loop fuel a max_size_mb (start_ms + wd)
          (chunks ++ [(name, (inject_Z start_ms / 1000)%Q)]) w1
    | Some (Infeasible, w1) => Some (Aborted, w1)
    end
  else Some (Completed chunks, w).
Proof. reflexivity. Qed.

(** What a run of the outer loop does, from any cursor: the accepted
    attempts [steps] walk the cursor from [start_ms] to [fin]; their
    files, under fresh and distinct names and within the cap, are all
    that the run adds to the directory; a completed run returns their
    chunks behind the ones it started with and ends at or past the end of
    the audio. *)
Lemma split_loop_spec (fuel : nat) :
  forall (start_ms : Z) (chunks : list chunk) (w : world) (e : split_exit) (w' : world),
    split_loop fuel a max_size_mb start_ms chunks w = Some (e, w') ->
    exists (steps : list step) (evs : list event) (fin : Z),
      log w' = log w ++ evs /\ csv w' = csv w
      /\ Forall (chunker_event a) evs /\ rejected_unlinked max_size_mb evs
      /\ walk total start_ms steps fin
      /\ Forall (fun st => tmp w !! st_name st = None) steps
      /\ NoDup (map st_name steps)
      /\ (forall n f,
            tmp w' !! n = Some f <->
            tmp w !! n = Some f
            \/ exists st, In st steps /\ n = st_name st /\ f = file_of a st)
      /\ Forall (fun st => size_bytes (file_of a st) <= cap_bytes max_size_mb) steps
      /\ match e with
         | Completed cs => cs = chunks ++ map chunk_of steps /\ total <= fin
         | Aborted => fin < total
         end.
Proof.
  induction fuel as [|fuel IH]; intros start_ms chunks w e w' H; [discriminate|].
  rewrite split_loop_S in H.
  destruct (start_ms <? total) eqn:Hlt.
  2:{ inversion H; subst e w'; clear H. apply Z.ltb_ge in Hlt.
      exists [], [], start_ms. rewrite !app_nil_r. simpl.
      do 4 (split; [auto|]). split; [reflexivity|].
      do 2 (split; [constructor|]).
      split; [|split; [constructor | auto]].
      intros n f. split; [auto|]. intros [?|(st & [] & _)]; assumption. }
  apply Z.ltb_lt in Hlt.
  destruct (attempt_loop fuel a max_size_mb start_ms 60000 w)
    as [[[name wd|] w1]|] eqn:Hatt; [| |discriminate].
  - apply attempt_loop_spec in Hatt; [|apply window_chain_head].
    destruct Hatt as (evs1 & Hlog1 & Hcsv1 & Hok1 & Hrej1 & Hnew & Htmp1 & Hwd & Hcap).
    cbv zeta in Hnew, Htmp1, Hcap.
    set (st := {| st_name := name; st_start := start_ms; st_window := wd |}) in *.
    apply IH in H.
    destruct H as (steps & evs & fin & Hlog & Hcsv & Hok & Hrej & Hwalk
                   & Hfresh & Hdup & Hdir & Hcaps & He).
    assert (Hnotin : ~ In name (map st_name steps)).
    { intros Hin. apply in_map_iff in Hin. destruct Hin as (st' & Hn & Hst').
      rewrite List.Forall_forall in Hfresh. specialize (Hfresh st' Hst').
      rewrite Hn, Htmp1, lookup_insert_eq in Hfresh. discriminate. }
    exists (st :: steps), (evs1 ++ evs), fin.
    split; [rewrite Hlog, Hlog1, app_assoc; reflexivity|].
    split; [congruence|].
    split; [apply Forall_app; split; assumption|].
    split; [apply rejected_unlinked_app; assumption|].
    split; [simpl; auto|].
    split.
    { constructor; [exact Hnew|].
      eapply List.Forall_impl; [|exact Hfresh]. intros st' Hst'. simpl in Hst'.
      rewrite Htmp1 in Hst'. apply lookup_insert_None in Hst'. tauto. }
    split; [simpl; apply NoDup_cons_2; [rewrite list_elem_of_In|]; assumption|].
    split.
    { intros n f. rewrite Hdir, Htmp1, lookup_insert_Some. split.
      - intros [[[<- <-]|[Hne Hold]]|(st' & Hin & Hn & Hf)].
        + right. exists st. simpl. auto.
        + left. exact Hold.
        + right. exists st'. simpl. auto.
      - intros [Hold|(st' & [<-|Hin] & Hn & Hf)].
        + left. right. split; [|exact Hold]. intros <-. congruence.
        + left. left. simpl in Hn. auto.
        + right. exists st'. auto. }
    split; [constructor; assumption|].
    destruct e as [cs|]; [|exact He].
    destruct He as [-> Hfin]. split; [|exact Hfin].
    rewrite <- app_assoc. reflexivity.
  - inversion H; subst e w'; clear H.
    apply attempt_loop_spec in Hatt; [|apply window_chain_head].
    destruct Hatt as (evs1 & Hlog1 & Hcsv1 & Hok1 & Hrej1 & Htmp1).
    exists [], evs1, start_ms. simpl.
    do 4 (split; [assumption|]). split; [reflexivity|].
    do 2 (split; [constructor|]).
    split; [|split; [constructor | exact Hlt]].
    intros n f. rewrite Htmp1. split; [auto|].
    intros [?|(st & [] & _)]; assumption.
Qed.

Lemma window_chain_length : length (windows_from 32 60000) = 18%nat.
Proof. vm_compute. reflexivity. Qed.

(** The outer loop returns once the fuel covers nineteen attempts and one
    iteration for every 10 000 ms that remain. *)
Lemma split_loop_returns (fuel : nat) :
  forall (start_ms : Z) (chunks : list chunk) (w : world),
    (19 <= fuel)%nat ->
    total - start_ms <= 10000 * (Z.of_nat fuel - 19) ->
    exists r, split_loop fuel a max_size_mb start_ms chunks w = Some r.
Proof.
  induction fuel as [|fuel IH]; intros start_ms chunks w Hfuel Hrem; [lia|].
  rewrite split_loop_S.
  destruct (start_ms <? total) eqn:Hlt; [|eauto].
  apply Z.ltb_lt in Hlt.
  destruct (attempt_loop_returns 32 fuel start_ms 60000 w) as [[r w1] Hatt].
  { rewrite window_chain_length. lia. }
  { rewrite window_chain_length. lia. }
  rewrite Hatt. destruct r as [name wd|]; [|eauto].
  apply attempt_loop_spec in Hatt; [|apply window_chain_head].
  destruct Hatt as (_ & _ & _ & _ & _ & _ & _ & Hwd & _).
  apply window_chain_facts in Hwd. apply IH; lia.
Qed.

(** More fuel does not change what the outer loop returns. *)
Lemma split_loop_fuel (fuel : nat) :
  forall (fuel' : nat) (start_ms : Z) (chunks : list chunk) (w : world) r,
    split_loop fuel a max_size_mb start_ms chunks w = Some r ->
    (fuel <= fuel')%nat ->
    split_loop fuel' a max_size_mb start_ms chunks w = Some r.
Proof.
  induction fuel as [|fuel IH]; intros fuel' start_ms chunks w r H Hle; [discriminate|].
  destruct fuel' as [|fuel']; [lia|].
  rewrite split_loop_S in *.
  destruct (start_ms <? total); [|exact H].
  destruct (attempt_loop fuel a max_size_mb start_ms 60000 w)
    as [[ex w1]|] eqn:Hatt; [|discriminate].
  rewrite (attempt_loop_fuel fuel fuel' _ _ _ _ Hatt) by lia.
  destruct ex; [|exact H]. apply IH; [exact H | lia].
Qed.

End Chunker.

(* ================================================================= *)
(** ** Intervals that follow one another *)

Lemma contiguous_le (fs : list mp3_file) :
  forall lo hi, contiguous lo hi fs -> lo <= hi.
Proof.
  induction fs as [|f fs IH]; simpl; intros lo hi H; [lia|].
  destruct H as (H1 & H2 & H3). apply IH in H3. lia.
Qed.

Lemma contiguous_within (fs : list mp3_file) :
  forall lo hi, contiguous lo hi fs ->
    Forall (fun f => lo <= src_start f /\ src_end f <= hi) fs.
Proof.
  induction fs as [|f fs IH]; simpl; intros lo hi H; constructor.
  - destruct H as (H1 & H2 & H3). apply contiguous_le in H3. lia.
  - destruct H as (H1 & H2 & H3). apply IH in H3.
    eapply List.Forall_impl; [|exact H3]. simpl. intros g Hg. lia.
Qed.

(** Every instant of [lo, hi) lies in one of the intervals, and nothing
    else does. *)
Lemma contiguous_cover (fs : list mp3_file) :
  forall lo hi, contiguous lo hi fs ->
    forall t, lo <= t < hi <->
              exists f, In f fs /\ src_start f <= t < src_end f.
Proof.
  induction fs as [|f fs IH]; simpl; intros lo hi H t.
  - split; [lia | intros (f & [] & _)].
  - destruct H as (H1 & H2 & H3).
    pose proof (contiguous_le _ _ _ H3) as Hle. specialize (IH _ _ H3 t).
    split.
    + intros Ht. destruct (Z_lt_ge_dec t (src_end f)) as [Hin|Hout].
      * exists f. split; [now left | lia].
      * destruct IH as [IH _]. destruct IH as (g & Hg & Ht'); [lia|].
        exists g. split; [now right | exact Ht'].
    + intros (g & [<-|Hg] & Ht); [lia|].
      destruct IH as [_ IH]. assert (src_end f <= t < hi) by (apply IH; eauto). lia.
Qed.

(** An earlier interval ends before any later one starts. *)
Lemma contiguous_disjoint (fs : list mp3_file) :
  forall lo hi, contiguous lo hi fs ->
    StronglySorted (fun f g => src_end f <= src_start g) fs.
Proof.
  induction fs as [|f fs IH]; simpl; intros lo hi H; constructor.
  - destruct H as (_ & _ & H3). eapply IH; exact H3.
  - destruct H as (_ & _ & H3). apply contiguous_within in H3.
    eapply List.Forall_impl; [|exact H3]. simpl. intros g Hg. lia.
Qed.

Lemma contiguous_increasing (fs : list mp3_file) :
  forall lo hi, contiguous lo hi fs ->
    StronglySorted Z.lt (map src_start fs).
Proof.
  induction fs as [|f fs IH]; simpl; intros lo hi H; constructor.
  - destruct H as (_ & _ & H3). eapply IH; exact H3.
  - destruct H as (H1 & H2 & H3). apply contiguous_within in H3.
    apply Forall_map. eapply List.Forall_impl; [|exact H3].
    simpl. intros g Hg. lia.
Qed.

Lemma offsets_increasing (l : list Z) :
  StronglySorted Z.lt l ->
  StronglySorted Qlt (map (fun s => (inject_Z s / 1000)%Q) l).
Proof.
  induction 1 as [|x l Hs IH Hall]; simpl; constructor; [exact IH|].
  apply Forall_map. eapply List.Forall_impl; [|exact Hall].
  simpl. intros y Hy. unfold Qlt, Qdiv, Qmult, Qinv, inject_Z. simpl. lia.
Qed.

(** A walk that ends at or past the end of the audio tiles it: the files
    of the accepted attempts follow one another from the first cursor to
    the end, the last one clamped. *)
Lemma walk_contiguous (a : audio) (steps : list step) :
  forall cur fin,
    walk (Z.of_N (len_ms a)) cur steps fin ->
    Z.of_N (len_ms a) <= fin -> cur <= Z.of_N (len_ms a) ->
    contiguous cur (Z.of_N (len_ms a)) (map (file_of a) steps).
Proof.
  induction steps as [|st rest IH]; simpl; intros cur fin H Hfin Hcur; [lia|].
  destruct H as (Hs & Hlt & Hwd & Hrest).
  apply window_chain_facts in Hwd. destruct Hwd as (Hwd & _).
  split; [exact Hs|]. split; [lia|].
  rewrite Hs. destruct (Z_lt_ge_dec (cur + st_window st) (Z.of_N (len_ms a))) as [Hin|Hout].
  - rewrite Z.min_l by lia. eapply IH; [exact Hrest | exact Hfin | lia].
  - rewrite Z.min_r by lia. destruct rest as [|st' rest']; simpl; [reflexivity|].
    simpl in Hrest. lia.
Qed.

(** Before the last accepted attempt the window is never clamped. *)
Lemma walk_unclamped (total : Z) (front : list step) :
  forall cur last fin,
    walk total cur (front ++ [last]) fin ->
    Forall (fun st => st_start st + st_window st < total) front.
Proof.
  induction front as [|st front IH]; simpl; intros cur last fin H; constructor.
  - destruct H as (Hs & _ & _ & Hrest).
    destruct front as [|st' front']; simpl in Hrest; lia.
  - destruct H as (_ & _ & _ & Hrest). eapply IH. exact Hrest.
Qed.

Lemma file_of_start (a : audio) : forall steps,
  map src_start (map (file_of a) steps) = map st_start steps.
Proof. intros steps. rewrite map_map. reflexivity. Qed.

(* ================================================================= *)
(** ** The chunker: partition, size bound, floor, termination *)

(** C1.  A run of the chunker that completes over audio of D ms returns
    the chunks of its accepted attempts, each with the offset start / 1000
    and its file on disk; the cursor starts at 0 and moves on by the
    attempted window; the intervals of the files follow one another from
    0 to D without gap or overlap, in strictly increasing order of start
    and of offset, the last one clamped to D; an instant lies in [0, D)
    exactly when it lies in one of them. *)
Theorem chunker_partition (fuel : nat) (a : audio) (max_size_mb : Z)
    (w : world) (cs : list chunk) (w' : world) :
  split_loop fuel a max_size_mb 0 [] w = Some (Completed cs, w') ->
  exists (steps : list step) (fin : Z),
    split_audio_by_size fuel a max_size_mb w = Some (cs, w')
    /\ cs = map chunk_of steps
    /\ Forall (fun st => tmp w' !! st_name st = Some (file_of a st)) steps
    /\ walk (Z.of_N (len_ms a)) 0 steps fin /\ Z.of_N (len_ms a) <= fin
    /\ contiguous 0 (Z.of_N (len_ms a)) (map (file_of a) steps)
    /\ StronglySorted Z.lt (map st_start steps)
    /\ StronglySorted Qlt (map snd cs)
    /\ StronglySorted (fun f g => src_end f <= src_start g) (map (file_of a) steps)
    /\ (forall t, 0 <= t < Z.of_N (len_ms a) <->
                  exists st, In st steps
                             /\ src_start (file_of a st) <= t < src_end (file_of a st)).
Proof.
  intros H.
  assert (Hret : split_audio_by_size fuel a max_size_mb w = Some (cs, w'))
    by (unfold split_audio_by_size; now rewrite H).
  apply split_loop_spec in H.
  destruct H as (steps & evs & fin & _ & _ & _ & _ & Hwalk & _ & _ & Hdir & _ & Hcs & Hfin).
  simpl in Hcs. rewrite Hcs in *. clear Hcs.
  assert (Hc : contiguous 0 (Z.of_N (len_ms a)) (map (file_of a) steps)).
  { eapply walk_contiguous; [exact Hwalk | exact Hfin | lia]. }
  assert (Hinc : StronglySorted Z.lt (map st_start steps)).
  { rewrite <- (file_of_start a). eapply contiguous_increasing. exact Hc. }
  exists steps, fin.
  split; [exact Hret|]. split; [reflexivity|].
  split; [apply List.Forall_forall; intros st Hst; apply Hdir; right; eauto|].
  split; [exact Hwalk|]. split; [exact Hfin|]. split; [exact Hc|].
  split; [exact Hinc|].
  split.
  { replace (map snd (map chunk_of steps))
      with (map (fun s => (inject_Z s / 1000)%Q) (map st_start steps))
      by (rewrite !map_map; reflexivity).
    now apply offsets_increasing. }
  split; [eapply contiguous_disjoint; exact Hc|].
  intros t. rewrite (contiguous_cover _ _ _ Hc t). split.
  - intros (f & Hf & Ht). apply in_map_iff in Hf. destruct Hf as (st & <- & Hst). eauto.
  - intros (st & Hst & Ht). exists (file_of a st). split; [now apply in_map | exact Ht].
Qed.

Lemma chunker_partition_witness :
  exists cs w',
    split_loop 30 sample_audio 24 0 [] empty_world = Some (Completed cs, w')
    /\ exists (steps : list step) (fin : Z),
         split_audio_by_size 30 sample_audio 24 empty_world = Some (cs, w')
         /\ cs = map chunk_of steps
         /\ Forall (fun st => tmp w' !! st_name st = Some (file_of sample_audio st)) steps
         /\ walk 150000 0 steps fin /\ 150000 <= fin
         /\ contiguous 0 150000 (map (file_of sample_audio) steps)
         /\ StronglySorted Z.lt (map st_start steps)
         /\ StronglySorted Qlt (map snd cs)
         /\ StronglySorted (fun f g => src_end f <= src_start g)
              (map (file_of sample_audio) steps)
         /\ (forall t, 0 <= t < 150000 <->
                       exists st, In st steps
                                  /\ src_start (file_of sample_audio st) <= t
                                     < src_end (file_of sample_audio st)).
Proof.
  destruct (split_loop 30 sample_audio 24 0 [] empty_world)
    as [[[cs|] w']|] eqn:H; [|vm_compute in H; discriminate..].
  exists cs, w'. split; [reflexivity|].
  exact (chunker_partition 30 sample_audio 24 empty_world cs w' H).
Defined.

(** C2.  Every chunk the chunker returns names a file on disk of at most
    max_size_mb * 1 048 576 bytes; every file the run leaves in the
    directory that was not there before is within the cap; and every
    attempt over the cap is unlinked at once, before anything else
    happens. *)
Theorem chunker_size_bound (fuel : nat) (a : audio) (max_size_mb : Z)
    (w : world) (cs : list chunk) (w' : world) :
  split_audio_by_size fuel a max_size_mb w = Some (cs, w') ->
  (forall name off, In (name, off) cs ->
     exists f, tmp w' !! name = Some f
               /\ size_bytes f <= max_size_mb * 1048576)
  /\ (forall name f, tmp w' !! name = Some f -> tmp w !! name = None ->
        size_bytes f <= max_size_mb * 1048576)
  /\ exists evs, log w' = log w ++ evs /\ rejected_unlinked max_size_mb evs.
Proof.
  unfold split_audio_by_size. intros H.
  destruct (split_loop fuel a max_size_mb 0 [] w) as [[e w1]|] eqn:Hloop;
    [|discriminate].
  inversion H; subst cs w1; clear H.
  apply split_loop_spec in Hloop.
  destruct Hloop as (steps & evs & fin & Hlog & _ & _ & Hrej & _ & _ & _
                     & Hdir & Hcaps & He).
  rewrite List.Forall_forall in Hcaps. fold (cap_bytes max_size_mb).
  split; [|split].
  - intros name off Hin. destruct e as [cs|]; [|destruct Hin].
    destruct He as [-> _]. simpl in Hin.
    apply in_map_iff in Hin. destruct Hin as (st & Hst & Hin).
    inversion Hst; subst name off. exists (file_of a st).
    split; [apply Hdir; right; eauto | now apply Hcaps].
  - intros name f Hnew Hold. apply Hdir in Hnew.
    destruct Hnew as [Hnew|(st & Hin & -> & ->)]; [congruence | now apply Hcaps].
  - exists evs. auto.
Qed.

Lemma chunker_size_bound_witness :
  exists cs w',
    split_audio_by_size 30 sample_audio 24 empty_world = Some (cs, w')
    /\ (forall name off, In (name, off) cs ->
          exists f, tmp w' !! name = Some f /\ size_bytes f <= 24 * 1048576)
    /\ (forall name f, tmp w' !! name = Some f -> tmp empty_world !! name = None ->
          size_bytes f <= 24 * 1048576)
    /\ exists evs, log w' = log empty_world ++ evs /\ rejected_unlinked 24 evs.
Proof.
  destruct (split_audio_by_size 30 sample_audio 24 empty_world)
    as [[cs w']|] eqn:H; [|vm_compute in H; discriminate].
  exists cs, w'. split; [reflexivity|].
  exact (chunker_size_bound 30 sample_audio 24 empty_world cs w' H).
Defined.

Lemma export_windows (a : audio) (evs : list event) :
  Forall (chunker_event a) evs ->
  forall name s wd en sz, In (EvExport name s wd en sz) evs -> 10000 <= wd <= 60000.
Proof.
  intros Hok name s wd en sz Hin. rewrite List.Forall_forall in Hok.
  apply Hok in Hin. destruct Hin as (Hwd & _). now apply window_chain_facts in Hwd.
Qed.

(** C3.  In every run of the chunker every attempted window lies between
    10 000 ms and a minute; and in a run that completes, every chunk
    except the last encodes exactly its window, at least 10 000 ms. *)
Theorem chunker_floor (fuel : nat) (a : audio) (max_size_mb : Z)
    (w : world) (e : split_exit) (w' : world) :
  split_loop fuel a max_size_mb 0 [] w = Some (e, w') ->
  (exists evs,
     log w' = log w ++ evs
     /\ forall name s wd en sz,
          In (EvExport name s wd en sz) evs -> 10000 <= wd <= 60000)
  /\ forall cs, e = Completed cs ->
       exists steps,
         cs = map chunk_of steps
         /\ Forall (fun st => tmp w' !! st_name st = Some (file_of a st)) steps
         /\ forall front last, steps = front ++ [last] ->
              Forall (fun st =>
                        src_end (file_of a st) - src_start (file_of a st)
                          = st_window st
                        /\ 10000 <= st_window st) front.
Proof.
  intros H. apply split_loop_spec in H.
  destruct H as (steps & evs & fin & Hlog & _ & Hok & _ & Hwalk & _ & _ & Hdir & _ & He).
  split; [exists evs; split; [exact Hlog | now apply (export_windows a)]|].
  intros cs ->. destruct He as [-> _]. exists steps. simpl.
  split; [reflexivity|].
  split; [apply List.Forall_forall; intros st Hst; apply Hdir; right; eauto|].
  intros front last ->.
  assert (Hin : forall st, In st front -> In (st_window st) window_chain).
  { clear -Hwalk. revert Hwalk. generalize 0. induction front as [|x front IH];
      simpl; intros cur Hwalk st Hst; [destruct Hst|].
    destruct Hwalk as (_ & _ & Hx & Hrest).
    destruct Hst as [<-|Hst]; [exact Hx | eapply IH; eassumption]. }
  apply walk_unclamped in Hwalk. rewrite List.Forall_forall in Hwalk.
  apply List.Forall_forall. intros st Hst.
  specialize (Hwalk st Hst). apply Hin, window_chain_facts in Hst.
  simpl. lia.
Qed.

Lemma chunker_floor_witness :
  exists e w',
    split_loop 30 sample_audio 24 0 [] empty_world = Some (e, w')
    /\ (exists evs,
          log w' = log empty_world ++ evs
          /\ forall name s wd en sz,
               In (EvExport name s wd en sz) evs -> 10000 <= wd <= 60000)
    /\ forall cs, e = Completed cs ->
         exists steps,
           cs = map chunk_of steps
           /\ Forall (fun st => tmp w' !! st_name st = Some (file_of sample_audio st)) steps
           /\ forall front last, steps = front ++ [last] ->
                Forall (fun st =>
                          src_end (file_of sample_audio st)
                            - src_start (file_of sample_audio st) = st_window st
                          /\ 10000 <= st_window st) front.
Proof.
  destruct (split_loop 30 sample_audio 24 0 [] empty_world)
    as [[e w']|] eqn:H; [|vm_compute in H; discriminate].
  exists e, w'. split; [reflexivity|].
  exact (chunker_floor 30 sample_audio 24 empty_world e w' H).
Defined.

(** C4.  The chunker returns on every audio.  On every window of the
    chain the double product truncates to floor(0.9 w), which is smaller
    than w; eighteen attempts end the inner loop, with an abort or with
    an accepted window of at least 10 000 ms that moves the cursor
    forward; and the whole run returns, with the same result for every
    amount of fuel from 20 + D / 10 000 on. *)
Theorem chunker_terminates (a : audio) (max_size_mb : Z) (w : world) :
  (forall wd, In wd window_chain -> shrink wd = wd * 9 / 10 /\ shrink wd < wd)
  /\ (forall (fuel : nat) (start_ms : Z) (w0 : world),
        (18 <= fuel)%nat ->
        exists r w1,
          attempt_loop fuel a max_size_mb start_ms 60000 w0 = Some (r, w1)
          /\ match r with
             | Accepted _ wd => 10000 <= wd <= 60000 /\ start_ms < start_ms + wd
             | Infeasible => True
             end)
  /\ exists r,
       forall fuel : nat,
         (20 + Z.to_nat (Z.of_N (len_ms a) / 10000) <= fuel)%nat ->
         split_audio_by_size fuel a max_size_mb w = Some r.
Proof.
  split; [|split].
  - intros wd Hwd. apply window_chain_facts in Hwd. tauto.
  - intros fuel start_ms w0 Hfuel.
    destruct (attempt_loop_returns a max_size_mb 32 fuel start_ms 60000 w0)
      as [[r w1] Hatt]; [rewrite window_chain_length; lia..|].
    exists r, w1. split; [exact Hatt|].
    destruct r as [name wd|]; [|exact I].
    apply attempt_loop_spec in Hatt; [|apply window_chain_head].
    destruct Hatt as (_ & _ & _ & _ & _ & _ & _ & Hwd & _).
    apply window_chain_facts in Hwd. lia.
  - set (total := Z.of_N (len_ms a)).
    set (fuel0 := (20 + Z.to_nat (total / 10000))%nat).
    destruct (split_loop_returns a max_size_mb fuel0 0 [] w) as [[e w'] Hrun].
    { unfold fuel0. lia. }
    { unfold fuel0. pose proof (Z.div_mod total 10000 ltac:(lia)).
      pose proof (Z.mod_pos_bound total 10000 ltac:(lia)).
      assert (0 <= total / 10000) by (apply Z.div_pos; unfold total; lia).
      lia. }
    exists (returned e, w'). intros fuel Hfuel. unfold split_audio_by_size.
    rewrite (split_loop_fuel a max_size_mb fuel0 fuel 0 [] w _ Hrun Hfuel).
    reflexivity.
Qed.

Lemma chunker_terminates_witness :
  (exists r w1,
     attempt_loop 18 dense_audio 24 0 60000 empty_world = Some (r, w1)
     /\ match r with
        | Accepted _ wd => 10000 <= wd <= 60000 /\ 0 < 0 + wd
        | Infeasible => True
        end)
  /\ shrink 35429 = 31886.
Proof.
  destruct (chunker_terminates dense_audio 24 empty_world) as (Hshrink & Hinner & _).
  split.
  - apply Hinner. lia.
  - destruct (Hshrink 35429) as [-> _]; [|reflexivity].
    rewrite window_chain_eq. simpl. tauto.
Defined.

(* ================================================================= *)
(** ** The run *)

Lemma transcribed_unlinked_app (l1 l2 : list event) :
  transcribed_unlinked l1 -> transcribed_unlinked l2 ->
  transcribed_unlinked (l1 ++ l2).
Proof.
  revert l2. induction l1 as [l1 IH] using (induction_ltof1 _ (@length event)).
  unfold ltof in IH. intros l2 H1 H2.
  destruct l1 as [|e l1]; [exact H2|].
  destruct e as [| | |n ok|]; simpl in *;
    try (apply IH; [lia | assumption | assumption]).
  destruct ok; [|apply IH; [lia | assumption | assumption]].
  destruct l1 as [|[] l1]; try contradiction.
  simpl. destruct H1 as [-> H1]. split; [reflexivity|].
  apply IH; [simpl; lia | assumption | assumption].
Qed.

(** The chunker sends nothing to the service. *)
Lemma chunker_events_no_request (a : audio) (evs : list event) :
  Forall (chunker_event a) evs -> transcribed_unlinked evs.
Proof.
  induction 1 as [|e evs He _ IH]; simpl; [exact I|].
  destruct e; simpl in He; try contradiction; exact IH.
Qed.

(** What the transcription loop does: it unlinks each file right after
    the service has answered for it; when no request raises, the files
    of all chunks are gone and every other file is untouched. *)
Lemma transcribe_loop_spec (whisper : service) (cs : list chunk) :
  forall (acc : list (transcription * Q)) (w : world) res (w' : world),
    transcribe_loop whisper cs acc w = (res, w') ->
    csv w' = csv w
    /\ (exists evs, log w' = log w ++ evs /\ transcribed_unlinked evs)
    /\ forall trs, res = Some trs ->
         (forall n, In n (map fst cs) -> tmp w' !! n = None)
         /\ (forall n, ~ In n (map fst cs) -> tmp w' !! n = tmp w !! n)
         /\ map snd trs = map snd acc ++ map snd cs.
Proof.
  induction cs as [|[name off] rest IH]; intros acc w res w' H; simpl in H.
  - inversion H; subst res w'; clear H.
    split; [reflexivity|]. split; [exists []; now rewrite app_nil_r|].
    intros trs Htrs. inversion Htrs; subst trs. simpl.
    rewrite app_nil_r. repeat split; tauto.
  - unfold transcribe_audio in H.
    destruct (tmp w !! name) as [f|] eqn:Hf.
    2:{ inversion H; subst res w'; clear H.
        split; [reflexivity|]. split; [exists []; now rewrite app_nil_r|].
        intros trs Htrs. discriminate. }
    destruct (whisper f) as [tr|].
    2:{ inversion H; subst res w'; clear H.
        split; [reflexivity|]. split; [exists [EvTranscribe name false]; now simpl|].
        intros trs Htrs. discriminate. }
    apply IH in H. destruct H as (Hcsv & (evs & Hlog & Hev) & Hres).
    split; [exact Hcsv|]. split.
    { exists ([EvTranscribe name true; EvUnlink name] ++ evs).
      split; [rewrite Hlog; simpl; rewrite <- !app_assoc; reflexivity|].
      simpl. split; [reflexivity | exact Hev]. }
    intros trs Htrs. destruct (Hres trs Htrs) as (Hgone & Hkept & Hoffs).
    change (tmp (os_unlink name (emit (EvTranscribe name true) w)))
      with (delete name (tmp w)) in Hkept.
    split; [|split].
    + intros n [Heq|Hn].
      * subst n. cbn [fst].
        destruct (in_dec Nat.eq_dec name (map fst rest)) as [Hin|Hout];
          [now apply Hgone|].
        rewrite (Hkept name Hout). apply lookup_delete_eq.
      * now apply Hgone.
    + intros n Hn. cbn [map fst In] in Hn.
      rewrite Hkept by tauto. apply lookup_delete_ne. tauto.
    + rewrite Hoffs, map_app, <- app_assoc. reflexivity.
Qed.

Lemma chunk_names (steps : list step) :
  map fst (map chunk_of steps) = map st_name steps.
Proof. rewrite map_map. reflexivity. Qed.

(** A run of the chunker that returns chunks has completed. *)
Lemma returned_chunks (e : split_exit) (c : chunk) (cs : list chunk) :
  returned e = c :: cs -> e = Completed (c :: cs).
Proof. destruct e; simpl; [now intros -> | discriminate]. Qed.

(** After the transcription loop has run through, removing the extracted
    audio file leaves the temporary directory as it was before the run. *)
Lemma loop_cleanup (fuel : nat) (blob : mp3_file) (a : audio) (max_size_mb : Z)
    (whisper : service) (w : world) (c : chunk) (cs : list chunk) (w2 : world)
    (trs : list (transcription * Q)) (w3 : world) :
  split_audio_by_size fuel a max_size_mb (write_file (mktemp w) blob w)
  = Some (c :: cs, w2) ->
  transcribe_loop whisper (c :: cs) [] w2 = (Some trs, w3) ->
  delete (mktemp w) (tmp w3) = tmp w.
Proof.
  intros Hsplit Htr.
  set (audio_file := mktemp w) in *.
  set (w1 := write_file audio_file blob w) in *.
  unfold split_audio_by_size in Hsplit.
  destruct (split_loop fuel a max_size_mb 0 [] w1) as [[e w2']|] eqn:Hloop;
    [|discriminate].
  inversion Hsplit as [[Hret Hw2]]; subst w2'; clear Hsplit.
  apply returned_chunks in Hret. subst e.
  apply split_loop_spec in Hloop.
  destruct Hloop as (steps & evs1 & fin & Hlog1 & _ & Hok & _ & _ & Hfresh & _
                     & Hdir & _ & Hcs & _).
  simpl in Hcs.
  apply transcribe_loop_spec in Htr.
  destruct Htr as (_ & _ & Hres).
  destruct (Hres trs eq_refl) as (Hgone & Hkept & _). clear Hres.
  rewrite Hcs, chunk_names in Hgone, Hkept.
  rewrite List.Forall_forall in Hfresh.
  apply map_eq. intros n.
  destruct (decide (audio_file = n)) as [<-|Hne].
  { rewrite lookup_delete_eq. symmetry. apply mktemp_fresh. }
  rewrite lookup_delete_ne by exact Hne.
  assert (Hw1 : tmp w1 !! n = tmp w !! n).
  { unfold w1. simpl. now apply lookup_insert_ne. }
  destruct (in_dec Nat.eq_dec n (map st_name steps)) as [Hin|Hout].
  + rewrite (Hgone n Hin), <- Hw1.
    apply in_map_iff in Hin. destruct Hin as (st & <- & Hst).
    symmetry. now apply Hfresh.
  + rewrite (Hkept n Hout), <- Hw1. apply option_eq. intros f.
    rewrite Hdir. split; [|tauto].
    intros [Hold|(st & Hst & -> & _)]; [exact Hold|].
    exfalso. apply Hout. now apply in_map.
Qed.

(** C5, as the code has it.  After a run that finishes, with every chunk
    accepted and every request answered, the temporary directory is what
    it was before the run: no chunk file and no extracted audio file of
    the run remains; the table is written; and in the history of the run
    every answered request is followed at once by the unlink of the chunk
    file that was sent. *)
Theorem run_cleanup (fuel : nat) (blob : mp3_file) (a : audio) (max_size_mb : Z)
    (whisper : service) (w w' : world) :
  main fuel blob a max_size_mb whisper w = Some (Finished, w') ->
  tmp w' = tmp w
  /\ (exists rows, csv w' = Some rows)
  /\ exists evs, log w' = log w ++ evs /\ transcribed_unlinked evs.
Proof.
  unfold main, extract_audio. intros H.
  set (audio_file := mktemp w) in *.
  set (w1 := write_file audio_file blob w) in *.
  destruct (split_audio_by_size fuel a max_size_mb w1) as [[cs w2]|] eqn:Hsplit;
    [|discriminate].
  destruct cs as [|c cs]; [discriminate|].
  destruct (transcribe_loop whisper (c :: cs) [] w2) as [[trs|] w3] eqn:Htr;
    [|discriminate].
  destruct (process_transcription trs) as [data|]; [|discriminate].
  inversion H; subst w'; clear H.
  pose proof Hsplit as Hsplit0. pose proof Htr as Htr0.
  unfold split_audio_by_size in Hsplit.
  destruct (split_loop fuel a max_size_mb 0 [] w1) as [[e w2']|] eqn:Hloop;
    [|discriminate].
  inversion Hsplit as [[Hret Hw2]]; subst w2'; clear Hsplit.
  apply returned_chunks in Hret. subst e.
  apply split_loop_spec in Hloop.
  destruct Hloop as (steps & evs1 & fin & Hlog1 & _ & Hok & _ & _ & Hfresh & _
                     & Hdir & _ & Hcs & _).
  simpl in Hcs.
  apply transcribe_loop_spec in Htr.
  destruct Htr as (_ & (evs2 & Hlog2 & Hev2) & Hres).
  destruct (Hres trs eq_refl) as (Hgone & Hkept & _). clear Hres.
  rewrite Hcs, chunk_names in Hgone, Hkept.
  rewrite List.Forall_forall in Hfresh.
  split; [|split].
  - exact (loop_cleanup _ _ _ _ _ _ _ _ _ _ _ Hsplit0 Htr0).
  - eexists. reflexivity.
  - exists (evs1 ++ evs2 ++ [EvUnlink audio_file; EvCsv data]).
    split.
    + simpl. rewrite Hlog2, Hlog1. unfold w1. simpl.
      rewrite <- !app_assoc. reflexivity.
    + apply transcribed_unlinked_app; [eapply chunker_events_no_request; exact Hok|].
      apply transcribed_unlinked_app; [exact Hev2 | simpl; exact I].
Qed.

Lemma run_cleanup_witness :
  exists w',
    main 30 sample_blob sample_audio 24 sample_service empty_world = Some (Finished, w')
    /\ tmp w' = tmp empty_world
    /\ (exists rows, csv w' = Some rows)
    /\ exists evs, log w' = log empty_world ++ evs /\ transcribed_unlinked evs.
Proof.
  destruct (main 30 sample_blob sample_audio 24 sample_service empty_world)
    as [[[] w']|] eqn:H; try (vm_compute in H; discriminate).
  exists w'. split; [reflexivity|].
  exact (run_cleanup 30 sample_blob sample_audio 24 sample_service empty_world w' H).
Defined.

(** C5, as stated, fails: when the first request to the service raises,
    the run ends with the extracted audio file and all three chunk files
    still in the directory, which was empty before the run. *)
Lemma failed_run_leaves_files :
  exists w',
    main 30 sample_blob sample_audio 24 failing_service empty_world = Some (Raised, w')
    /\ tmp empty_world = ∅
    /\ tmp w' !! 0%nat = Some sample_blob
    /\ tmp w' !! 1%nat
       = Some {| src_start := 0; src_end := 60000; size_bytes := 480000 |}
    /\ size (tmp w') = 4%nat
    /\ log w' = [EvExport 1 0 60000 60000 480000;
                 EvExport 2 60000 60000 120000 480000;
                 EvExport 3 120000 60000 150000 240000;
                 EvTranscribe 1 false].
Proof.
  eexists. split; [vm_compute; reflexivity|].
  split; [reflexivity|]. repeat split; vm_compute; reflexivity.
Qed.

(** The abort of the chunker leaves the extracted audio file behind as
    well: [main] returns without removing it. *)
Lemma infeasible_run_leaves_audio :
  exists w',
    main 30 sample_blob dense_audio 24 sample_service empty_world = Some (SplitFailed, w')
    /\ tmp w' !! 0%nat = Some sample_blob
    /\ size (tmp w') = 1%nat.
Proof.
  eexists. split; [vm_compute; reflexivity|].
  split; vm_compute; reflexivity.
Qed.

(** C10.  On audio of no duration the chunker returns the empty list at
    once, leaving the world untouched: no attempt, no file, no message.
    The caller answers every empty list with the same failure message and
    return, whatever run produced it; a run the chunker aborts as
    infeasible returns the empty list too, so the caller reacts to both
    in the same way. *)
Theorem zero_length_is_failure (fuel : nat) (a : audio) (max_size_mb : Z) (w : world) :
  len_ms a = 0%N ->
  split_audio_by_size (S fuel) a max_size_mb w = Some ([], w)
  /\ (forall blob whisper w0,
        main (S fuel) blob a max_size_mb whisper w0
        = Some (SplitFailed,
                st_error split_failed_msg (snd (extract_audio blob w0))))
  /\ (forall fuel' a' blob whisper w0 w2,
        split_audio_by_size fuel' a' max_size_mb (snd (extract_audio blob w0))
          = Some ([], w2) ->
        main fuel' blob a' max_size_mb whisper w0
        = Some (SplitFailed, st_error split_failed_msg w2))
  /\ (forall fuel' a' w1 w2,
        split_loop fuel' a' max_size_mb 0 [] w1 = Some (Aborted, w2) ->
        split_audio_by_size fuel' a' max_size_mb w1 = Some ([], w2)).
Proof.
  intros Hlen.
  assert (Hzero : forall w1, split_audio_by_size (S fuel) a max_size_mb w1 = Some ([], w1)).
  { intros w1. unfold split_audio_by_size. rewrite split_loop_S, Hlen. reflexivity. }
  split; [apply Hzero|]. split; [|split].
  - intros blob whisper w0. unfold main, extract_audio. simpl snd.
    rewrite Hzero. reflexivity.
  - intros fuel' a' blob whisper w0 w2 H. unfold main.
    unfold extract_audio in *. simpl snd in H. rewrite H. reflexivity.
  - intros fuel' a' w1 w2 H. unfold split_audio_by_size. rewrite H. reflexivity.
Qed.

Lemma zero_length_is_failure_witness :
  split_audio_by_size 1 empty_audio 24 empty_world = Some ([], empty_world)
  /\ main 1 sample_blob empty_audio 24 sample_service empty_world
     = Some (SplitFailed,
             st_error split_failed_msg (snd (extract_audio sample_blob empty_world))).
Proof.
  destruct (zero_length_is_failure 0 empty_audio 24 empty_world eq_refl)
    as (H1 & H2 & _).
  split; [exact H1 | apply H2].
Defined.

(* ================================================================= *)
(** * Further properties of the code *)

(* ================================================================= *)
(** ** The inner loop takes the first window that fits *)

Lemma window_chain_unfold : window_chain = windows_from 32 60000.
Proof. vm_compute. reflexivity. Qed.

Lemma mktemp_after_rejection (w : world) (f : mp3_file) (e : event) :
  mktemp (os_unlink (mktemp w) (emit e (write_file (mktemp w) f w))) = mktemp w.
Proof. unfold mktemp at 1. rewrite rejected_attempt_tmp. reflexivity. Qed.

Lemma attempt_loop_first_fit (a : audio) (max_size_mb : Z) (start_ms : Z) (fuel : nat) :
  forall (n : nat) (wd : Z) (w : world) (r : attempt_exit) (w1 : world),
    (length (windows_from n wd) < n)%nat ->
    attempt_loop fuel a max_size_mb start_ms wd w = Some (r, w1) ->
    r = match find (attempt_fits a max_size_mb start_ms) (windows_from n wd) with
        | Some wd' => Accepted (mktemp w) wd'
        | None => Infeasible
        end.
Proof.
  induction fuel as [|fuel IH]; intros n wd w r w1 Hn H; [discriminate|].
  destruct n as [|n]; [simpl in Hn; lia|].
  rewrite attempt_loop_S in H. cbv zeta in H.
  cbn [windows_from find]. unfold attempt_fits at 1.
  destruct (fits _ _); [congruence|].
  cbn [windows_from length] in Hn.
  destruct (shrink wd <? 10000) eqn:Hs; [cbn [find]; congruence|].
  apply (IH n) in H; [|lia].
  now rewrite mktemp_after_rejection in H.
Qed.

(** X1.  Whatever the inner loop returns, it is the first fit: the
    accepted window is the first window of the chain 60000, 54000, ...,
    10003 whose export from the cursor is within the cap, under the name
    that was fresh when the loop began; the loop aborts exactly when no
    window of the chain fits. *)
Theorem inner_loop_first_fit (fuel : nat) (a : audio) (max_size_mb : Z)
    (start_ms : Z) (w : world) (r : attempt_exit) (w1 : world) :
  attempt_loop fuel a max_size_mb start_ms 60000 w = Some (r, w1) ->
  r = match find (attempt_fits a max_size_mb start_ms) window_chain with
      | Some wd => Accepted (mktemp w) wd
      | None => Infeasible
      end.
Proof.
  intros H. rewrite window_chain_unfold.
  eapply attempt_loop_first_fit; [|exact H].
  rewrite window_chain_length. lia.
Qed.

Lemma inner_loop_first_fit_witness :
  exists w1,
    attempt_loop 18 late_dense_audio 24 0 60000 empty_world
    = Some (Accepted 0 60000, w1)
    /\ Accepted 0 60000
       = match find (attempt_fits late_dense_audio 24 0) window_chain with
         | Some wd => Accepted (mktemp empty_world) wd
         | None => Infeasible
         end.
Proof.
  destruct (attempt_loop 18 late_dense_audio 24 0 60000 empty_world)
    as [[r w1]|] eqn:H; [|vm_compute in H; discriminate].
  assert (Hr : r = Accepted 0 60000).
  { vm_compute in H. now inversion H. }
  subst r. exists w1. split; [reflexivity|].
  exact (inner_loop_first_fit 18 late_dense_audio 24 0 empty_world _ w1 H).
Defined.

(* ================================================================= *)
(** ** Audio that always fits is cut at whole minutes *)

Lemma split_loop_all_fit (a : audio) (max_size_mb : Z) :
  (forall s, 0 <= s < Z.of_N (len_ms a) -> attempt_fits a max_size_mb s 60000 = true) ->
  forall (fuel : nat) (start_ms : Z) (chunks : list chunk) (w : world)
         (e : split_exit) (w' : world),
    0 <= start_ms ->
    split_loop fuel a max_size_mb start_ms chunks w = Some (e, w') ->
    exists marks evs,
      e = Completed (chunks ++ map (fun s => (fst s, (inject_Z (snd s) / 1000)%Q)) marks)
      /\ map snd marks = minute_marks (length marks) start_ms
      /\ Z.of_N (len_ms a) <= start_ms + 60000 * Z.of_nat (length marks)
      /\ (marks <> [] ->
          start_ms + 60000 * (Z.of_nat (length marks) - 1) < Z.of_N (len_ms a))
      /\ log w' = log w ++ evs /\ Forall is_export evs
      /\ length evs = length marks.
Proof.
  intros Hfit fuel.
  induction fuel as [|fuel IH]; intros start_ms chunks w e w' Hpos H; [discriminate|].
  rewrite split_loop_S in H.
  destruct (start_ms <? Z.of_N (len_ms a)) eqn:Hlt.
  2:{ inversion H; subst e w'; clear H. apply Z.ltb_ge in Hlt.
      exists [], []. rewrite !app_nil_r. simpl.
      repeat split; try constructor; try lia. congruence. }
  apply Z.ltb_lt in Hlt.
  destruct fuel as [|fuel]; [discriminate|].
  rewrite attempt_loop_S in H. cbv zeta in H.
  pose proof (Hfit start_ms ltac:(lia)) as Hf. unfold attempt_fits in Hf.
  rewrite Hf in H. apply IH in H; [|lia].
  destruct H as (marks & evs & -> & Hmarks & Hend & Hlast & Hlog & Hexp & Hlen).
  exists ((mktemp w, start_ms) :: marks),
    (EvExport (mktemp w) start_ms 60000
       (Z.min (start_ms + 60000) (Z.of_N (len_ms a)))
       (export_bytes a start_ms (Z.min (start_ms + 60000) (Z.of_N (len_ms a))))
     :: evs).
  split; [now rewrite <- app_assoc|].
  split; [simpl; now rewrite Hmarks|].
  split; [simpl length; lia|].
  split.
  { intros _. destruct marks as [|m marks]; [simpl; lia|].
    specialize (Hlast ltac:(discriminate)). simpl length in *. lia. }
  split; [rewrite Hlog; simpl; rewrite <- app_assoc; reflexivity|].
  split; [constructor; [exact I | exact Hexp] | simpl; now rewrite Hlen].
Qed.

(** X2.  When the first attempt fits at every cursor, the chunker cuts the
    audio at whole minutes: it returns ceil(D / 60000) chunks with the
    offsets 0, 60, 120, ... seconds, and it makes exactly one export per
    chunk and nothing else: no attempt is rejected, no file unlinked. *)
Theorem whole_minutes (fuel : nat) (a : audio) (max_size_mb : Z)
    (w : world) (cs : list chunk) (w' : world) :
  (forall s, 0 <= s < Z.of_N (len_ms a) -> attempt_fits a max_size_mb s 60000 = true) ->
  split_audio_by_size fuel a max_size_mb w = Some (cs, w') ->
  let n := Z.to_nat ((Z.of_N (len_ms a) + 59999) / 60000) in
  length cs = n
  /\ map snd cs = map (fun s => (inject_Z s / 1000)%Q) (minute_marks n 0)
  /\ exists evs, log w' = log w ++ evs /\ Forall is_export evs /\ length evs = n.
Proof.
  intros Hfit H n. unfold split_audio_by_size in H.
  destruct (split_loop fuel a max_size_mb 0 [] w) as [[e w1]|] eqn:Hloop;
    [|discriminate].
  inversion H; subst cs w1; clear H.
  apply (split_loop_all_fit a max_size_mb Hfit) in Hloop; [|lia].
  destruct Hloop as (marks & evs & -> & Hmarks & Hend & Hlast & Hlog & Hexp & Hlen).
  assert (Hn : length marks = n).
  { unfold n. set (D := Z.of_N (len_ms a)) in *.
    pose proof (Z.div_mod (D + 59999) 60000 ltac:(lia)).
    pose proof (Z.mod_pos_bound (D + 59999) 60000 ltac:(lia)).
    destruct marks as [|m marks].
    - simpl in Hend. assert (D = 0) by (unfold D in *; lia).
      replace D with 0. reflexivity.
    - specialize (Hlast ltac:(discriminate)). simpl length in *. lia. }
  simpl. rewrite length_map, map_map. simpl.
  split; [exact Hn|]. split.
  - rewrite <- Hn, <- Hmarks, map_map. reflexivity.
  - exists evs. rewrite <- Hn. auto.
Qed.

Lemma sample_audio_fits :
  forall s, 0 <= s < Z.of_N (len_ms sample_audio) ->
            attempt_fits sample_audio 24 s 60000 = true.
Proof.
  intros s Hs. unfold attempt_fits. apply fits_cap.
  unfold cap_bytes. simpl in *. lia.
Qed.

Lemma whole_minutes_witness :
  exists cs w',
    split_audio_by_size 30 sample_audio 24 empty_world = Some (cs, w')
    /\ length cs = 3%nat
    /\ map snd cs = map (fun s => (inject_Z s / 1000)%Q) [0; 60000; 120000]
    /\ exists evs, log w' = log empty_world ++ evs /\ Forall is_export evs
                   /\ length evs = 3%nat.
Proof.
  destruct (split_audio_by_size 30 sample_audio 24 empty_world)
    as [[cs w']|] eqn:H; [|vm_compute in H; discriminate].
  exists cs, w'. split; [reflexivity|].
  exact (whole_minutes 30 sample_audio 24 empty_world cs w' sample_audio_fits H).
Defined.

(* ================================================================= *)
(** ** How many chunks *)

Lemma walk_span (total : Z) (steps : list step) :
  forall cur fin,
    walk total cur steps fin ->
    fin <= cur + 60000 * Z.of_nat (length steps)
    /\ (steps <> [] -> cur + 10000 * (Z.of_nat (length steps) - 1) < total).
Proof.
  induction steps as [|st rest IH]; intros cur fin H.
  - simpl in H. subst fin. simpl. split; [lia | congruence].
  - destruct H as (Hs & Hlt & Hwd & Hrest).
    apply window_chain_facts in Hwd. destruct Hwd as (Hwd & _).
    destruct (IH _ _ Hrest) as (Hup & Hlow).
    split; [simpl length; lia|]. intros _.
    destruct rest as [|st' rest']; [simpl; lia|].
    specialize (Hlow ltac:(discriminate)). simpl length in *. lia.
Qed.

(** X3.  A completed run over D ms returns at least D / 60000 chunks and,
    unless it returns none, fewer than D / 10000 + 1: every accepted
    window is at most a minute and at least the floor.  So the number of
    requests to the service is bounded by the duration alone. *)
Theorem chunk_count_bounds (fuel : nat) (a : audio) (max_size_mb : Z)
    (w : world) (cs : list chunk) (w' : world) :
  split_loop fuel a max_size_mb 0 [] w = Some (Completed cs, w') ->
  Z.of_N (len_ms a) <= 60000 * Z.of_nat (length cs)
  /\ (cs <> [] -> 10000 * (Z.of_nat (length cs) - 1) < Z.of_N (len_ms a)).
Proof.
  intros H. apply split_loop_spec in H.
  destruct H as (steps & _ & fin & _ & _ & _ & _ & Hwalk & _ & _ & _ & _ & Hcs & Hfin).
  simpl in Hcs. subst cs. rewrite length_map.
  destruct (walk_span _ _ _ _ Hwalk) as (Hup & Hlow).
  split; [lia|]. intros Hne. apply Hlow. intros ->. now apply Hne.
Qed.

Lemma chunk_count_bounds_witness :
  exists cs w',
    split_loop 30 sample_audio 24 0 [] empty_world = Some (Completed cs, w')
    /\ 150000 <= 60000 * Z.of_nat (length cs)
    /\ (cs <> [] -> 10000 * (Z.of_nat (length cs) - 1) < 150000).
Proof.
  destruct (split_loop 30 sample_audio 24 0 [] empty_world)
    as [[[cs|] w']|] eqn:H; [|vm_compute in H; discriminate..].
  exists cs, w'. split; [reflexivity|].
  exact (chunk_count_bounds 30 sample_audio 24 empty_world cs w' H).
Defined.

(* ================================================================= *)
(** ** What the chunker leaves alone *)

(** X4.  The chunker never removes or overwrites a file that was in the
    temporary directory before it ran, and never touches the table; the
    chunks it returns carry pairwise distinct names, none of which was in
    use before the run. *)
Theorem chunker_frame (fuel : nat) (a : audio) (max_size_mb : Z)
    (w : world) (cs : list chunk) (w' : world) :
  split_audio_by_size fuel a max_size_mb w = Some (cs, w') ->
  (forall n f, tmp w !! n = Some f -> tmp w' !! n = Some f)
  /\ csv w' = csv w
  /\ NoDup (map fst cs)
  /\ Forall (fun c => tmp w !! fst c = None) cs.
Proof.
  unfold split_audio_by_size. intros H.
  destruct (split_loop fuel a max_size_mb 0 [] w) as [[e w1]|] eqn:Hloop;
    [|discriminate].
  inversion H; subst cs w1; clear H.
  apply split_loop_spec in Hloop.
  destruct Hloop as (steps & _ & fin & _ & Hcsv & _ & _ & _ & Hfresh & Hdup
                     & Hdir & _ & He).
  split; [intros n f Hn; apply Hdir; now left|]. split; [exact Hcsv|].
  destruct e as [cs|]; simpl; [|split; constructor].
  destruct He as [-> _]. simpl. rewrite chunk_names. split; [exact Hdup|].
  apply Forall_map. exact Hfresh.
Qed.

Lemma chunker_frame_witness :
  exists cs w',
    split_audio_by_size 30 sample_audio 24 empty_world = Some (cs, w')
    /\ (forall n f, tmp empty_world !! n = Some f -> tmp w' !! n = Some f)
    /\ csv w' = csv empty_world
    /\ NoDup (map fst cs)
    /\ Forall (fun c => tmp empty_world !! fst c = None) cs.
Proof.
  destruct (split_audio_by_size 30 sample_audio 24 empty_world)
    as [[cs w']|] eqn:H; [|vm_compute in H; discriminate].
  exists cs, w'. split; [reflexivity|].
  exact (chunker_frame 30 sample_audio 24 empty_world cs w' H).
Defined.

(* ================================================================= *)
(** ** The abort of the chunker *)

Lemma attempt_loop_errors (a : audio) (max_size_mb : Z) (start_ms : Z) (fuel : nat) :
  forall (wd : Z) (w : world) (r : attempt_exit) (w' : world),
    attempt_loop fuel a max_size_mb start_ms wd w = Some (r, w') ->
    exists evs,
      log w' = log w ++ evs
      /\ match r with
         | Accepted _ _ => Forall (fun e => ~ is_error e) evs
         | Infeasible =>
             exists evs0, evs = evs0 ++ [EvError infeasible_msg]
                          /\ Forall (fun e => ~ is_error e) evs0
         end.
Proof.
  induction fuel as [|fuel IH]; intros wd w r w' H; [discriminate|].
  rewrite attempt_loop_S in H. cbv zeta in H.
  destruct (fits _ _).
  - inversion H; subst r w'; clear H. eexists. split; [reflexivity|].
    repeat constructor. simpl. tauto.
  - destruct (shrink wd <? 10000).
    + inversion H; subst r w'; clear H. simpl. eexists. split.
      * rewrite <- !app_assoc. reflexivity.
      * eexists [_; _]. split; [reflexivity|]. repeat constructor; simpl; tauto.
    + apply IH in H. destruct H as (evs & Hlog & Hr).
      eexists ([_; _] ++ evs). split.
      * rewrite Hlog. simpl. rewrite <- !app_assoc. reflexivity.
      * destruct r as [name wd'|].
        -- apply Forall_app. split; [repeat constructor; simpl; tauto | exact Hr].
        -- destruct Hr as (evs0 & -> & Hr). eexists ([_; _] ++ evs0).
           split; [now rewrite <- app_assoc|].
           apply Forall_app. split; [repeat constructor; simpl; tauto | exact Hr].
Qed.

Lemma split_loop_errors (a : audio) (max_size_mb : Z) (fuel : nat) :
  forall (start_ms : Z) (chunks : list chunk) (w : world) (e : split_exit) (w' : world),
    split_loop fuel a max_size_mb start_ms chunks w = Some (e, w') ->
    exists evs,
      log w' = log w ++ evs
      /\ match e with
         | Completed _ => Forall (fun e => ~ is_error e) evs
         | Aborted =>
             exists evs0, evs = evs0 ++ [EvError infeasible_msg]
                          /\ Forall (fun e => ~ is_error e) evs0
         end.
Proof.
  induction fuel as [|fuel IH]; intros start_ms chunks w e w' H; [discriminate|].
  rewrite split_loop_S in H.
  destruct (start_ms <? Z.of_N (len_ms a)).
  2:{ inversion H; subst e w'; clear H. exists []. rewrite app_nil_r.
      split; [reflexivity | constructor]. }
  destruct (attempt_loop fuel a max_size_mb start_ms 60000 w)
    as [[[name wd|] w1]|] eqn:Hatt; [| |discriminate].
  - apply attempt_loop_errors in Hatt. destruct Hatt as (evs1 & Hlog1 & H1).
    apply IH in H. destruct H as (evs & Hlog & He).
    exists (evs1 ++ evs). split; [rewrite Hlog, Hlog1; now rewrite app_assoc|].
    destruct e as [cs|].
    + apply Forall_app. split; assumption.
    + destruct He as (evs0 & -> & He). exists (evs1 ++ evs0).
      split; [now rewrite app_assoc|]. apply Forall_app. split; assumption.
  - inversion H; subst e w'; clear H.
    apply attempt_loop_errors in Hatt. exact Hatt.
Qed.

(** X5.  The chunker shows its message "Cannot split audio into small
    enough chunks." exactly when it aborts, and then as the last thing it
    does; a run that completes shows no error message at all.  So an
    empty list returned without that message means audio of no duration. *)
Theorem abort_is_announced (fuel : nat) (a : audio) (max_size_mb : Z)
    (w : world) (e : split_exit) (w' : world) :
  split_loop fuel a max_size_mb 0 [] w = Some (e, w') ->
  exists evs,
    log w' = log w ++ evs
    /\ match e with
       | Completed cs =>
           Forall (fun e => ~ is_error e) evs
           /\ (cs = [] -> len_ms a = 0%N /\ w' = w)
       | Aborted =>
           exists evs0, evs = evs0 ++ [EvError infeasible_msg]
                        /\ Forall (fun e => ~ is_error e) evs0
       end.
Proof.
  intros H. pose proof (split_loop_errors _ _ _ _ _ _ _ _ H) as (evs & Hlog & He).
  exists evs. split; [exact Hlog|].
  destruct e as [cs|]; [|exact He]. split; [exact He|].
  intros ->. destruct fuel as [|fuel]; [discriminate|].
  rewrite split_loop_S in H.
  destruct (0 <? Z.of_N (len_ms a)) eqn:Hlt.
  - exfalso.
    destruct (attempt_loop fuel a max_size_mb 0 60000 w)
      as [[[name wd|] w1]|] eqn:Hatt; try discriminate.
    apply split_loop_spec in H.
    destruct H as (steps & _ & _ & _ & _ & _ & _ & _ & _ & _ & _ & _ & Hcs & _).
    simpl in Hcs. destruct (map chunk_of steps); discriminate.
  - apply Z.ltb_ge in Hlt. inversion H. split; [lia | reflexivity].
Qed.

Lemma abort_is_announced_witness :
  exists w',
    split_loop 30 dense_audio 24 0 [] empty_world = Some (Aborted, w')
    /\ exists evs,
         log w' = log empty_world ++ evs
         /\ exists evs0, evs = evs0 ++ [EvError infeasible_msg]
                         /\ Forall (fun e => ~ is_error e) evs0.
Proof.
  destruct (split_loop 30 dense_audio 24 0 [] empty_world)
    as [[[cs|] w']|] eqn:H; [vm_compute in H; discriminate| |vm_compute in H; discriminate].
  exists w'. split; [reflexivity|].
  exact (abort_is_announced 30 dense_audio 24 empty_world Aborted w' H).
Defined.

(** X6.  When the chunker aborts it returns the empty list, but the files
    of the attempts it had accepted before stay in the temporary
    directory, together with everything that was there; the caller is
    given no name to remove them by. *)
Theorem abort_keeps_accepted_files (fuel : nat) (a : audio) (max_size_mb : Z)
    (w : world) (w' : world) :
  split_loop fuel a max_size_mb 0 [] w = Some (Aborted, w') ->
  split_audio_by_size fuel a max_size_mb w = Some ([], w')
  /\ exists (steps : list step) (fin : Z),
       walk (Z.of_N (len_ms a)) 0 steps fin /\ fin < Z.of_N (len_ms a)
       /\ NoDup (map st_name steps)
       /\ Forall (fun st => tmp w !! st_name st = None
                            /\ tmp w' !! st_name st = Some (file_of a st)) steps
       /\ (forall n f, tmp w !! n = Some f -> tmp w' !! n = Some f)
       /\ size (tmp w') = (size (tmp w) + length steps)%nat.
Proof.
  intros H. split; [unfold split_audio_by_size; now rewrite H|].
  apply split_loop_spec in H.
  destruct H as (steps & _ & fin & _ & _ & _ & _ & Hwalk & Hfresh & Hdup
                 & Hdir & _ & Hfin).
  exists steps, fin. split; [exact Hwalk|]. split; [exact Hfin|].
  split; [exact Hdup|]. split.
  { rewrite List.Forall_forall in *. intros st Hst.
    split; [now apply Hfresh | apply Hdir; right; eauto]. }
  split; [intros n f Hn; apply Hdir; now left|].
  clear Hwalk Hfin. revert w w' Hfresh Hdup Hdir.
  induction steps as [|st steps IH]; intros w w' Hfresh Hdup Hdir.
  - simpl. rewrite Nat.add_0_r. f_equal. apply map_eq. intros n.
    apply option_eq. intros f. rewrite Hdir. split; [|tauto].
    intros [?|(st & [] & _)]. assumption.
  - inversion Hfresh as [|? ? Hst Hfresh']; subst.
    apply NoDup_cons in Hdup. destruct Hdup as [Hnot Hdup].
    rewrite list_elem_of_In in Hnot.
    set (w1 := write_file (st_name st) (file_of a st) w).
    rewrite (IH w1 w').
    + unfold w1. simpl. rewrite map_size_insert_None by exact Hst. lia.
    + eapply List.Forall_impl; [|apply Forall_forall; intros x Hx; exact (conj Hx (proj1 (List.Forall_forall _ _) Hfresh' x (proj1 (list_elem_of_In _ _) Hx)))].
      intros st' [Hin Hnone]. unfold w1. simpl.
      rewrite lookup_insert_ne; [exact Hnone|].
      intros Heq. apply Hnot. rewrite Heq. apply in_map.
      now apply list_elem_of_In.
    + exact Hdup.
    + intros n f. rewrite Hdir. unfold w1. simpl. rewrite lookup_insert_Some.
      split.
      * intros [Hold|(st' & [<-|Hin] & Hn & Hf)].
        -- left. right. split; [|exact Hold]. intros <-. congruence.
        -- left. left. auto.
        -- right. eauto.
      * intros [[[<- <-]|[_ Hold]]|(st' & Hin & Hn & Hf)].
        -- right. exists st. simpl. auto.
        -- now left.
        -- right. exists st'. simpl. auto.
Qed.

Lemma abort_keeps_accepted_files_witness :
  exists w',
    split_loop 30 late_dense_audio 24 0 [] empty_world = Some (Aborted, w')
    /\ split_audio_by_size 30 late_dense_audio 24 empty_world = Some ([], w')
    /\ size (tmp w') = 1%nat
    /\ tmp w' !! 0%nat
       = Some {| src_start := 0; src_end := 60000; size_bytes := 480000 |}.
Proof.
  destruct (split_loop 30 late_dense_audio 24 0 [] empty_world)
    as [[[cs|] w']|] eqn:H; [vm_compute in H; discriminate| |vm_compute in H; discriminate].
  exists w'. split; [reflexivity|].
  destruct (abort_keeps_accepted_files 30 late_dense_audio 24 empty_world w' H)
    as (Hret & _).
  split; [exact Hret|].
  vm_compute in H. inversion H. split; vm_compute; reflexivity.
Defined.

(* ================================================================= *)
(** ** The run, end to end *)

(** The replies the loop collects are the answers of the service to the
    files of the chunks, in chunk order, each with the offset of its
    chunk. *)
Lemma transcribe_loop_replies (whisper : service) (cs : list chunk) :
  forall (acc : list (transcription * Q)) (w : world) trs (w' : world),
    transcribe_loop whisper cs acc w = (Some trs, w') ->
    exists trs',
      trs = acc ++ trs'
      /\ Forall2 (fun c tr => exists f, tmp w !! fst c = Some f
                                        /\ whisper f = Some (fst tr)
                                        /\ snd tr = snd c) cs trs'.
Proof.
  induction cs as [|[name off] rest IH]; intros acc w trs w' H; simpl in H.
  - inversion H; subst. exists []. rewrite app_nil_r. split; [reflexivity | constructor].
  - unfold transcribe_audio in H.
    destruct (tmp w !! name) as [f|] eqn:Hf; [|discriminate].
    destruct (whisper f) as [tr|] eqn:Hwh; [|discriminate].
    apply IH in H. destruct H as (trs' & -> & Hall).
    exists ((tr, off) :: trs'). split; [now rewrite <- app_assoc|].
    constructor; [exists f; auto|].
    eapply Forall2_impl; [exact Hall|].
    intros c tr' (f' & Hf' & Hrest). exists f'. split; [|exact Hrest].
    change (tmp (os_unlink name (emit (EvTranscribe name true) w)))
      with (delete name (tmp w)) in Hf'.
    apply lookup_delete_Some in Hf'. tauto.
Qed.

(** The loop touches no file but those of the chunks, and not the table. *)
Lemma transcribe_loop_frame (whisper : service) (cs : list chunk) :
  forall (acc : list (transcription * Q)) (w : world) res (w' : world),
    transcribe_loop whisper cs acc w = (res, w') ->
    (forall n, ~ In n (map fst cs) -> tmp w' !! n = tmp w !! n)
    /\ csv w' = csv w
    /\ exists evs, log w' = log w ++ evs /\ Forall not_csv evs.
Proof.
  induction cs as [|[name off] rest IH]; intros acc w res w' H; simpl in H.
  - inversion H; subst. split; [reflexivity|]. split; [reflexivity|].
    exists []. rewrite app_nil_r. split; [reflexivity | constructor].
  - unfold transcribe_audio in H.
    destruct (tmp w !! name) as [f|] eqn:Hf.
    2:{ inversion H; subst. split; [reflexivity|]. split; [reflexivity|].
        exists []. rewrite app_nil_r. split; [reflexivity | constructor]. }
    destruct (whisper f) as [tr|].
    2:{ inversion H; subst. split; [reflexivity|]. split; [reflexivity|].
        eexists [_]. split; [reflexivity | repeat constructor]. }
    apply IH in H. destruct H as (Hkept & Hcsv & evs & Hlog & Hev).
    change (tmp (os_unlink name (emit (EvTranscribe name true) w)))
      with (delete name (tmp w)) in Hkept.
    split; [|split; [exact Hcsv|]].
    + intros n Hn. cbn [map fst In] in Hn.
      rewrite Hkept by tauto. apply lookup_delete_ne. tauto.
    + eexists ([_; _] ++ evs).
      split; [rewrite Hlog; simpl; rewrite <- !app_assoc; reflexivity|].
      apply Forall_app. split; [repeat constructor | exact Hev].
Qed.

(** When the loop is left by an exception although every chunk file is
    there, it is a request that raised: it is the last event, and the
    file that was sent is still in the directory. *)
Lemma transcribe_loop_raised (whisper : service) (cs : list chunk) :
  forall (acc : list (transcription * Q)) (w w' : world),
    NoDup (map fst cs) ->
    Forall (fun c => is_Some (tmp w !! fst c)) cs ->
    transcribe_loop whisper cs acc w = (None, w') ->
    exists c f evs,
      In c cs /\ tmp w !! fst c = Some f /\ whisper f = None
      /\ tmp w' !! fst c = Some f
      /\ log w' = log w ++ evs ++ [EvTranscribe (fst c) false].
Proof.
  induction cs as [|[name off] rest IH]; intros acc w w' Hdup Hall H; simpl in H;
    [discriminate|].
  unfold transcribe_audio in H.
  inversion Hall as [|? ? Hhead Hrest]; subst. simpl in Hhead.
  simpl in Hdup. apply NoDup_cons in Hdup. destruct Hdup as [Hnot Hdup].
  rewrite list_elem_of_In in Hnot.
  destruct (tmp w !! name) as [f|] eqn:Hf; [|destruct Hhead; discriminate].
  destruct (whisper f) as [tr|] eqn:Hwh.
  - apply IH in H; [|exact Hdup|].
    + destruct H as (c & f' & evs & Hin & Hf' & Hnone & Hstill & Hlog).
      change (tmp (os_unlink name (emit (EvTranscribe name true) w)))
        with (delete name (tmp w)) in Hf'.
      apply lookup_delete_Some in Hf'.
      exists c, f', ([EvTranscribe name true; EvUnlink name] ++ evs).
      split; [now right|]. split; [tauto|]. split; [exact Hnone|].
      split; [exact Hstill|].
      rewrite Hlog. simpl. rewrite <- !app_assoc. reflexivity.
    + apply List.Forall_forall. intros c Hc.
      rewrite List.Forall_forall in Hrest. specialize (Hrest c Hc).
      change (tmp (os_unlink name (emit (EvTranscribe name true) w)))
        with (delete name (tmp w)).
      rewrite lookup_delete_ne; [exact Hrest|].
      intros ->. apply Hnot. now apply in_map.
  - inversion H; subst w'; clear H.
    exists (name, off), f, []. simpl. repeat split; auto.
Qed.

Lemma replies_of_steps (whisper : service) (a : audio) (m : gmap nat mp3_file)
    (steps : list step) :
  forall trs,
    Forall (fun st => m !! st_name st = Some (file_of a st)) steps ->
    Forall2 (fun c tr => exists f, m !! fst c = Some f
                                   /\ whisper f = Some (fst tr)
                                   /\ snd tr = snd c) (map chunk_of steps) trs ->
    Forall2 (fun st tr => whisper (file_of a st) = Some (fst tr)
                          /\ snd tr = (inject_Z (st_start st) / 1000)%Q) steps trs.
Proof.
  induction steps as [|st steps IH]; intros trs Hfiles H; simpl in H.
  - inversion H; subst. constructor.
  - inversion H as [|? tr ? trs' (f & Hf & Hwh & Hoff) Hrest]; subst.
    inversion Hfiles as [|? ? Hst Hfiles']; subst. simpl in Hf.
    constructor; [|now apply IH].
    rewrite Hst in Hf. inversion Hf; subst f. split; [exact Hwh | exact Hoff].
Qed.

(** What a run of [main] that gets past the chunker has in hand: the
    accepted attempts, their files on disk under fresh distinct names. *)
Lemma main_chunks (fuel : nat) (a : audio) (max_size_mb : Z) (w1 : world)
    (c : chunk) (cs : list chunk) (w2 : world) :
  split_audio_by_size fuel a max_size_mb w1 = Some (c :: cs, w2) ->
  exists steps evs,
    c :: cs = map chunk_of steps
    /\ contiguous 0 (Z.of_N (len_ms a)) (map (file_of a) steps)
    /\ NoDup (map st_name steps)
    /\ Forall (fun st => tmp w1 !! st_name st = None) steps
    /\ Forall (fun st => tmp w2 !! st_name st = Some (file_of a st)) steps
    /\ (forall n, ~ In n (map st_name steps) -> tmp w2 !! n = tmp w1 !! n)
    /\ csv w2 = csv w1
    /\ log w2 = log w1 ++ evs /\ Forall (chunker_event a) evs.
Proof.
  unfold split_audio_by_size. intros H.
  destruct (split_loop fuel a max_size_mb 0 [] w1) as [[e w2']|] eqn:Hloop;
    [|discriminate].
  inversion H as [[Hret Hw2]]; subst w2'; clear H.
  apply returned_chunks in Hret. subst e.
  apply split_loop_spec in Hloop.
  destruct Hloop as (steps & evs & fin & Hlog & Hcsv & Hok & _ & Hwalk & Hfresh
                     & Hdup & Hdir & _ & Hcs & Hfin).
  simpl in Hcs. exists steps, evs.
  split; [exact Hcs|].
  split; [eapply walk_contiguous; [exact Hwalk | exact Hfin | lia]|].
  split; [exact Hdup|]. split; [exact Hfresh|].
  split; [apply List.Forall_forall; intros st Hst; apply Hdir; right; eauto|].
  split; [|auto].
  intros n Hout. apply option_eq. intros f. rewrite Hdir. split; [|tauto].
  intros [Hold|(st & Hst & -> & _)]; [exact Hold|].
  exfalso. apply Hout. now apply in_map.
Qed.

(** X7.  The table of a run that finishes is the run end to end: the
    audio is tiled from 0 to D by the files of the chunks, and the table
    holds, chunk after chunk in time order, the rows of the reply of the
    service to that chunk's file, each time of the reply added in binary64
    to the double start / 1000.0 of that chunk. *)
Theorem table_of_finished_run (fuel : nat) (blob : mp3_file) (a : audio)
    (max_size_mb : Z) (whisper : service) (w w' : world) :
  main fuel blob a max_size_mb whisper w = Some (Finished, w') ->
  exists (steps : list step) (trs : list (transcription * Q)) (rows : list row),
    contiguous 0 (Z.of_N (len_ms a)) (map (file_of a) steps)
    /\ Forall2 (fun st tr => whisper (file_of a st) = Some (fst tr)
                             /\ snd tr = (inject_Z (st_start st) / 1000)%Q)
         steps trs
    /\ assemble trs = Some rows
    /\ csv w' = Some rows.
Proof.
  unfold main, extract_audio. intros H.
  set (w1 := write_file (mktemp w) blob w) in *.
  destruct (split_audio_by_size fuel a max_size_mb w1) as [[cs w2]|] eqn:Hsplit;
    [|discriminate].
  destruct cs as [|c cs]; [discriminate|].
  destruct (transcribe_loop whisper (c :: cs) [] w2) as [[trs|] w3] eqn:Htr;
    [|discriminate].
  destruct (process_transcription trs) as [data|] eqn:Hpt; [|discriminate].
  inversion H; subst w'; clear H.
  apply main_chunks in Hsplit.
  destruct Hsplit as (steps & evs & Hcs & Hcont & _ & _ & Hfiles & _).
  apply transcribe_loop_replies in Htr. destruct Htr as (trs' & -> & Hall).
  rewrite Hcs in Hall. simpl app in *.
  exists steps, trs', data. split; [exact Hcont|].
  split; [eapply replies_of_steps; eassumption|].
  split; [now rewrite <- process_transcription_assemble | reflexivity].
Qed.

Lemma table_of_finished_run_witness :
  exists w' steps trs rows,
    main 30 sample_blob sample_audio 24 sample_service empty_world = Some (Finished, w')
    /\ contiguous 0 150000 (map (file_of sample_audio) steps)
    /\ Forall2 (fun st tr => sample_service (file_of sample_audio st) = Some (fst tr)
                             /\ snd tr = (inject_Z (st_start st) / 1000)%Q)
         steps trs
    /\ assemble trs = Some rows
    /\ csv w' = Some rows.
Proof.
  destruct (main 30 sample_blob sample_audio 24 sample_service empty_world)
    as [[[] w']|] eqn:H; try (vm_compute in H; discriminate).
  destruct (table_of_finished_run _ _ _ _ _ _ _ H) as (steps & trs & rows & Hrest).
  exists w', steps, trs, rows. split; [reflexivity | exact Hrest].
Defined.

Lemma chunker_events_not_csv (a : audio) (evs : list event) :
  Forall (chunker_event a) evs -> Forall not_csv evs.
Proof.
  intros H. eapply List.Forall_impl; [|exact H].
  intros e He. destruct e; simpl in *; tauto.
Qed.

(** X8.  [main] writes the table only when the run finishes: after a
    failed split, a request that raised or an exception of
    [process_transcription], the table is what it was and the history of
    the run holds no write of it; after a finished run the write is the
    last event.  And whatever the outcome, no file that was
    in the temporary directory before the run is removed or overwritten. *)
Theorem table_only_when_finished (fuel : nat) (blob : mp3_file) (a : audio)
    (max_size_mb : Z) (whisper : service) (w : world) (ex : run_exit) (w' : world) :
  main fuel blob a max_size_mb whisper w = Some (ex, w') ->
  (forall n f, tmp w !! n = Some f -> tmp w' !! n = Some f)
  /\ exists evs,
       log w' = log w ++ evs
       /\ match ex with
          | Finished =>
              exists rows evs0,
                csv w' = Some rows /\ evs = evs0 ++ [EvCsv rows]
                /\ Forall not_csv evs0
          | SplitFailed | Raised | ProcessingRaised =>
              csv w' = csv w /\ Forall not_csv evs
          end.
Proof.
  unfold main, extract_audio. intros H.
  pose proof (mktemp_fresh w) as Hnew.
  set (audio_file := mktemp w) in *.
  set (w1 := write_file audio_file blob w) in *.
  assert (Hw1 : forall n f, tmp w !! n = Some f -> tmp w1 !! n = Some f).
  { intros n f Hn. unfold w1. simpl. rewrite lookup_insert_ne; [exact Hn|].
    intros <-. congruence. }
  destruct (split_audio_by_size fuel a max_size_mb w1) as [[cs w2]|] eqn:Hsplit;
    [|discriminate].
  destruct cs as [|c cs].
  { inversion H; subst ex w'; clear H.
    unfold split_audio_by_size in Hsplit.
    destruct (split_loop fuel a max_size_mb 0 [] w1) as [[e w2']|] eqn:Hloop;
      [|discriminate].
    inversion Hsplit; subst w2'; clear Hsplit.
    apply split_loop_spec in Hloop.
    destruct Hloop as (steps & evs & fin & Hlog & Hcsv & Hok & _ & _ & _ & _
                       & Hdir & _).
    split; [intros n f Hn; apply Hdir; left; now apply Hw1|].
    exists (evs ++ [EvError split_failed_msg]).
    split; [simpl; rewrite Hlog; now rewrite <- app_assoc|].
    split; [simpl; exact Hcsv|].
    apply Forall_app. split; [now apply (chunker_events_not_csv a)|].
    repeat constructor. }
  apply main_chunks in Hsplit.
  destruct Hsplit as (steps & evs1 & Hcs & _ & _ & Hfresh & _ & Hkept2 & Hcsv2
                      & Hlog2 & Hok).
  apply chunker_events_not_csv in Hok.
  destruct (transcribe_loop whisper (c :: cs) [] w2) as [res w3] eqn:Htr.
  apply transcribe_loop_frame in Htr.
  destruct Htr as (Hkept3 & Hcsv3 & evs2 & Hlog3 & Hev2).
  rewrite Hcs, chunk_names in Hkept3.
  assert (Hold : forall n f, tmp w !! n = Some f -> tmp w3 !! n = Some f).
  { intros n f Hn. apply Hw1 in Hn.
    assert (Hout : ~ In n (map st_name steps)).
    { intros Hin. apply in_map_iff in Hin. destruct Hin as (st & <- & Hst).
      rewrite List.Forall_forall in Hfresh. specialize (Hfresh st Hst). congruence. }
    rewrite (Hkept3 n Hout), (Hkept2 n Hout). exact Hn. }
  assert (Hold4 : forall n f, tmp w !! n = Some f ->
                          delete audio_file (tmp w3) !! n = Some f).
  { intros n f Hn. rewrite lookup_delete_ne; [now apply Hold|].
    intros <-. congruence. }
  destruct res as [trs|]; [destruct (process_transcription trs) as [data|]|];
    inversion H; subst ex w'; clear H.
  - split; [exact Hold4|].
    eexists (evs1 ++ evs2 ++ [EvUnlink audio_file; EvCsv _]).
      split; [simpl; rewrite Hlog3, Hlog2; unfold w1; simpl;
              rewrite <- !app_assoc; reflexivity|].
      eexists _, (evs1 ++ evs2 ++ [EvUnlink audio_file]).
      split; [reflexivity|]. split; [now rewrite <- !app_assoc|].
      apply Forall_app. split; [exact Hok|].
      apply Forall_app. split; [exact Hev2 | repeat constructor].
  - split; [exact Hold4|].
    exists (evs1 ++ evs2 ++ [EvUnlink audio_file]).
    split; [simpl; rewrite Hlog3, Hlog2; unfold w1; simpl;
            rewrite <- !app_assoc; reflexivity|].
    split; [simpl; rewrite Hcsv3, Hcsv2; reflexivity|].
    apply Forall_app. split; [exact Hok|].
    apply Forall_app. split; [exact Hev2 | repeat constructor].
  - split; [exact Hold|].
    exists (evs1 ++ evs2).
    split; [rewrite Hlog3, Hlog2; unfold w1; simpl; now rewrite app_assoc|].
    split; [rewrite Hcsv3, Hcsv2; reflexivity|]. apply Forall_app. split; assumption.
Qed.

Lemma table_only_when_finished_witness :
  exists w',
    main 30 sample_blob sample_audio 24 failing_service empty_world = Some (Raised, w')
    /\ (forall n f, tmp empty_world !! n = Some f -> tmp w' !! n = Some f)
    /\ exists evs, log w' = log empty_world ++ evs
                   /\ csv w' = csv empty_world /\ Forall not_csv evs.
Proof.
  destruct (main 30 sample_blob sample_audio 24 failing_service empty_world)
    as [[[] w']|] eqn:H; try (vm_compute in H; discriminate).
  exists w'. split; [reflexivity|].
  exact (table_only_when_finished 30 sample_blob sample_audio 24 failing_service
           empty_world Raised w' H).
Defined.

(** X9.  The two exceptions of the embedding leave different files.
    When a transcription call raises, it is the request that raised and
    not [open]: the request is the last event of the run, and the chunk
    file that was sent and the extracted audio file are both still in the
    temporary directory.  When [process_transcription] raises, every
    request was answered and every file of the run is already removed:
    the temporary directory is what it was before the run.  The table is
    untouched in both cases.  (Exceptions of [extract_audio], of the
    export and of [os.remove] are not part of the embedding.) *)
Theorem raised_run_leaves_files (fuel : nat) (blob : mp3_file) (a : audio)
    (max_size_mb : Z) (whisper : service) (w : world) (ex : run_exit) (w' : world) :
  main fuel blob a max_size_mb whisper w = Some (ex, w') ->
  match ex with
  | Raised =>
      tmp w !! mktemp w = None
      /\ tmp w' !! mktemp w = Some blob
      /\ csv w' = csv w
      /\ exists name f evs,
           tmp w !! name = None
           /\ tmp w' !! name = Some f
           /\ whisper f = None
           /\ log w' = log w ++ evs ++ [EvTranscribe name false]
  | ProcessingRaised =>
      tmp w' = tmp w
      /\ csv w' = csv w
      /\ exists evs, log w' = log w ++ evs ++ [EvUnlink (mktemp w)]
  | Finished | SplitFailed => True
  end.
Proof.
  unfold main, extract_audio. intros H.
  pose proof (mktemp_fresh w) as Hnew.
  set (audio_file := mktemp w) in *.
  set (w1 := write_file audio_file blob w) in *.
  assert (Haudio : tmp w1 !! audio_file = Some blob)
    by (unfold w1; simpl; apply lookup_insert_eq).
  destruct (split_audio_by_size fuel a max_size_mb w1) as [[cs w2]|] eqn:Hsplit;
    [|discriminate].
  destruct cs as [|c cs]; [inversion H; exact I|].
  destruct (transcribe_loop whisper (c :: cs) [] w2) as [[trs|] w3] eqn:Htr.
  { destruct (process_transcription trs); inversion H; subst ex w'; [exact I|].
    split; [exact (loop_cleanup _ _ _ _ _ _ _ _ _ _ _ Hsplit Htr)|].
    pose proof (transcribe_loop_frame _ _ _ _ _ _ Htr) as (_ & Hcsv3 & evs2 & Hlog3 & _).
    apply main_chunks in Hsplit.
    destruct Hsplit as (steps & evs1 & _ & _ & _ & _ & _ & _ & Hcsv2 & Hlog2 & _).
    split; [simpl; rewrite Hcsv3, Hcsv2; reflexivity|].
    exists (evs1 ++ evs2). simpl. rewrite Hlog3, Hlog2. unfold w1. simpl.
    rewrite <- !app_assoc. reflexivity. }
  inversion H; subst ex w'; clear H.
  apply main_chunks in Hsplit.
  destruct Hsplit as (steps & evs1 & Hcs & _ & Hdup & Hfresh & Hfiles & Hkept2
                      & Hcsv2 & Hlog2 & _).
  rewrite List.Forall_forall in Hfresh, Hfiles.
  assert (Hout : ~ In audio_file (map st_name steps)).
  { intros Hin. apply in_map_iff in Hin. destruct Hin as (st & Heq & Hst).
    specialize (Hfresh st Hst). congruence. }
  pose proof (transcribe_loop_frame _ _ _ _ _ _ Htr) as (Hkept3 & Hcsv3 & _).
  rewrite Hcs, chunk_names in Hkept3.
  split; [exact Hnew|].
  split; [rewrite (Hkept3 _ Hout), (Hkept2 _ Hout); exact Haudio|].
  split; [rewrite Hcsv3, Hcsv2; reflexivity|].
  apply transcribe_loop_raised in Htr.
  - destruct Htr as (c' & f & evs & Hin & _ & Hnone & Hstill & Hlog).
    exists (fst c'), f, (evs1 ++ evs).
    rewrite Hcs in Hin. apply in_map_iff in Hin. destruct Hin as (st & <- & Hst).
    split.
    { specialize (Hfresh st Hst). unfold w1 in Hfresh. simpl in *.
      apply lookup_insert_None in Hfresh. tauto. }
    split; [exact Hstill|]. split; [exact Hnone|].
    rewrite Hlog, Hlog2. unfold w1. simpl. rewrite <- !app_assoc. reflexivity.
  - rewrite Hcs, chunk_names. exact Hdup.
  - rewrite Hcs. apply Forall_map. apply List.Forall_forall. intros st Hst.
    simpl. rewrite (Hfiles st Hst). eauto.
Qed.

Lemma raised_run_leaves_files_witness :
  (exists w',
     main 30 sample_blob sample_audio 24 failing_service empty_world = Some (Raised, w')
     /\ tmp w' !! mktemp empty_world = Some sample_blob
     /\ exists name f evs,
          tmp empty_world !! name = None
          /\ tmp w' !! name = Some f
          /\ failing_service f = None
          /\ log w' = log empty_world ++ evs ++ [EvTranscribe name false])
  /\ (exists w',
        main 30 sample_blob sample_audio 24 infinite_service empty_world
        = Some (ProcessingRaised, w')
        /\ tmp w' = tmp empty_world /\ csv w' = csv empty_world).
Proof.
  split.
  - destruct (main 30 sample_blob sample_audio 24 failing_service empty_world)
      as [[[] w']|] eqn:H; try (vm_compute in H; discriminate).
    exists w'. split; [reflexivity|].
    destruct (raised_run_leaves_files 30 sample_blob sample_audio 24 failing_service
                empty_world Raised w' H) as (_ & Ha & _ & Hrest).
    split; [exact Ha | exact Hrest].
  - destruct (main 30 sample_blob sample_audio 24 infinite_service empty_world)
      as [[[] w']|] eqn:H; try (vm_compute in H; discriminate).
    exists w'. split; [reflexivity|].
    destruct (raised_run_leaves_files 30 sample_blob sample_audio 24 infinite_service
                empty_world ProcessingRaised w' H) as (Ht & Hc & _).
    split; [exact Ht | exact Hc].
Defined.

(* ================================================================= *)
(** ** The texts of the table *)

(** Every row of the table is the row of a segment. *)
Lemma rows_of_segments (ts : list (transcription * Q)) (rows : list row) :
  process_transcription ts = Some rows ->
  Forall (fun r => exists p st en,
              In p (timed ts)
              /\ r = {| Timestamp := label (st, en); Text := strip (text (snd p)) |})
    rows.
Proof.
  rewrite process_transcription_assemble. intros H. apply assemble_rows in H.
  induction H as [|p r l rows Hr _ IH]; constructor.
  - apply row_of_Some in Hr. destruct Hr as (st & en & _ & _ & ->).
    exists p, st, en. split; [now left | reflexivity].
  - eapply List.Forall_impl; [|exact IH].
    intros r' (p' & st & en & Hin & ->). exists p', st, en. split; [now right | reflexivity].
Qed.

(** X10.  Trimming removes whitespace and nothing else: the text of a
    segment is its trimmed text between two runs of whitespace; the
    trimmed text neither begins nor ends with whitespace, so trimming it
    again changes nothing; and every row of a table that
    [process_transcription] returns has a trimmed text. *)
Theorem texts_are_trimmed :
  (forall s, exists l r,
      s = (l ++ strip s ++ r)%string /\ all_space l /\ all_space r)
  /\ (forall s, trimmed (strip s) /\ strip (strip s) = strip s)
  /\ (forall ts rows,
        process_transcription ts = Some rows ->
        Forall (fun r => trimmed (Text r)) rows).
Proof.
  split; [|split].
  - intros s. destruct (lstrip_split s) as (l & Hl & Hsl).
    destruct (rstrip_split (lstrip s)) as (r & Hr & Hsr).
    exists l, r. unfold strip. rewrite <- Hr. auto.
  - intros s. pose proof (strip_trimmed s) as Ht. split; [exact Ht|].
    destruct Ht as [Hl Hr]. unfold strip at 1. now rewrite Hl, Hr.
  - intros ts rows H. apply rows_of_segments in H.
    eapply List.Forall_impl; [|exact H].
    intros r (p & st & en & _ & ->). simpl. apply strip_trimmed.
Qed.

Lemma texts_are_trimmed_witness :
  (exists l r, "  hi there "%string = (l ++ strip "  hi there " ++ r)%string
               /\ all_space l /\ all_space r)
  /\ exists rows,
       process_transcription sample_replies = Some rows
       /\ Forall (fun r => trimmed (Text r)) rows.
Proof.
  destruct texts_are_trimmed as (H1 & _ & H3).
  split; [apply H1|].
  destruct (process_transcription sample_replies) as [rows|] eqn:H;
    [|vm_compute in H; discriminate].
  exists rows. split; [reflexivity | exact (H3 sample_replies rows H)].
Defined.

(* ================================================================= *)
(** ** Assembling in parts *)

(** X11.  The table of two lists of replies one after the other is the
    table of the first followed by the table of the second, and the
    assembler raises on the two exactly when it raises on one of them; no
    replies give no rows, and a reply without segments gives no row. *)
Theorem process_transcription_app (ts1 ts2 : list (transcription * Q)) :
  process_transcription (ts1 ++ ts2)
  = match process_transcription ts1, process_transcription ts2 with
    | Some rows1, Some rows2 => Some (rows1 ++ rows2)
    | _, _ => None
    end
  /\ process_transcription [] = Some []
  /\ (forall off, process_transcription (ts1 ++ ({| segments := [] |}, off) :: ts2)
                  = process_transcription (ts1 ++ ts2)).
Proof.
  rewrite !process_transcription_assemble. unfold assemble.
  split; [rewrite timed_app; apply mapM_app_option|]. split; [reflexivity|].
  intros off. rewrite !process_transcription_assemble. unfold assemble.
  rewrite !timed_app. reflexivity.
Qed.

(* ================================================================= *)
(** ** Labels and whole seconds *)

Lemma all_chars_app (p : ascii -> bool) (s t : string) :
  all_chars p (s ++ t) = all_chars p s && all_chars p t.
Proof.
  induction s as [|c s IH]; [reflexivity|].
  rewrite str_app_cons. simpl. rewrite IH. now rewrite andb_assoc.
Qed.

Lemma all_chars_weaken (p q : ascii -> bool) (s : string) :
  (forall c, p c = true -> q c = true) ->
  all_chars p s = true -> all_chars q s = true.
Proof.
  intros Hpq. induction s as [|c s IH]; simpl; [reflexivity|].
  rewrite !andb_true_iff. intros [Hc Hs]. auto.
Qed.

Lemma uint_chars (d : Decimal.uint) :
  all_chars number_char (NilEmpty.string_of_uint d) = true.
Proof. induction d; simpl; auto. Qed.

Lemma str_of_int_chars (n : Z) : all_chars number_char (str_of_int n) = true.
Proof.
  unfold str_of_int. destruct (Z.to_int n) as [d|d]; simpl.
  - destruct d; try reflexivity; apply (uint_chars (_ _)).
  - destruct d; try reflexivity; apply (uint_chars (_ _)).
Qed.

Lemma format_02d_chars (n : Z) : all_chars number_char (format_02d n) = true.
Proof.
  unfold format_02d. destruct (_ <? _)%nat.
  - rewrite str_app_cons, str_app_nil_l. simpl. apply str_of_int_chars.
  - apply str_of_int_chars.
Qed.

(** A decimal number reads back as itself. *)
Lemma int_of_str_of_int (n : Z) : int_of_str (str_of_int n) = Some n.
Proof.
  unfold int_of_str, str_of_int.
  rewrite <- (DecimalZ.of_to n) at 2.
  destruct (Z.to_int n) as [d|d].
  - destruct (Decimal.uint_eq_dec d Decimal.Nil) as [->|Hd]; [reflexivity|].
    rewrite NilZero.isi; [reflexivity | congruence | discriminate].
  - destruct (Decimal.uint_eq_dec d Decimal.Nil) as [->|Hd]; [reflexivity|].
    rewrite NilZero.isi; [reflexivity | discriminate | congruence].
Qed.

(** A zero in front of a short number does not change what it reads as. *)
Lemma int_of_str_padded (s : string) (n : Z) :
  int_of_str s = Some n -> (String.length s < 2)%nat ->
  int_of_str (String "0" s) = Some n.
Proof.
  unfold int_of_str. destruct s as [|c s]; [discriminate|].
  intros H Hlen. destruct s as [|c' s']; [|simpl in Hlen; lia].
  cbn [NilZero.int_of_string] in *.
  destruct (Ascii.eqb c "-") eqn:Hc; [discriminate|].
  change (Ascii.eqb "0" "-") with false. cbv iota.
  cbn [NilZero.uint_of_string NilEmpty.uint_of_string] in *.
  destruct (uint_of_char c (Some Decimal.Nil)) as [d|] eqn:Hd; [|discriminate].
  simpl in H. simpl. exact H.
Qed.

Lemma int_of_format_02d (n : Z) : int_of_str (format_02d n) = Some n.
Proof.
  unfold format_02d. pose proof (int_of_str_of_int n) as H.
  destruct (String.length (str_of_int n) <? 2)%nat eqn:Hlen; [|exact H].
  apply Nat.ltb_lt in Hlen. rewrite str_app_cons, str_app_nil_l.
  now apply int_of_str_padded.
Qed.

(** Two texts with a colon after a number each are equal only part by
    part. *)
Lemma split_at_colon (a a' b b' : string) :
  all_chars number_char a = true -> all_chars number_char a' = true ->
  (a ++ ":" ++ b)%string = (a' ++ ":" ++ b')%string ->
  a = a' /\ b = b'.
Proof.
  revert a'. induction a as [|c a IH]; intros a' Ha Ha' H.
  - destruct a' as [|c' a'].
    + rewrite !str_app_nil_l, !str_app_cons in H. inversion H. auto.
    + rewrite !str_app_nil_l, !str_app_cons in H. inversion H; subst c'.
      simpl in Ha'. discriminate.
  - destruct a' as [|c' a'].
    + rewrite !str_app_nil_l, !str_app_cons in H. inversion H; subst c.
      simpl in Ha. discriminate.
    + rewrite !str_app_cons in H. inversion H; subst c'.
      simpl in Ha, Ha'. apply andb_true_iff in Ha, Ha'.
      destruct (IH a') as [-> ->]; tauto.
Qed.

(** X12.  Two times get the same label exactly when they agree to the
    whole second: minutes are never wrapped, so labels do not collide,
    before or after the first hour. *)
Theorem label_determines_seconds (q1 q2 : Q) :
  format_time q1 = format_time q2 <-> py_int q1 = py_int q2.
Proof.
  rewrite !format_time_unfold. split; [|now intros ->].
  intros H. apply split_at_colon in H; try apply format_02d_chars.
  destruct H as [Hm Hs].
  apply (f_equal int_of_str) in Hm, Hs. rewrite !int_of_format_02d in Hm, Hs.
  inversion Hm as [Hm']. inversion Hs as [Hs'].
  rewrite (Z.div_mod (py_int q1) 60), (Z.div_mod (py_int q2) 60) by lia.
  now rewrite Hm', Hs'.
Qed.

Lemma label_determines_seconds_witness :
  format_time (7325 # 1) <> format_time (125 # 1)
  /\ format_time (251 # 2) = format_time (125 # 1).
Proof.
  split.
  - intros H. apply (proj1 (label_determines_seconds _ _)) in H. discriminate.
  - apply (proj2 (label_determines_seconds _ _)). reflexivity.
Defined.

(* ================================================================= *)
(** ** The estimate and the duration that is processed *)

(** X13.  The estimate is never negative for a duration that is not;
    every duration from 2^-1000 seconds up to a minute costs exactly the
    price of one minute; and a duration so short that the quotient by 60
    rounds to zero, at most 2^-1075 minutes, costs nothing although it is
    not zero. *)
Theorem estimate_cost_bounds (d : Q) :
  ((0 <= d)%Q -> (0 <= estimate_cost d)%Q)
  /\ ((1 # 2 ^ 1000 <= d)%Q -> (d <= 60)%Q -> (estimate_cost d == PricePerMinute)%Q)
  /\ ((0 <= d)%Q -> (d / 60 <= 1 # 2 ^ 1075)%Q -> (estimate_cost d == 0)%Q).
Proof.
  split; [|split].
  - intros H. apply Qle_trans with (estimate_cost 0).
    + vm_compute. discriminate.
    + now apply estimate_cost_mono.
  - intros Hlo Hhi. unfold estimate_cost.
    assert (Hmin : math_ceil (round64 (d / 60)) = 1).
    { unfold math_ceil. apply Z.le_antisymm.
      - rewrite <- (Qceiling_Z 1). apply Qceiling_resp_le.
        rewrite <- (round64_inject_Z 1) by (vm_compute; reflexivity).
        apply round64_mono. apply Qle_shift_div_r; [reflexivity|].
        change (inject_Z 1) with 1%Q. lra.
      - assert (Hpos : 0 < Qceiling (round64 (d / 60))); [|lia].
        rewrite Zlt_Qlt. eapply Qlt_le_trans; [|apply Qle_ceiling].
        apply Qlt_le_trans with (round64 ((1 # 2 ^ 1000) / 60)).
        + vm_compute. reflexivity.
        + apply round64_mono. apply Qmult_le_compat_r; [exact Hlo | discriminate]. }
    rewrite Hmin. vm_compute. reflexivity.
  - intros Hlo Hhi. unfold estimate_cost.
    assert (Hq : (round64 (d / 60) == 0)%Q).
    { apply Qle_antisym.
      - apply Qle_trans with (round64 (1 # 2 ^ 1075)).
        + now apply round64_mono.
        + vm_compute. discriminate.
      - apply round64_nonneg. apply Qle_shift_div_l; [reflexivity|]. lra. }
    unfold math_ceil. rewrite (Qceiling_comp _ _ Hq). vm_compute. reflexivity.
Qed.

Lemma estimate_cost_bounds_witness :
  (estimate_cost (1 # 10) == PricePerMinute)%Q
  /\ (estimate_cost (1 # 2 ^ 1074) == 0)%Q.
Proof.
  destruct (estimate_cost_bounds (1 # 10)) as (_ & H2 & _).
  destruct (estimate_cost_bounds (1 # 2 ^ 1074)) as (_ & _ & H3).
  split; [apply H2; vm_compute; discriminate|].
  apply H3; vm_compute; discriminate.
Defined.

Lemma py_min_le_l (a b : Q) : (py_min a b <= a)%Q.
Proof.
  unfold py_min. destruct (Qle_bool a b) eqn:H; [apply Qle_refl|].
  destruct (Qlt_le_dec b a) as [Hlt|Hle]; [now apply Qlt_le_weak|].
  apply Qle_bool_iff in Hle. congruence.
Qed.

Lemma py_min_le_r (a b : Q) : (py_min a b <= b)%Q.
Proof.
  unfold py_min. destruct (Qle_bool a b) eqn:H; [|apply Qle_refl].
  now apply Qle_bool_iff.
Qed.

(** X14.  The duration [main] chooses never exceeds the video; in test
    mode it never exceeds TEST_MODE_DURATION either, and the estimate
    shown is at most the estimate for the whole video and at most the
    estimate for TEST_MODE_DURATION; without test mode it is the whole
    video. *)
Theorem test_mode_caps (test_mode : bool) (TEST_MODE_DURATION : Z) (video_duration : Q) :
  let d := duration_to_process test_mode TEST_MODE_DURATION video_duration in
  (d <= video_duration)%Q
  /\ (estimate_cost d <= estimate_cost video_duration)%Q
  /\ (test_mode = true ->
      (d <= inject_Z TEST_MODE_DURATION)%Q
      /\ (estimate_cost d <= estimate_cost (inject_Z TEST_MODE_DURATION))%Q)
  /\ (test_mode = false -> d = video_duration).
Proof.
  intros d. unfold d, duration_to_process.
  destruct test_mode.
  - pose proof (py_min_le_l (inject_Z TEST_MODE_DURATION) video_duration).
    pose proof (py_min_le_r (inject_Z TEST_MODE_DURATION) video_duration).
    split; [assumption|]. split; [now apply estimate_cost_mono|].
    split; [|discriminate]. intros _.
    split; [assumption | now apply estimate_cost_mono].
  - split; [apply Qle_refl|]. split; [apply Qle_refl|].
    split; [discriminate | reflexivity].
Qed.

Lemma test_mode_caps_witness :
  (duration_to_process true 600 5400 <= inject_Z 600)%Q
  /\ (estimate_cost (duration_to_process true 600 5400) <= 6 # 100)%Q.
Proof.
  destruct (test_mode_caps true 600 5400) as (_ & _ & H & _).
  destruct (H eq_refl) as [H1 H2]. split; [exact H1|].
  eapply Qle_trans; [exact H2|]. vm_compute. discriminate.
Defined.




(* ================================================================= *)
(** ** The text of the table *)

Lemma str_app_inv_head (s a b : string) : (s ++ a = s ++ b)%string -> a = b.
Proof.
  induction s as [|c s IH]; [now rewrite !str_app_nil_l|].
  rewrite !str_app_cons. intros H. inversion H. auto.
Qed.

Lemma read_plain_field (f rest : string) :
  needs_quotes f = false ->
  match rest with
  | EmptyString => True
  | String c _ => csv_special c = true
  end ->
  read_plain (f ++ rest) = (f, rest).
Proof.
  intros Hf Hrest. induction f as [|c f IH].
  - rewrite str_app_nil_l. destruct rest as [|c r]; [reflexivity|].
    simpl. now rewrite Hrest.
  - simpl in Hf. apply orb_false_iff in Hf. destruct Hf as [Hc Hf].
    rewrite str_app_cons. simpl. rewrite Hc, (IH Hf). reflexivity.
Qed.

Lemma read_quoted_field (f rest : string) :
  match rest with
  | EmptyString => True
  | String c _ => Ascii.eqb c dquote = false
  end ->
  read_quoted (double_quotes f ++ String dquote rest) = Some (f, rest).
Proof.
  intros Hrest. induction f as [|c f IH].
  - cbn [double_quotes]. rewrite str_app_nil_l. cbn [read_quoted].
    rewrite Ascii.eqb_refl.
    destruct rest as [|c r]; [reflexivity | now rewrite Hrest].
  - cbn [double_quotes]. destruct (Ascii.eqb c dquote) eqn:Hc.
    + apply Ascii.eqb_eq in Hc. subst c.
      rewrite !str_app_cons. cbn [read_quoted]. rewrite !Ascii.eqb_refl.
      now rewrite IH.
    + rewrite str_app_cons. cbn [read_quoted]. rewrite Hc. now rewrite IH.
Qed.

(** A written field reads back as itself, with what follows, when what
    follows begins with the delimiter or the line terminator. *)
Lemma read_written_field (f : string) (c : ascii) (rest : string) :
  csv_special c = true -> Ascii.eqb c dquote = false ->
  read_field (csv_field f ++ String c rest) = Some (f, String c rest).
Proof.
  intros Hsp Hnq. unfold csv_field. destruct (needs_quotes f) eqn:Hf.
  - rewrite str_app_cons, str_app_assoc, str_app_cons, str_app_nil_l.
    cbn [read_field]. rewrite Ascii.eqb_refl.
    apply read_quoted_field. exact Hnq.
  - destruct f as [|c0 f].
    + rewrite str_app_nil_l. cbn [read_field]. rewrite Hnq.
      simpl. now rewrite Hsp.
    + pose proof Hf as Hf'. simpl in Hf'. apply orb_false_iff in Hf'.
      destruct Hf' as [Hc0 _].
      assert (Hq : Ascii.eqb c0 dquote = false).
      { unfold csv_special in Hc0. rewrite !orb_false_iff in Hc0. tauto. }
      rewrite str_app_cons. cbn [read_field]. rewrite Hq.
      rewrite <- str_app_cons. f_equal. apply read_plain_field; assumption.
Qed.

(** Two written rows, whatever follows them, are equal only field by
    field. *)
Lemma writerow_inj (a b a' b' t t' : string) :
  (writerow a b ++ t)%string = (writerow a' b' ++ t')%string ->
  a = a' /\ b = b' /\ t = t'.
Proof.
  unfold writerow, crlf. rewrite !str_app_assoc, !str_app_cons, !str_app_assoc.
  rewrite !str_app_cons, !str_app_nil_l. intros H.
  pose proof (f_equal read_field H) as H1.
  rewrite !read_written_field in H1 by reflexivity.
  injection H1 as Ha Hrest. split; [exact Ha|].
  pose proof (f_equal read_field Hrest) as H2.
  rewrite !read_written_field in H2 by reflexivity.
  injection H2 as Hb Ht. auto.
Qed.

Lemma csv_text_body (data : list row) :
  csv_text data = (writerow "Timestamp" "Text" ++ csv_body data)%string.
Proof.
  unfold csv_text. generalize (writerow "Timestamp" "Text").
  induction data as [|r data IH]; intros out; simpl.
  - now rewrite str_app_nil_r.
  - rewrite IH. apply str_app_assoc.
Qed.

Lemma writerow_nonempty (a b t : string) : (writerow a b ++ t)%string <> EmptyString.
Proof.
  unfold writerow. rewrite str_app_assoc.
  destruct (csv_field a); [rewrite str_app_nil_l|]; rewrite str_app_cons; discriminate.
Qed.

Lemma csv_body_inj (d1 : list row) :
  forall d2, csv_body d1 = csv_body d2 -> d1 = d2.
Proof.
  induction d1 as [|r1 d1 IH]; intros [|r2 d2] H; simpl in H.
  - reflexivity.
  - symmetry in H. now apply writerow_nonempty in H.
  - now apply writerow_nonempty in H.
  - apply writerow_inj in H. destruct H as (Ha & Hb & Ht).
    destruct r1, r2. simpl in *. subst. f_equal. now apply IH.
Qed.

(** X16.  The file that [save_to_csv] writes determines the table:
    two tables with the same text are the same list of rows, whatever
    commas, quotes and line breaks their fields hold. *)
Theorem csv_text_injective (d1 d2 : list row) :
  csv_text d1 = csv_text d2 -> d1 = d2.
Proof.
  rewrite !csv_text_body. intros H.
  apply str_app_inv_head in H. now apply csv_body_inj.
Qed.

Lemma csv_text_injective_witness :
  quoted_rows = quoted_rows
  /\ csv_text comma_in_text <> csv_text comma_in_label.
Proof.
  split.
  - exact (csv_text_injective quoted_rows quoted_rows eq_refl).
  - intros H. apply csv_text_injective in H. discriminate H.
Defined.

Example csv_text_quoted :
  csv_text quoted_rows
  = ("Timestamp,Text" ++ crlf
     ++ "00:00 - 00:02," ++ String dquote
          ("Hi, " ++ String dquote (String dquote
             ("you" ++ String dquote (String dquote
                (String lf ("?" ++ String dquote crlf)))))))%string.
Proof. vm_compute. reflexivity. Qed.

Lemma label_chars_plain (c : ascii) : label_char c = true -> csv_special c = false.
Proof.
  destruct c as [b0 b1 b2 b3 b4 b5 b6 b7].
  destruct b0, b1, b2, b3, b4, b5, b6, b7; intros H;
    first [reflexivity | discriminate H].
Qed.

Lemma number_chars_label (c : ascii) : number_char c = true -> label_char c = true.
Proof. unfold label_char. intros ->. reflexivity. Qed.

Lemma plain_chars_no_quotes (s : string) :
  all_chars label_char s = true -> needs_quotes s = false.
Proof.
  induction s as [|c s IH]; simpl; [reflexivity|].
  rewrite andb_true_iff. intros [Hc Hs].
  now rewrite (label_chars_plain c Hc), IH.
Qed.

Lemma format_time_chars (q : Q) : all_chars label_char (format_time q) = true.
Proof.
  rewrite format_time_unfold, !all_chars_app.
  rewrite !(all_chars_weaken number_char label_char _ number_chars_label
              (format_02d_chars _)).
  reflexivity.
Qed.

(** X17.  A timestamp label holds only digits, minus signs, colons and
    spaces, so [save_to_csv] never quotes it; and a row whose text holds
    no comma, quote character or line break is written verbatim, as the
    label, a comma, the text and CR LF.  The file always begins with the
    line Timestamp,Text. *)
Theorem labels_written_verbatim (ts : list (transcription * Q)) (rows : list row) :
  process_transcription ts = Some rows ->
  Forall (fun r =>
            all_chars label_char (Timestamp r) = true
            /\ csv_field (Timestamp r) = Timestamp r
            /\ (needs_quotes (Text r) = false ->
                writerow (Timestamp r) (Text r)
                = (Timestamp r ++ "," ++ Text r ++ crlf)%string))
    rows
  /\ csv_text rows = ("Timestamp,Text" ++ crlf ++ csv_body rows)%string.
Proof.
  intros H. split; [|apply csv_text_body].
  apply rows_of_segments in H. eapply List.Forall_impl; [|exact H].
  intros r (p & st & en & _ & ->). cbn [Timestamp Text].
  assert (Hchars : all_chars label_char (label (st, en)) = true).
  { unfold label. cbn [fst snd]. rewrite !all_chars_app, !format_time_chars.
    reflexivity. }
  assert (Hfield : csv_field (label (st, en)) = label (st, en)).
  { unfold csv_field. now rewrite (plain_chars_no_quotes _ Hchars). }
  split; [exact Hchars|]. split; [exact Hfield|].
  intros Htext. unfold writerow. rewrite Hfield. unfold csv_field at 1.
  rewrite Htext. reflexivity.
Qed.

Lemma labels_written_verbatim_witness :
  exists rows,
    process_transcription sample_replies = Some rows
    /\ Forall (fun r => csv_field (Timestamp r) = Timestamp r) rows
    /\ csv_text rows = ("Timestamp,Text" ++ crlf ++ csv_body rows)%string.
Proof.
  destruct (process_transcription sample_replies) as [rows|] eqn:H;
    [|vm_compute in H; discriminate].
  destruct (labels_written_verbatim sample_replies rows H) as [H1 H2].
  exists rows. split; [reflexivity|]. split; [|exact H2].
  eapply List.Forall_impl; [|exact H1]. intros r Hr. apply Hr.
Defined.

(* ================================================================= *)
(** ** How many exports, how many requests *)

Lemma exports_app (l1 l2 : list event) :
  exports (l1 ++ l2) = (exports l1 + exports l2)%nat.
Proof.
  induction l1 as [|e l1 IH]; [reflexivity|].
  destruct e; simpl; rewrite IH; reflexivity.
Qed.


Lemma attempt_loop_exports (a : audio) (max_size_mb : Z) (start_ms : Z) (fuel : nat) :
  forall (n : nat) (wd : Z) (w : world) (r : attempt_exit) (w' : world),
    (length (windows_from n wd) < n)%nat ->
    attempt_loop fuel a max_size_mb start_ms wd w = Some (r, w') ->
    exists evs,
      log w' = log w ++ evs
      /\ (1 <= exports evs <= length (windows_from n wd))%nat.
Proof.
  induction fuel as [|fuel IH]; intros n wd w r w' Hn H; [discriminate|].
  destruct n as [|n]; [simpl in Hn; lia|].
  rewrite attempt_loop_S in H. cbv zeta in H.
  cbn [windows_from length] in Hn |- *.
  destruct (fits _ _).
  - inversion H; subst r w'; clear H. eexists [_].
    split; [reflexivity | simpl; lia].
  - destruct (shrink wd <? 10000) eqn:Hs.
    + inversion H; subst r w'; clear H. eexists [_; _; _].
      split; [simpl; rewrite <- !app_assoc; reflexivity | simpl; lia].
    + apply (IH n) in H; [|lia]. destruct H as (evs & Hlog & Hcount).
      eexists ([_; _] ++ evs).
      split; [rewrite Hlog; simpl; rewrite <- !app_assoc; reflexivity|].
      simpl. lia.
Qed.

Lemma split_loop_exports (a : audio) (max_size_mb : Z) (fuel : nat) :
  forall (start_ms : Z) (chunks : list chunk) (w : world) (e : split_exit) (w' : world),
    split_loop fuel a max_size_mb start_ms chunks w = Some (e, w') ->
    exists evs k,
      log w' = log w ++ evs
      /\ (k <= exports evs <= 18 * k)%nat
      /\ match e with
         | Completed cs => length cs = (length chunks + k)%nat
         | Aborted => True
         end.
Proof.
  induction fuel as [|fuel IH]; intros start_ms chunks w e w' H; [discriminate|].
  rewrite split_loop_S in H.
  destruct (start_ms <? Z.of_N (len_ms a)).
  2:{ inversion H; subst e w'; clear H. exists [], O.
      rewrite app_nil_r. simpl. repeat split; lia. }
  destruct (attempt_loop fuel a max_size_mb start_ms 60000 w)
    as [[r w1]|] eqn:Hatt; [|discriminate].
  apply (attempt_loop_exports a max_size_mb start_ms fuel 32) in Hatt;
    [|rewrite window_chain_length; lia].
  rewrite window_chain_length in Hatt. destruct Hatt as (evs1 & Hlog1 & Hc1).
  destruct r as [name wd|].
  - apply IH in H. destruct H as (evs & k & Hlog & Hc & He).
    exists (evs1 ++ evs), (S k).
    split; [rewrite Hlog, Hlog1; now rewrite app_assoc|].
    split; [rewrite exports_app; lia|].
    destruct e as [cs|]; [|exact I]. rewrite He, length_app. simpl. lia.
  - inversion H; subst e w'; clear H. exists evs1, 1%nat.
    split; [exact Hlog1|]. split; [lia | exact I].
Qed.

(** X18.  A run that completes makes at least one and at most eighteen
    exports for each chunk it returns: the encoding work is bounded by the
    number of chunks, whatever the material. *)
Theorem exports_per_chunk (fuel : nat) (a : audio) (max_size_mb : Z)
    (w : world) (cs : list chunk) (w' : world) :
  split_loop fuel a max_size_mb 0 [] w = Some (Completed cs, w') ->
  exists evs,
    log w' = log w ++ evs
    /\ (length cs <= exports evs <= 18 * length cs)%nat.
Proof.
  intros H.
  pose proof (split_loop_exports _ _ _ _ _ _ _ _ H) as (evs & k & Hlog & Hc & Hk).
  simpl in Hk. exists evs. split; [exact Hlog|]. rewrite Hk. exact Hc.
Qed.

Lemma exports_per_chunk_witness :
  exists cs w' evs,
    split_loop 30 sample_audio 24 0 [] empty_world = Some (Completed cs, w')
    /\ log w' = log empty_world ++ evs
    /\ (length cs <= exports evs <= 18 * length cs)%nat.
Proof.
  destruct (split_loop 30 sample_audio 24 0 [] empty_world) as [[[cs|] w']|] eqn:H;
    [|vm_compute in H; discriminate..].
  destruct (exports_per_chunk 30 sample_audio 24 empty_world cs w' H) as (evs & Hl & Hc).
  exists cs, w', evs. split; [reflexivity|]. split; [exact Hl | exact Hc].
Defined.




